(** * Parallel multiway merge (tlx/algorithm/parallel_multiway_merge.hpp)

    A shallow embedding of the orchestration layer of tlx's parallel
    multiway merge: the filter that keeps non-empty input sequences, the
    clamp of the worker count, the allocation of the chunk table, the
    per-worker computation of the output offset and length, and the update
    of the callers' sequence cursors.

    Iterators are addresses ([Z]); [DiffType] values are mathematical
    integers (signed overflow is undefined behaviour and is not modelled);
    [size_t] values are integers in [0, 2^64) and the conversions between
    the two types that the source writes are spelled out with their
    wrap-around.  Input elements live in a read-only memory [Z -> A]; the
    target buffer is a finite map from addresses to elements.  Out-of-range
    vector accesses make the embedding return [None]. *)

From stdpp Require Import base tactics option numbers list list_numbers gmap.

Local Open Scope Z_scope.

(** ** Machine integers *)

Definition size_t_modulus : Z := 2 ^ 64.

Definition DiffType_max : Z := 2 ^ 63 - 1.

(** A value of type [size_t]. *)
Definition is_size_t (z : Z) : Prop := 0 ≤ z < size_t_modulus.

(** Conversion to [size_t] (as in [num_threads = total_size] and in the
    unsigned subtraction [num_threads - 1]). *)
Definition to_size_t (z : Z) : Z := z `mod` size_t_modulus.

(** [static_cast<DiffType>(n)] for a 64-bit [size_t] value. *)
Definition to_DiffType (z : Z) : Z :=
  let r := z `mod` size_t_modulus in
  if bool_decide (r ≤ DiffType_max) then r else r - size_t_modulus.

(** ** Sequences *)

(** [RandomAccessIteratorPair]: the pair (first, second) of one sequence. *)
Abbreviation range := (Z * Z)%type (only parsing).

Definition range_size (r : range) : Z := r.2 - r.1.

Definition non_empty (r : range) : bool := bool_decide (r.1 ≠ r.2).

Fixpoint sumZ (l : list Z) : Z :=
  match l with
  | [] => 0
  | x :: l' => x + sumZ l'
  end.

(** [operator[]] of a vector with a [size_t] index; [None] when the index
    is not below the size. *)
Definition vec_at {X : Type} (v : list X) (i : Z) : option X :=
  if bool_decide (0 ≤ i < Z.of_nat (length v)) then v !! Z.to_nat i else None.

(** Different splitting strategies for sorting/merging: by sampling, exact. *)
Inductive MultiwayMergeSplittingAlgorithm : Type :=
  | MWMSA_SAMPLING
  | MWMSA_EXACT
  | MWMSA_LAST.

Definition MWMSA_DEFAULT : MultiwayMergeSplittingAlgorithm := MWMSA_EXACT.

(** The loop of lines 100-106: one iteration adds a non-empty sequence to
    [seqs_ne] and its length to [total_size]. *)
Definition keep_non_empty (acc : Z * list range) (r : range) : Z * list range :=
  if non_empty r then (acc.1 + (r.2 - r.1), acc.2 ++ [r]) else acc.

Definition non_empty_sequences (seqs : list range) : Z * list range :=
  foldl keep_non_empty (0, []) seqs.

(** Lines 113-114: the clamp of the worker count. *)
Definition clamp_num_threads (num_threads total_size : Z) : Z :=
  if bool_decide (to_DiffType num_threads > total_size)
  then to_size_t total_size
  else num_threads.

(** Lines 118-121 and the planner's writes: [num_threads] rows of
    [num_seqs] entries.  A planner receives the table through a raw pointer
    to its rows and assigns entries; it is represented by the value
    [fill slab seq] it leaves in each entry.  The allocations of lines 118,
    121 and 158 are taken to succeed: a failed allocation throws before any
    planner or worker runs and is not part of the embedding, so a result of
    the embedding for a row count that cannot be allocated
    ([chunks_too_large], more than the largest value of [DiffType]) stands
    for no completed call of the source. *)
Definition allocate_chunks (fill : nat → nat → range)
    (num_threads : Z) (num_seqs : nat) : list (list range) :=
  (λ slab, fill slab <$> seq 0 num_seqs) <$> seq 0 (Z.to_nat num_threads).

(** The arguments of one call of the sequential merge by a worker. *)
Record worker_call : Type := WorkerCall {
  wc_row : list range;
  wc_target : Z;
  wc_size : Z
}.

(** Lines 165-169: one iteration of the loop that accumulates
    [target_position] and [local_size]. *)
Definition worker_step (chunks : list (list range)) (seqs_ne : list range)
    (iam : nat) (acc : option (Z * Z)) (s : nat) : option (Z * Z) :=
  '(target_position, local_size) ← acc;
  row ← chunks !! iam;
  c ← row !! s;
  q ← seqs_ne !! s;
  Some (target_position + (c.1 - q.1), local_size + (c.2 - c.1)).

Definition worker_sums (chunks : list (list range)) (seqs_ne : list range)
    (num_seqs iam : nat) : option (Z * Z) :=
  foldl (worker_step chunks seqs_ne iam) (Some (0, 0)) (seq 0 num_seqs).

(** Lines 184-189: the start of every non-empty sequence becomes the end of
    its chunk in row [num_threads - 1]; the subtraction is unsigned. *)
Fixpoint update_ends (chunks : list (list range)) (num_threads : Z)
    (seqs : list range) (count_seqs : nat) : option (list range) :=
  match seqs with
  | [] => Some []
  | r :: rest =>
      if non_empty r then
        row ← vec_at chunks (to_size_t (num_threads - 1));
        c ← row !! count_seqs;
        rest' ← update_ends chunks num_threads rest (S count_seqs);
        Some ((c.2, r.2) :: rest')
      else
        rest' ← update_ends chunks num_threads rest count_seqs;
        Some (r :: rest')
  end.

Section parallel_multiway_merge.
Context {A : Type}.

(** [MultiwayMergeAlgorithm] is declared in multiway_merge.hpp; the
    orchestration only forwards the value. *)
Context {MultiwayMergeAlgorithm : Type}.

(** The collaborators called by the orchestration.
    [multiway_merge_base Stable Sentinels row target size comp mwma mem buf]
    is the target buffer after the sequential merge of [row] wrote at
    [target]; a planner gives the entries it stores in the chunk table. *)
Variable multiway_merge_base :
  bool → bool → list range → Z → Z → (A → A → bool) →
  MultiwayMergeAlgorithm → (Z → A) → gmap Z A → gmap Z A.
Variable multiway_merge_sampling_splitting :
  bool → list range → Z → Z → (A → A → bool) → (Z → A) → Z → nat → nat → range.
Variable multiway_merge_exact_splitting :
  bool → list range → Z → Z → (A → A → bool) → (Z → A) → Z → nat → nat → range.

(** The state of the caller after the call. *)
Record result : Type := Result {
  res_seqs : list range;        (* the sequence set, starts updated *)
  res_target : gmap Z A;        (* the target buffer *)
  res_return : Z;               (* the iterator returned *)
  res_calls : list worker_call  (* the workers dispatched, in order of execution *)
}.

(** Lines 162-176: the body of worker [iam]. *)
Definition worker (Stable : bool) (chunks : list (list range))
    (seqs_ne : list range) (num_seqs : nat) (target size : Z)
    (comp : A → A → bool) (mwma : MultiwayMergeAlgorithm) (mem : Z → A)
    (st : option (gmap Z A * list worker_call)) (iam : nat)
    : option (gmap Z A * list worker_call) :=
  '(buf, calls) ← st;
  '(target_position, local_size) ← worker_sums chunks seqs_ne num_seqs iam;
  row ← chunks !! iam;
  let call := WorkerCall row (target + target_position)
                (Z.min local_size (size - target_position)) in
  Some (multiway_merge_base Stable false row (wc_target call) (wc_size call)
          comp mwma mem buf,
        calls ++ [call]).

(** The planner chosen by [mwmsa] (lines 123-136). *)
Definition planner (mwmsa : MultiwayMergeSplittingAlgorithm) :=
  match mwmsa with
  | MWMSA_SAMPLING => multiway_merge_sampling_splitting
  | _ => multiway_merge_exact_splitting
  end.

(** [parallel_multiway_merge_base].  The workers run concurrently (an OpenMP
    parallel region, or one [std::thread] per worker, joined before the
    cursor update); each reads the chunk table and the inputs and writes its
    own part of the target.  The embedding lets each worker take effect as a
    whole and takes the order in which they do as a parameter: [schedule n]
    lists the worker indices below [n] in that order. *)
Definition parallel_multiway_merge_base_sched (schedule : nat → list nat)
    (Stable : bool) (seqs : list range) (target size : Z)
    (comp : A → A → bool) (mwma : MultiwayMergeAlgorithm)
    (mwmsa : MultiwayMergeSplittingAlgorithm) (num_threads : Z)
    (mem : Z → A) (buf : gmap Z A) : option result :=
  let total_size := (non_empty_sequences seqs).1 in
  let seqs_ne := (non_empty_sequences seqs).2 in
  let num_seqs := length seqs_ne in
  if bool_decide (total_size = 0) || bool_decide (num_seqs = 0%nat)
  then Some (Result seqs buf target [])
  else
    let num_threads := clamp_num_threads num_threads total_size in
    let chunks :=
      allocate_chunks
        (planner mwmsa Stable seqs_ne size total_size comp mem num_threads)
        num_threads num_seqs in
    '(buf', calls) ←
      foldl (worker Stable chunks seqs_ne num_seqs target size comp mwma mem)
            (Some (buf, [])) (schedule (Z.to_nat num_threads));
    seqs' ← update_ends chunks num_threads seqs 0;
    Some (Result seqs' buf' (target + size) calls).

(** The workers take effect in index order. *)
Definition parallel_multiway_merge_base :=
  parallel_multiway_merge_base_sched (seq 0).

(** The two frontends (lines 222-237 and 264-279). *)
Definition parallel_multiway_merge
    (seqs : list range) (target size : Z)
    (comp : A → A → bool) (mwma : MultiwayMergeAlgorithm)
    (mwmsa : MultiwayMergeSplittingAlgorithm) (num_threads : Z)
    (mem : Z → A) (buf : gmap Z A) : option result :=
  parallel_multiway_merge_base (* Stable *) false
    seqs target size comp mwma mwmsa num_threads mem buf.

Definition stable_parallel_multiway_merge
    (seqs : list range) (target size : Z)
    (comp : A → A → bool) (mwma : MultiwayMergeAlgorithm)
    (mwmsa : MultiwayMergeSplittingAlgorithm) (num_threads : Z)
    (mem : Z → A) (buf : gmap Z A) : option result :=
  parallel_multiway_merge_base (* Stable *) true
    seqs target size comp mwma mwmsa num_threads mem buf.

End parallel_multiway_merge.

(** ** The vocabulary of the statements *)

(** The non-empty sequences, in their order, and their total length. *)
Definition seqs_ne_of (seqs : list range) : list range :=
  filter (λ r : range, r.1 ≠ r.2) seqs.

Definition total_size_of (seqs : list range) : Z :=
  sumZ (range_size <$> seqs_ne_of seqs).

(** The position of sequence [i] among the non-empty sequences. *)
Definition rank_ne (seqs : list range) (i : nat) : nat :=
  length (seqs_ne_of (take i seqs)).

(** The sums a worker computes, written over the whole row. *)
Definition row_offset (row seqs_ne : list range) : Z :=
  sumZ (zip_with (λ c q : range, c.1 - q.1) row seqs_ne).

Definition row_length (row : list range) : Z := sumZ (range_size <$> row).

(** What the cursor update leaves in the sequence set: [ends s] is the new
    start of the [s]-th non-empty sequence. *)
Fixpoint advanced (ends : nat → Z) (seqs : list range) (count_seqs : nat)
    : list range :=
  match seqs with
  | [] => []
  | r :: rest =>
      if non_empty r
      then (ends count_seqs, r.2) :: advanced ends rest (S count_seqs)
      else r :: advanced ends rest count_seqs
  end.

(** The call worker [w] makes, from the entries [fill] of the chunk table. *)
Definition expected_call (fill : nat → nat → range) (seqs_ne : list range)
    (target size : Z) (w : nat) : worker_call :=
  let row := fill w <$> seq 0 (length seqs_ne) in
  WorkerCall row (target + row_offset row seqs_ne)
    (Z.min (row_length row) (size - row_offset row seqs_ne)).

(** The effect of one worker call on the target buffer. *)
Definition run_call {A MultiwayMergeAlgorithm : Type}
    (merge : bool → bool → list range → Z → Z → (A → A → bool) →
             MultiwayMergeAlgorithm → (Z → A) → gmap Z A → gmap Z A)
    (Stable : bool) (comp : A → A → bool)
    (mwma : MultiwayMergeAlgorithm) (mem : Z → A)
    (buf : gmap Z A) (call : worker_call) : gmap Z A :=
  merge Stable false (wc_row call) (wc_target call) (wc_size call) comp mwma mem buf.

(** * The collaborators, modelled from the specification

    The sequential merge (multiway_merge.hpp) and the two planners
    (multiway_merge_splitting.hpp) are not part of the file verified here.
    The definitions below state them as the specification does. *)

(** The requirements on a comparator: a strict weak ordering. *)
Record StrictWeakOrder {A : Type} (comp : A → A → bool) : Prop := {
  swo_irrefl : ∀ a, comp a a = false;
  swo_trans : ∀ a b c, comp a b = true → comp b c = true → comp a c = true;
  swo_equiv_trans : ∀ a b c,
    comp a b = false → comp b a = false →
    comp b c = false → comp c b = false →
    comp a c = false ∧ comp c a = false
}.

(** [lex_lt comp b j a i]: the element [b] of sequence [j] goes before the
    element [a] of sequence [i]: it is smaller, or equivalent and from a
    sequence of lower index. *)
Definition lex_lt {A : Type} (comp : A → A → bool)
    (b : A) (j : nat) (a : A) (i : nat) : bool :=
  comp b a || (negb (comp a b) && bool_decide (j < i)%nat).

(** [goes_before Stable comp b j a i]: the merge has to put the element [b]
    of sequence [j] before the element [a] of sequence [i].  In the stable
    variant that is [lex_lt]; in the other variant the specification leaves
    the order of equivalent elements open, and only a smaller element has to
    come first. *)
Definition goes_before {A : Type} (Stable : bool) (comp : A → A → bool)
    (b : A) (j : nat) (a : A) (i : nat) : bool :=
  if Stable then lex_lt comp b j a i else comp b a.

(** Writing a list of elements to consecutive addresses of the target. *)
Fixpoint write_range {A : Type} (buf : gmap Z A) (pos : Z) (l : list A)
    : gmap Z A :=
  match l with
  | [] => buf
  | x :: l' => write_range (<[pos := x]> buf) (pos + 1) l'
  end.

(** The content of [n] consecutive addresses of the target. *)
Definition read_range {A : Type} (buf : gmap Z A) (pos n : Z) : list (option A) :=
  (λ k, buf !! (pos + k)) <$> seqZ 0 n.

Section sequential_merge.
Context {A : Type}.
Variable comp : A → A → bool.
Variable mem : Z → A.

(** The sequence to take the next element from, with the address of that
    element: the non-empty sequence with the least head, the one of lowest
    index among equivalent heads. *)
Fixpoint pick (l : list range) : option (nat * Z) :=
  match l with
  | [] => None
  | r :: l' =>
      match pick l' with
      | None => if non_empty r then Some (0%nat, r.1) else None
      | Some (j, p) =>
          if non_empty r && negb (comp (mem p) (mem r.1))
          then Some (0%nat, r.1)
          else Some (S j, p)
      end
  end.

(** Sequence [i] gives its head. *)
Definition advance (l : list range) (i : nat) : list range :=
  alter (λ r : range, (r.1 + 1, r.2)) i l.

(** [n] steps of the K-way merge: the elements taken, each as the index of
    its sequence and its address, and the sequences that remain.  The merge
    stops when every sequence is empty. *)
Fixpoint merge_picks (n : nat) (l : list range) : list (nat * Z) * list range :=
  match n with
  | O => ([], l)
  | S n' =>
      match pick l with
      | None => ([], l)
      | Some (i, p) =>
          let rest := merge_picks n' (advance l i) in
          ((i, p) :: rest.1, rest.2)
      end
  end.

(** The first [n] elements of the merge of [l]. *)
Definition merged (n : Z) (l : list range) : list A :=
  (λ ip : nat * Z, mem ip.2) <$> (merge_picks (Z.to_nat n) l).1.

End sequential_merge.

(** The order in which the modelled merge considers the sequences: as they
    are given in the stable variant, reversed in the other, so that there
    equivalent heads are taken from the sequence of highest index first. *)
Definition tie_order (Stable : bool) (row : list range) : list range :=
  if Stable then row else reverse row.

(** Modelled from the spec: the sequential K-way merge collaborator
    [multiway_merge_base] of multiway_merge.hpp, which is not in the file
    verified here.  Section 6 of the specification: it merges the row's
    sub-ranges into the output, writes at most [size] elements, respects the
    comparator and, if stable, breaks ties by sequence index.  For the
    variant that is not stable the specification leaves the order of
    equivalent elements open; the model takes them from the sequence of
    highest index first, one admissible choice.  The specification makes no
    difference between merge algorithms, and the model makes none. *)
Definition multiway_merge_base {A MultiwayMergeAlgorithm : Type}
    (Stable Sentinels : bool) (row : list range) (target size : Z)
    (comp : A → A → bool) (mwma : MultiwayMergeAlgorithm) (mem : Z → A)
    (buf : gmap Z A) : gmap Z A :=
  write_range buf target (merged comp mem size (tie_order Stable row)).


Section partition_table.
Context {A : Type}.
Variable Stable : bool.
Variable comp : A → A → bool.
Variable mem : Z → A.
Variable seqs_ne : list range.
Variable bound : Z.
Variable num_threads : nat.
Variable fill : nat → nat → range.

(** The start of the chunk of sequence [s] in row [w] is the start of the
    sequence for the first worker and the end of the previous worker's
    chunk for the others. *)
Definition chunk_contiguous (w s : nat) : bool :=
  match w, seqs_ne !! s with
  | O, Some q => bool_decide ((fill w s).1 = q.1)
  | S w', Some q => bool_decide ((fill w s).1 = (fill w' s).2)
  | _, None => false
  end.

(** The chunk is a sub-range of its sequence. *)
Definition chunk_within (w s : nat) : bool :=
  match seqs_ne !! s with
  | Some q => bool_decide ((fill w s).1 ≤ (fill w s).2 ≤ q.2)
  | None => false
  end.

(** The end of row [w] is a rank-based split: no element of sequence [j]
    from the split on has to go before an element of another sequence [i]
    that is before the split. *)
Definition split_ordered (w i j : nat) : bool :=
  match seqs_ne !! i, seqs_ne !! j with
  | Some qi, Some qj =>
      bool_decide (i = j) ||
      forallb (λ p,
        forallb (λ q, negb (goes_before Stable comp (mem q) j (mem p) i))
          (seqZ (fill w j).2 (qj.2 - (fill w j).2)))
        (seqZ qi.1 ((fill w i).2 - qi.1))
  | _, _ => false
  end.

(** The number of elements in the whole table. *)
Definition table_count : Z :=
  sumZ ((λ w, row_length (fill w <$> seq 0 (length seqs_ne)))
        <$> seq 0 num_threads).

(** Modelled from the spec: the contract of the partition planners
    [multiway_merge_exact_splitting] and [multiway_merge_sampling_splitting]
    of multiway_merge_splitting.hpp, which are not in the file verified
    here.  Sections 2, 3, 4.2 and 6 of the specification: the table holds
    one sub-range per worker and sequence; for a fixed sequence the
    sub-ranges of workers 0..num_threads-1 are contiguous, start at the
    start of the sequence and do not overlap; the element counts sum to
    min(total_size, size) ([bound]); the split points are rank-based, with
    ties between sequences resolved by sequence index in the stable variant
    and in any way in the other. *)
Definition partition_table_ok : bool :=
  forallb (λ w,
    forallb (λ s, chunk_contiguous w s && chunk_within w s)
      (seq 0 (length seqs_ne)))
    (seq 0 num_threads)
  && bool_decide (table_count = bound)
  && forallb (λ w,
       forallb (λ i, forallb (λ j, split_ordered w i j) (seq 0 (length seqs_ne)))
         (seq 0 (length seqs_ne)))
       (seq 0 num_threads).

End partition_table.

(** Modelled from the spec: the exact planner
    [multiway_merge_exact_splitting] of multiway_merge_splitting.hpp, which
    is not in the file verified here.  Section 4.2 of the specification: for
    the truncation bound it computes the rank-based split points in every
    sequence for every worker boundary, the output sizes of the workers
    differing by at most one element; in the stable variant ties between
    sequences go by sequence index.  The split point of rank [n] in a
    sequence is the position reached in it when the [n] first elements of
    the merge have been taken; for the variant that is not stable the model
    takes the merge that prefers the sequence of highest index, as
    [multiway_merge_base] does. *)
Definition multiway_merge_exact_splitting {A : Type}
    (Stable : bool) (seqs_ne : list range) (size total_size : Z)
    (comp : A → A → bool) (mem : Z → A) (num_threads : Z)
    (slab s : nat) : range :=
  let bound := Z.min size total_size in
  let rank (w : Z) := (bound * w) `div` num_threads in
  let s' := if Stable then s else (length seqs_ne - 1 - s)%nat in
  let split (w : Z) :=
    ((merge_picks comp mem (Z.to_nat (rank w)) (tie_order Stable seqs_ne)).2
       !!! s').1 in
  (split (Z.of_nat slab), split (Z.of_nat slab + 1)).

(** ** The call, its planner and its input *)

(** The number of workers of a call, the table the chosen planner fills for
    it, and the number of elements to merge. *)
Definition call_threads (seqs : list range) (num_threads : Z) : Z :=
  clamp_num_threads num_threads (total_size_of seqs).

Definition call_table {A : Type}
    (sampling exact : bool → list range → Z → Z → (A → A → bool) → (Z → A) →
                      Z → nat → nat → range)
    (Stable : bool) (seqs : list range) (size : Z) (comp : A → A → bool)
    (mwmsa : MultiwayMergeSplittingAlgorithm) (num_threads : Z) (mem : Z → A)
    : nat → nat → range :=
  planner sampling exact mwmsa Stable (seqs_ne_of seqs) size
    (total_size_of seqs) comp mem (call_threads seqs num_threads).

Definition call_bound (seqs : list range) (size : Z) : Z :=
  Z.min size (total_size_of seqs).

(** The table the chosen planner fills for the call meets the planner
    contract. *)
Definition planner_meets_contract {A : Type}
    (sampling exact : bool → list range → Z → Z → (A → A → bool) → (Z → A) →
                      Z → nat → nat → range)
    (Stable : bool) (seqs : list range) (size : Z) (comp : A → A → bool)
    (mwmsa : MultiwayMergeSplittingAlgorithm) (num_threads : Z) (mem : Z → A)
    : Prop :=
  partition_table_ok Stable comp mem (seqs_ne_of seqs) (call_bound seqs size)
    (Z.to_nat (call_threads seqs num_threads))
    (call_table sampling exact Stable seqs size comp mwmsa num_threads mem)
  = true.

(** The start the single-threaded merge of [bound] elements leaves in the
    [s]-th non-empty sequence. *)
Definition single_threaded_start {A : Type} (comp : A → A → bool) (mem : Z → A)
    (seqs : list range) (bound : Z) (s : nat) : Z :=
  ((merge_picks comp mem (Z.to_nat bound) (seqs_ne_of seqs)).2 !!! s).1.

(** The sequence is a valid range and no element is less than its
    predecessor. *)
Definition sorted_range {A : Type} (comp : A → A → bool) (mem : Z → A)
    (r : range) : bool :=
  bool_decide (r.1 ≤ r.2)
  && forallb (λ p, negb (comp (mem (p + 1)) (mem p))) (seqZ r.1 (r.2 - r.1 - 1)).

Definition sorted_seq {A : Type} (comp : A → A → bool) (mem : Z → A)
    (r : range) : Prop :=
  r.1 ≤ r.2 ∧ ∀ p q, r.1 ≤ p → p ≤ q → q < r.2 → comp (mem q) (mem p) = false.

(** The elements carry the index of the sequence they belong to. *)
Definition tagged_by_sequence {B : Type} (mem : Z → B * nat) (seqs : list range)
    : bool :=
  forallb (λ i,
    match seqs !! i with
    | Some r => forallb (λ p, bool_decide ((mem p).2 = i)) (seqZ r.1 (r.2 - r.1))
    | None => true
    end) (seq 0 (length seqs)).

(** The comparator that compares tagged elements by their value. *)
Definition by_value {B : Type} (compB : B → B → bool) (x y : B * nat) : bool :=
  compB x.1 y.1.

(** ** A concrete call

    The example of the specification: three sequences [1,4,7], [2,5,8] and
    [3,6,9], stored one after the other from address 0, with the ascending
    comparator on integers. *)

Definition example_mem (p : Z) : Z :=
  nth (Z.to_nat p) [1; 4; 7; 2; 5; 8; 3; 6; 9] 0.

Definition example_seqs : list range := [(0, 3); (3, 6); (6, 9)].

(** The call of the example with the collaborators as modelled. *)
Definition example_call (schedule : nat → list nat) (Stable : bool)
    (seqs : list range) (size num_threads : Z) : option (@result Z) :=
  parallel_multiway_merge_base_sched (MultiwayMergeAlgorithm := unit)
    multiway_merge_base multiway_merge_exact_splitting
    multiway_merge_exact_splitting schedule Stable seqs 100 size Z.ltb tt
    MWMSA_EXACT num_threads example_mem ∅.

(** A memory of tagged elements: sequence 0 holds the values [1, 2], sequence
    1 holds the values [2, 3]; each element carries the index of its
    sequence. *)
Definition tagged_mem (p : Z) : Z * nat :=
  nth (Z.to_nat p) [(1, 0%nat); (2, 0%nat); (2, 1%nat); (3, 1%nat)] (0, 0%nat).

Definition tagged_seqs : list range := [(0, 2); (2, 4)].

(** ** Notions used in the proofs *)

(** Sequence [i] is not empty, its head is at [p], and no head of a
    non-empty sequence goes before it. *)
Definition is_min {A : Type} (comp : A → A → bool) (mem : Z → A)
    (l : list range) (i : nat) (p : Z) : Prop :=
  ∃ r, l !! i = Some r ∧ r.1 ≠ r.2 ∧ p = r.1 ∧
    ∀ j rj, l !! j = Some rj → rj.1 ≠ rj.2 →
      lex_lt comp (mem rj.1) j (mem p) i = false.

(** The parts of the sequences [l] before the positions [c], and the parts
    from [c] on. *)
Definition split_before (l : list range) (c : list Z) : list range :=
  zip_with (λ (r : range) (e : Z), (r.1, e)) l c.

Definition split_after (l : list range) (c : list Z) : list range :=
  zip_with (λ (r : range) (b : Z), (b, r.2)) l c.

(** The number of elements before the positions [c]. *)
Definition split_rank (l : list range) (c : list Z) : Z :=
  sumZ (zip_with (λ (r : range) (e : Z), e - r.1) l c).

Definition within (l : list range) (c : list Z) : Prop :=
  Forall2 (λ (r : range) (e : Z), r.1 ≤ e ≤ r.2) l c.

(** No element of one sequence from [c] on goes before an element of
    another sequence before [c]. *)
Definition cross_ordered {A : Type} (comp : A → A → bool) (mem : Z → A)
    (l : list range) (c : list Z) : Prop :=
  ∀ i j ri rj ci cj p q,
    i ≠ j → l !! i = Some ri → l !! j = Some rj →
    c !! i = Some ci → c !! j = Some cj →
    ri.1 ≤ p < ci → cj ≤ q < rj.2 →
    lex_lt comp (mem q) j (mem p) i = false.

(** The positions at which row [w] starts: the starts of the sequences for
    the first row, the ends of the previous row for the others. *)
Definition cut (seqs_ne : list range) (fill : nat → nat → range) (w : nat)
    : list Z :=
  match w with
  | O => fst <$> seqs_ne
  | S w' => (λ s, (fill w' s).2) <$> seq 0 (length seqs_ne)
  end.

Definition table_row (seqs_ne : list range) (fill : nat → nat → range)
    (w : nat) : list range :=
  fill w <$> seq 0 (length seqs_ne).

(** The number of elements assigned to the workers before [w]. *)
Definition rank_of (seqs_ne : list range) (fill : nat → nat → range)
    (w : nat) : Z :=
  split_rank seqs_ne (cut seqs_ne fill w).

(** A list of writes, each an address and the elements written from it on;
    the writes are disjoint when no two of them touch a common address. *)
Definition apply_writes {A : Type} (buf : gmap Z A) (ws : list (Z * list A))
    : gmap Z A :=
  foldl (λ b w, write_range b w.1 w.2) buf ws.

Definition writes_disjoint {A : Type} (ws : list (Z * list A)) : Prop :=
  ∀ i j wi wj, i ≠ j → ws !! i = Some wi → ws !! j = Some wj →
    wi.1 + Z.of_nat (length wi.2) ≤ wj.1 ∨ wj.1 + Z.of_nat (length wj.2) ≤ wi.1.

(** The write a worker call makes, with the sequential merge as modelled. *)
Definition call_write {A : Type} (comp : A → A → bool) (mem : Z → A)
    (call : worker_call) : Z * list A :=
  (wc_target call, merged comp mem (wc_size call) (wc_row call)).

(** [thinned l l']: [l'] is [l] without some of its empty sequences. *)
Inductive thinned : list range → list range → Prop :=
  | thinned_nil : thinned [] []
  | thinned_keep r l l' : thinned l l' → thinned (r :: l) (r :: l')
  | thinned_skip r l l' : r.1 = r.2 → thinned l l' → thinned (r :: l) l'.

(** For the exact planner as modelled: the rank at which row [w] starts and
    the sequences that remain there. *)
Definition exact_rank (seqs_ne : list range) (size : Z) (num_threads : nat)
    (w : Z) : Z :=
  (Z.min size (row_length seqs_ne) * w) `div` Z.of_nat num_threads.

Definition exact_state {A : Type} (comp : A → A → bool) (mem : Z → A)
    (seqs_ne : list range) (size : Z) (num_threads : nat) (w : Z)
    : list range :=
  (merge_picks comp mem (Z.to_nat (exact_rank seqs_ne size num_threads w))
     seqs_ne).2.

(** ** Conditions on a chunk table

    What a planner may leave in the table, for the statements that relate
    the workers' calls and the cursor update to it. *)

(** Every chunk of the first [num_threads] rows is a valid range; a chunk of
    the first row starts where its sequence starts, a chunk of a later row
    where the chunk of the row before it ends. *)
Definition table_consecutive (seqs_ne : list range) (fill : nat → nat → range)
    (num_threads : nat) : bool :=
  forallb (λ w,
    forallb (λ s,
      chunk_contiguous seqs_ne fill w s
      && bool_decide ((fill w s).1 ≤ (fill w s).2))
      (seq 0 (length seqs_ne)))
    (seq 0 num_threads).

(** The chunks of row [w] end where their sequences end. *)
Definition row_exhausts (seqs_ne : list range) (fill : nat → nat → range)
    (w : nat) : bool :=
  forallb (λ s,
    match seqs_ne !! s with
    | Some q => bool_decide ((fill w s).2 = q.2)
    | None => false
    end) (seq 0 (length seqs_ne)).

(** What a caller sees of a call apart from the sequence set. *)
Definition observable {A : Type} (r : @result A)
    : gmap Z A * Z * list worker_call :=
  (res_target r, res_return r, res_calls r).

(** ** Sequential merges in general

    What the specification asks of every sequential merge, stable or not,
    and the merges given by the order in which they take the elements. *)

(** The addresses of the elements of a row, sequence after sequence. *)
Definition row_addrs (row : list range) : list Z :=
  row ≫= λ r : range, seqZ r.1 (r.2 - r.1).

(** Two elements are equivalent under the comparator: neither is smaller. *)
Definition equivalent {A : Type} (comp : A → A → bool) (x y : A) : Prop :=
  comp x y = false ∧ comp y x = false.

(** In the list of addresses [l] no element is smaller than one before
    it. *)
Definition weakly_sorted {A : Type} (comp : A → A → bool) (mem : Z → A)
    (l : list Z) : Prop :=
  ∀ (i j : nat) (p q : Z),
    (i < j)%nat → l !! i = Some p → l !! j = Some q →
    comp (mem q) (mem p) = false.

(** Modelled from the spec: the output of the sequential K-way merge
    collaborator of multiway_merge.hpp, which is not in the file verified
    here, in either variant.  Section 6 of the specification: it merges the
    sub-ranges of the row, writes at most [limit] elements and respects the
    comparator.  [l] lists the addresses of the elements written, in output
    order: the first [limit] elements of an ascending arrangement of all
    the elements of the row. *)
Definition merge_output {A : Type} (comp : A → A → bool) (mem : Z → A)
    (row : list range) (limit : Z) (l : list Z) : Prop :=
  ∃ full : list Z,
    full ≡ₚ row_addrs row
    ∧ weakly_sorted comp mem full
    ∧ l = take (Z.to_nat limit) full.

(** The addresses the stable merge takes, ties by sequence index. *)
Definition stable_order {A : Type} (comp : A → A → bool) (mem : Z → A)
    (row : list range) (limit : Z) : list Z :=
  snd <$> (merge_picks comp mem (Z.to_nat limit) row).1.


Section merge_orders.
Context {A MultiwayMergeAlgorithm : Type}.

(** A sequential merge given by the order in which it takes the elements:
    [order Stable row size comp mwma mem] lists their addresses, and the
    merge writes the elements from [target] on. *)
Definition merge_with
    (order : bool → list range → Z → (A → A → bool) →
             MultiwayMergeAlgorithm → (Z → A) → list Z)
    (Stable Sentinels : bool) (row : list range) (target size : Z)
    (comp : A → A → bool) (mwma : MultiwayMergeAlgorithm) (mem : Z → A)
    (buf : gmap Z A) : gmap Z A :=
  write_range buf target (mem <$> order Stable row size comp mwma mem).

(** Modelled from the spec: the contract of the sequential K-way merge
    collaborator (section 6), for sorted sub-ranges and a comparator that is
    a strict weak ordering: the output is a merge of the row limited to
    [size] elements and, if stable, ties go by sequence index. *)
Definition order_conforms
    (order : bool → list range → Z → (A → A → bool) →
             MultiwayMergeAlgorithm → (Z → A) → list Z) : Prop :=
  ∀ Stable row size comp mwma mem,
    StrictWeakOrder comp → Forall (sorted_seq comp mem) row →
    merge_output comp mem row size (order Stable row size comp mwma mem)
    ∧ (Stable = true →
       order Stable row size comp mwma mem = stable_order comp mem row size).

(** Modelled from the spec: the order in which the modelled merge
    [multiway_merge_base] takes the elements. *)
Definition multiway_merge_order (Stable : bool) (row : list range) (size : Z)
    (comp : A → A → bool) (mwma : MultiwayMergeAlgorithm) (mem : Z → A)
    : list Z :=
  stable_order comp mem (tie_order Stable row) size.

(** Modelled from the spec: section 6, "writing at most [limit] elements"
    into the output: the sequential merge leaves every address outside
    [target, target + size) as it was. *)
Definition writes_within_limit
    (merge : bool → bool → list range → Z → Z → (A → A → bool) →
             MultiwayMergeAlgorithm → (Z → A) → gmap Z A → gmap Z A) : Prop :=
  ∀ Stable Sentinels row target size comp mwma mem buf (a : Z),
    ¬ (target ≤ a < target + size) →
    merge Stable Sentinels row target size comp mwma mem buf !! a = buf !! a.

End merge_orders.

(** The number of elements of [l] that carry the index [i]. *)
Definition elements_from {B : Type} (i : nat) (l : list (option (B * nat))) : Z :=
  Z.of_nat (length (filter (λ o : option (B * nat), snd <$> o = Some i) l)).

(** An array object has at most [PTRDIFF_MAX] = 2^63 - 1 bytes, so the
    table of line 118 cannot have more rows than that: for such a count
    the constructor of [simple_vector] throws, before any planner or worker
    runs.  The embedding of the call takes the allocation to succeed;
    [chunks_too_large] tells the counts for which it cannot. *)
Definition chunks_too_large (num_threads : Z) : bool :=
  bool_decide (DiffType_max < num_threads).

(** The addresses of the elements the workers write, worker after worker,
    when each merges the whole of its row with the merge that takes the
    elements in the order [order]. *)
Definition workers_order {A MultiwayMergeAlgorithm : Type}
    (order : bool → list range → Z → (A → A → bool) →
             MultiwayMergeAlgorithm → (Z → A) → list Z)
    (Stable : bool) (seqs_ne : list range) (fill : nat → nat → range)
    (comp : A → A → bool) (mwma : MultiwayMergeAlgorithm) (mem : Z → A)
    (num_threads : nat) : list Z :=
  seq 0 num_threads ≫= λ w,
    order Stable (table_row seqs_ne fill w)
      (row_length (table_row seqs_ne fill w)) comp mwma mem.

(** The elements selected as [L], with [R] left over, from the elements
    [N]: [L] is ascending and nothing left over is smaller than something
    selected. *)
Definition selects {A : Type} (comp : A → A → bool) (mem : Z → A)
    (L R N : list Z) : Prop :=
  L ++ R ≡ₚ N
  ∧ weakly_sorted comp mem L
  ∧ ∀ y z, y ∈ L → z ∈ R → comp (mem z) (mem y) = false.

(** The write a worker call makes with the merge that takes the elements
    in the order [order]. *)
Definition order_write {A MultiwayMergeAlgorithm : Type}
    (order : bool → list range → Z → (A → A → bool) →
             MultiwayMergeAlgorithm → (Z → A) → list Z)
    (Stable : bool) (comp : A → A → bool) (mwma : MultiwayMergeAlgorithm)
    (mem : Z → A) (call : worker_call) : Z * list A :=
  (wc_target call,
   mem <$> order Stable (wc_row call) (wc_size call) comp mwma mem).

(** Modelled from the spec: a planner that leaves ties between sequences
    to the sequence index in both variants, which section 4.2 of the
    specification requires of the stable variant and admits for the other:
    the exact planner of the stable variant, whatever the flag. *)
Definition multiway_merge_index_splitting {A : Type} (Stable : bool)
    : list range → Z → Z → (A → A → bool) → (Z → A) → Z → nat → nat → range :=
  multiway_merge_exact_splitting true.

(** * Proofs *)

(** ** Facts about the orchestration, for arbitrary collaborators *)

Lemma sumZ_app (l1 l2 : list Z) : sumZ (l1 ++ l2) = sumZ l1 + sumZ l2.
Proof. induction l1 as [|x l1 IH]; simpl; lia. Qed.

Lemma non_empty_sequences_fold (seqs : list range) (acc : Z * list range) :
  foldl keep_non_empty acc seqs =
  (acc.1 + total_size_of seqs, acc.2 ++ seqs_ne_of seqs).
Proof.
  revert acc. induction seqs as [|r seqs IH]; intros [t ne]; simpl.
  - unfold total_size_of, seqs_ne_of. simpl. f_equal; [lia | by rewrite app_nil_r].
  - rewrite IH. unfold keep_non_empty, non_empty, total_size_of, seqs_ne_of.
    rewrite filter_cons. case_bool_decide; case_decide; try done.
    rewrite fmap_cons. cbn [sumZ fst snd].
    f_equal; [unfold range_size; lia | by rewrite <- app_assoc].
Qed.

Lemma non_empty_sequences_eq (seqs : list range) :
  non_empty_sequences seqs = (total_size_of seqs, seqs_ne_of seqs).
Proof. unfold non_empty_sequences. by rewrite non_empty_sequences_fold. Qed.

Lemma total_size_pos_num_seqs (seqs : list range) :
  0 < total_size_of seqs → (0 < length (seqs_ne_of seqs))%nat.
Proof.
  unfold total_size_of. destruct (seqs_ne_of seqs); simpl; lia.
Qed.

Lemma all_empty_seqs_ne (seqs : list range) :
  Forall (λ r : range, r.1 = r.2) seqs → seqs_ne_of seqs = [].
Proof.
  unfold seqs_ne_of. induction 1 as [|r l Hr _ IH]; [done|].
  rewrite filter_cons. by case_decide.
Qed.

Lemma clamp_num_threads_range (num_threads total_size : Z) :
  is_size_t num_threads → 1 ≤ num_threads → 0 < total_size →
  1 ≤ clamp_num_threads num_threads total_size < size_t_modulus.
Proof.
  unfold is_size_t, clamp_num_threads, to_DiffType, to_size_t, size_t_modulus, DiffType_max.
  intros Hn H1 Ht. rewrite (Z.mod_small num_threads) by lia.
  repeat case_bool_decide; try lia.
  rewrite Z.mod_small; lia.
Qed.

Lemma clamp_num_threads_min (num_threads total_size : Z) :
  0 ≤ num_threads ≤ DiffType_max → 0 < total_size →
  clamp_num_threads num_threads total_size = Z.min num_threads total_size.
Proof.
  unfold clamp_num_threads, to_DiffType, to_size_t, size_t_modulus, DiffType_max.
  intros Hn Ht. rewrite (Z.mod_small num_threads) by lia.
  repeat case_bool_decide; try lia.
  rewrite Z.mod_small; lia.
Qed.

Lemma allocate_chunks_length fill num_threads num_seqs :
  length (allocate_chunks fill num_threads num_seqs) = Z.to_nat num_threads.
Proof. unfold allocate_chunks. by rewrite length_fmap, length_seq. Qed.

Lemma allocate_chunks_lookup fill num_threads num_seqs (w : nat) :
  (w < Z.to_nat num_threads)%nat →
  allocate_chunks fill num_threads num_seqs !! w = Some (fill w <$> seq 0 num_seqs).
Proof.
  intros Hw. unfold allocate_chunks. rewrite list_lookup_fmap.
  by rewrite lookup_seq_lt.
Qed.

Lemma row_offset_cons (c q : range) (row seqs_ne : list range) :
  row_offset (c :: row) (q :: seqs_ne) = (c.1 - q.1) + row_offset row seqs_ne.
Proof. reflexivity. Qed.

Lemma row_length_cons (c : range) (row : list range) :
  row_length (c :: row) = (c.2 - c.1) + row_length row.
Proof. reflexivity. Qed.

Lemma worker_sums_fold chunks iam (row2 q2 row1 q1 : list range) (tp ls : Z) :
  chunks !! iam = Some (row1 ++ row2) →
  length row1 = length q1 → length row2 = length q2 →
  foldl (worker_step chunks (q1 ++ q2) iam) (Some (tp, ls))
        (seq (length row1) (length row2)) =
  Some (tp + row_offset row2 q2, ls + row_length row2).
Proof.
  intros Hrow. revert q2 row1 q1 tp ls Hrow.
  induction row2 as [|c row2 IH]; intros q2 row1 q1 tp ls Hrow Hl1 Hl2.
  - simpl. unfold row_offset, row_length. simpl. do 2 f_equal; lia.
  - destruct q2 as [|q q2]; [done|]. simpl in Hl2.
    cbn [length seq foldl]. unfold worker_step at 2. simpl.
    rewrite Hrow. simpl. rewrite list_lookup_middle by done. simpl.
    rewrite list_lookup_middle by done. simpl.
    specialize (IH q2 (row1 ++ [c]) (q1 ++ [q])).
    rewrite length_app in IH. simpl in IH.
    replace (length row1 + 1)%nat with (S (length row1)) in IH by lia.
    rewrite <- !app_assoc in IH. simpl in IH.
    rewrite IH; [| done | rewrite !length_app; simpl; lia | lia].
    rewrite row_offset_cons, row_length_cons. do 2 f_equal; lia.
Qed.

Lemma worker_sums_row chunks seqs_ne iam row :
  chunks !! iam = Some row → length row = length seqs_ne →
  worker_sums chunks seqs_ne (length seqs_ne) iam =
  Some (row_offset row seqs_ne, row_length row).
Proof.
  intros Hrow Hlen. unfold worker_sums.
  pose proof (worker_sums_fold chunks iam row seqs_ne [] [] 0 0) as H.
  simpl in H. rewrite <- Hlen. rewrite H by done. do 2 f_equal; lia.
Qed.

Lemma non_empty_true (r : range) : non_empty r = true ↔ r.1 ≠ r.2.
Proof. unfold non_empty. by rewrite bool_decide_eq_true. Qed.

Lemma non_empty_false (r : range) : non_empty r = false ↔ r.1 = r.2.
Proof.
  unfold non_empty. rewrite bool_decide_eq_false.
  split; [intros H; by destruct (decide (r.1 = r.2)) | intros -> ?; done].
Qed.

Lemma seqs_ne_of_cons (r : range) (seqs : list range) :
  seqs_ne_of (r :: seqs) =
  if non_empty r then r :: seqs_ne_of seqs else seqs_ne_of seqs.
Proof.
  unfold seqs_ne_of, non_empty. rewrite filter_cons.
  by case_decide; case_bool_decide.
Qed.

Lemma rank_ne_0 (seqs : list range) : rank_ne seqs 0 = 0%nat.
Proof. reflexivity. Qed.

Lemma rank_ne_S (r : range) (seqs : list range) (i : nat) :
  rank_ne (r :: seqs) (S i) =
  if non_empty r then S (rank_ne seqs i) else rank_ne seqs i.
Proof.
  unfold rank_ne. cbn [take]. rewrite seqs_ne_of_cons. by destruct (non_empty r).
Qed.

(** The [s]-th non-empty sequence is the sequence whose rank is [s]. *)
Lemma seqs_ne_of_rank (seqs : list range) (i : nat) (r : range) :
  seqs !! i = Some r → non_empty r = true →
  seqs_ne_of seqs !! rank_ne seqs i = Some r.
Proof.
  revert i. induction seqs as [|r0 seqs IH]; intros [|i] Hi Hne; try done.
  - injection Hi as ->. by rewrite seqs_ne_of_cons, Hne.
  - change (seqs !! i = Some r) in Hi. rewrite rank_ne_S, seqs_ne_of_cons.
    specialize (IH i Hi Hne). by destruct (non_empty r0).
Qed.

Lemma advanced_length ends seqs count : length (advanced ends seqs count) = length seqs.
Proof.
  revert count. induction seqs as [|r seqs IH]; intros count; [done|].
  simpl. destruct (non_empty r); simpl; by rewrite IH.
Qed.

Lemma advanced_lookup ends seqs count (i : nat) :
  advanced ends seqs count !! i =
  (λ r : range, if non_empty r then (ends (count + rank_ne seqs i)%nat, r.2) else r)
    <$> seqs !! i.
Proof.
  revert count i. induction seqs as [|r seqs IH]; intros count [|i]; try done.
  - simpl. rewrite rank_ne_0, Nat.add_0_r. by destruct (non_empty r).
  - cbn [advanced]. rewrite rank_ne_S.
    destruct (non_empty r); simpl; rewrite IH; [|done].
    by replace (S count + rank_ne seqs i)%nat with (count + S (rank_ne seqs i))%nat by lia.
Qed.

Lemma vec_at_allocate_chunks_last fill num_threads num_seqs :
  1 ≤ num_threads < size_t_modulus →
  vec_at (allocate_chunks fill num_threads num_seqs) (to_size_t (num_threads - 1)) =
  Some (fill (Z.to_nat (num_threads - 1)) <$> seq 0 num_seqs).
Proof.
  intros Hn. unfold vec_at, to_size_t. rewrite Z.mod_small by lia.
  rewrite allocate_chunks_length. rewrite bool_decide_eq_true_2 by lia.
  apply allocate_chunks_lookup. lia.
Qed.

Lemma update_ends_allocate_chunks fill num_threads num_seqs seqs count :
  1 ≤ num_threads < size_t_modulus →
  (count + length (seqs_ne_of seqs) ≤ num_seqs)%nat →
  update_ends (allocate_chunks fill num_threads num_seqs) num_threads seqs count =
  Some (advanced (λ s, (fill (Z.to_nat (num_threads - 1)) s).2) seqs count).
Proof.
  intros Hn. revert count. induction seqs as [|r seqs IH]; intros count Hc; [done|].
  rewrite seqs_ne_of_cons in Hc. cbn [update_ends advanced].
  destruct (non_empty r); simpl in Hc.
  - rewrite vec_at_allocate_chunks_last by done. simpl.
    rewrite list_lookup_fmap, lookup_seq_lt by lia. simpl.
    rewrite IH by lia. done.
  - rewrite IH by lia. done.
Qed.

Section orchestration_facts.
Context {A MultiwayMergeAlgorithm : Type}.
Variable merge :
  bool → bool → list range → Z → Z → (A → A → bool) →
  MultiwayMergeAlgorithm → (Z → A) → gmap Z A → gmap Z A.
Variables sampling exact :
  bool → list range → Z → Z → (A → A → bool) → (Z → A) → Z → nat → nat → range.

Local Abbreviation run_call := (run_call merge).

Lemma dispatch_fold Stable fill num_threads seqs_ne target size comp mwma mem
    (sched : list nat) (buf : gmap Z A) (calls : list worker_call) :
  Forall (λ w, (w < Z.to_nat num_threads)%nat) sched →
  foldl (worker merge Stable (allocate_chunks fill num_threads (length seqs_ne))
           seqs_ne (length seqs_ne) target size comp mwma mem)
        (Some (buf, calls)) sched =
  Some (foldl (run_call Stable comp mwma mem) buf
          (expected_call fill seqs_ne target size <$> sched),
        calls ++ (expected_call fill seqs_ne target size <$> sched)).
Proof.
  intros Hs. revert buf calls.
  induction Hs as [|w sched Hw _ IH]; intros buf calls.
  - simpl. by rewrite app_nil_r.
  - cbn [foldl fmap list_fmap]. unfold worker at 2. cbn [mbind option_bind].
    rewrite (worker_sums_row _ _ _ (fill w <$> seq 0 (length seqs_ne)));
      [| by apply allocate_chunks_lookup | by rewrite length_fmap, length_seq].
    cbn [mbind option_bind]. rewrite allocate_chunks_lookup by done.
    cbn [mbind option_bind]. rewrite IH. rewrite <- app_assoc. done.
Qed.

(** A call with a non-empty input and at least one thread requested runs
    to completion, and this is its result. *)
Lemma parallel_multiway_merge_base_sched_eq schedule Stable seqs target size
    comp mwma mwmsa num_threads mem buf :
  0 < total_size_of seqs →
  is_size_t num_threads → 1 ≤ num_threads →
  let nt := clamp_num_threads num_threads (total_size_of seqs) in
  let fill := planner sampling exact mwmsa Stable (seqs_ne_of seqs) size
                (total_size_of seqs) comp mem nt in
  let calls := expected_call fill (seqs_ne_of seqs) target size
                 <$> schedule (Z.to_nat nt) in
  Forall (λ w, (w < Z.to_nat nt)%nat) (schedule (Z.to_nat nt)) →
  parallel_multiway_merge_base_sched merge sampling exact schedule Stable
    seqs target size comp mwma mwmsa num_threads mem buf =
  Some (Result (advanced (λ s, (fill (Z.to_nat (nt - 1)) s).2) seqs 0)
          (foldl (run_call Stable comp mwma mem) buf calls)
          (target + size) calls).
Proof.
  intros Ht Hn H1 nt fill calls Hs.
  unfold parallel_multiway_merge_base_sched.
  rewrite non_empty_sequences_eq. cbn [fst snd].
  pose proof (total_size_pos_num_seqs seqs Ht) as Hk.
  rewrite bool_decide_eq_false_2 by lia.
  rewrite bool_decide_eq_false_2 by lia. cbn [orb].
  fold nt. fold fill.
  rewrite dispatch_fold by done. cbn [mbind option_bind].
  rewrite update_ends_allocate_chunks;
    [| by apply clamp_num_threads_range | simpl; lia].
  done.
Qed.

Lemma seq_schedule_ok (n : nat) : Forall (λ w, (w < n)%nat) (seq 0 n).
Proof. apply Forall_forall. intros w Hw. apply elem_of_seq in Hw. lia. Qed.

End orchestration_facts.

(** ** The sequential merge takes the least head *)

Section order_facts.
Context {A : Type}.
Variable comp : A → A → bool.
Hypothesis Hswo : StrictWeakOrder comp.

Lemma swo_asym a b : comp a b = true → comp b a = false.
Proof.
  intros Hab. destruct (comp b a) eqn:Hba; [|done].
  pose proof (swo_trans comp Hswo a b a Hab Hba) as Haa.
  by rewrite (swo_irrefl comp Hswo) in Haa.
Qed.

(** "Not less" is transitive. *)
Lemma swo_negtrans a b c : comp a b = false → comp b c = false → comp a c = false.
Proof.
  intros Hab Hbc. destruct (comp a c) eqn:Hac; [|done].
  destruct (comp b a) eqn:Hba.
  { by rewrite (swo_trans comp Hswo b a c Hba Hac) in Hbc. }
  destruct (comp c b) eqn:Hcb.
  { by rewrite (swo_trans comp Hswo a c b Hac Hcb) in Hab. }
  destruct (swo_equiv_trans comp Hswo a b c Hab Hba Hbc Hcb) as [H _].
  congruence.
Qed.

Lemma lex_lt_irrefl a i : lex_lt comp a i a i = false.
Proof.
  unfold lex_lt. rewrite (swo_irrefl comp Hswo). simpl.
  apply bool_decide_eq_false. lia.
Qed.

Lemma lex_lt_total a i b j :
  i ≠ j → lex_lt comp b j a i = false → lex_lt comp a i b j = true.
Proof.
  unfold lex_lt. intros Hij H.
  apply orb_false_iff in H as [Hba H]. rewrite Hba. simpl.
  destruct (comp a b); [done|]. simpl in *.
  apply bool_decide_eq_false in H. apply bool_decide_eq_true. lia.
Qed.

(** An element not before [b] in its own sequence keeps [b]'s position
    relative to the elements of other sequences. *)
Lemma lex_lt_later a i b c j :
  lex_lt comp b j a i = false → comp c b = false → lex_lt comp c j a i = false.
Proof.
  unfold lex_lt. intros H Hcb.
  apply orb_false_iff in H as [Hba H].
  rewrite (swo_negtrans c b a Hcb Hba). simpl.
  apply andb_false_iff in H as [Hab|Hji].
  - apply negb_false_iff in Hab.
    destruct (comp a c) eqn:Hac; [done|].
    by rewrite (swo_negtrans a c b Hac Hcb) in Hab.
  - rewrite Hji. by rewrite andb_false_r.
Qed.

End order_facts.

Section pick_facts.
Context {A : Type}.
Variable comp : A → A → bool.
Variable mem : Z → A.
Hypothesis Hswo : StrictWeakOrder comp.

Local Abbreviation is_min := (is_min comp mem).

Lemma pick_None (l : list range) :
  pick comp mem l = None ↔ Forall (λ r : range, r.1 = r.2) l.
Proof.
  induction l as [|r l IH]; simpl; [done|].
  destruct (pick comp mem l) as [[j q]|] eqn:E.
  - split.
    + by destruct (non_empty r && negb (comp (mem q) (mem r.1))).
    + intros H. apply Forall_cons in H as [_ H]. apply IH in H. done.
  - destruct (non_empty r) eqn:Hr.
    + split; [done|]. intros H. apply Forall_cons in H as [H _].
      apply non_empty_true in Hr. done.
    + split; [|done]. intros _. apply Forall_cons. split.
      * by apply non_empty_false.
      * by apply IH.
Qed.

Lemma pick_is_min (l : list range) (i : nat) (p : Z) :
  pick comp mem l = Some (i, p) → is_min l i p.
Proof.
  revert i p. induction l as [|r l IH]; intros i p; simpl; [done|].
  destruct (pick comp mem l) as [[j q]|] eqn:E.
  - destruct (IH j q eq_refl) as (rq & Hrq & Hne & -> & Hmin).
    destruct (non_empty r && negb (comp (mem rq.1) (mem r.1))) eqn:Hc;
      intros [= <- <-].
    + apply andb_true_iff in Hc as [Hr Hc].
      apply non_empty_true in Hr. apply negb_true_iff in Hc.
      exists r. split_and!; try done.
      intros [|j'] rj Hj Hjne.
      * injection Hj as <-. by apply lex_lt_irrefl.
      * change (l !! j' = Some rj) in Hj.
        specialize (Hmin j' rj Hj Hjne). unfold lex_lt in *.
        apply orb_false_iff in Hmin as [Hmin _].
        rewrite (swo_negtrans comp Hswo _ _ _ Hmin Hc). simpl.
        rewrite andb_false_iff. right.
        first [done | apply bool_decide_eq_false; lia].
    + exists rq. split_and!; try done.
      intros [|j'] rj Hj Hjne.
      * injection Hj as <-. apply non_empty_true in Hjne.
        rewrite Hjne in Hc. simpl in Hc. apply negb_false_iff in Hc.
        unfold lex_lt. rewrite (swo_asym comp Hswo _ _ Hc), Hc. done.
      * change (l !! j' = Some rj) in Hj.
        specialize (Hmin j' rj Hj Hjne). unfold lex_lt in *.
        apply orb_false_iff in Hmin as [Hmin1 Hmin2]. rewrite Hmin1. simpl.
        apply andb_false_iff in Hmin2 as [->|Hlt]; [done|].
        apply andb_false_iff. right.
        apply bool_decide_eq_false in Hlt. apply bool_decide_eq_false. lia.
  - destruct (non_empty r) eqn:Hr; [|done]. intros [= <- <-].
    apply non_empty_true in Hr. exists r. split_and!; try done.
    intros [|j'] rj Hj Hjne.
    + injection Hj as <-. by apply lex_lt_irrefl.
    + change (l !! j' = Some rj) in Hj.
      apply pick_None in E. rewrite Forall_lookup in E.
      by specialize (E j' rj Hj).
Qed.

Lemma is_min_unique (l : list range) i p i' p' :
  is_min l i p → is_min l i' p' → i = i' ∧ p = p'.
Proof.
  intros (r & Hr & Hne & -> & Hmin) (r' & Hr' & Hne' & -> & Hmin').
  destruct (decide (i = i')) as [->|Hii].
  - split; [done|]. congruence.
  - specialize (Hmin i' r' Hr' Hne'). specialize (Hmin' i r Hr Hne).
    apply (lex_lt_total comp) in Hmin; [|done]. congruence.
Qed.

Lemma is_min_pick (l : list range) i p :
  is_min l i p → pick comp mem l = Some (i, p).
Proof.
  intros Hmin. destruct (pick comp mem l) as [[i' p']|] eqn:E.
  - apply pick_is_min in E. destruct (is_min_unique l i p i' p' Hmin E) as [-> ->].
    done.
  - apply pick_None in E. destruct Hmin as (r & Hr & Hne & _).
    rewrite Forall_lookup in E. by specialize (E i r Hr).
Qed.

End pick_facts.

(** ** Merging up to a rank-based split *)

Lemma within_lookup l c i r :
  within l c → l !! i = Some r → ∃ e, c !! i = Some e ∧ r.1 ≤ e ≤ r.2.
Proof. intros H Hi. by eapply Forall2_lookup_l in H as (e & ? & ?); eauto. Qed.

Lemma split_rank_nonneg l c : within l c → 0 ≤ split_rank l c.
Proof.
  unfold split_rank. induction 1 as [|r e l c Hre _ IH]; simpl; lia.
Qed.

Lemma split_rank_0 l c :
  within l c → split_rank l c = 0 → c = fst <$> l.
Proof.
  unfold split_rank. induction 1 as [|r e l c Hre Hw IH]; [done|].
  cbn [zip_with sumZ]. intros Hs.
  pose proof (split_rank_nonneg l c Hw) as H0. unfold split_rank in H0.
  rewrite fmap_cons. f_equal; [lia | apply IH; lia].
Qed.

Lemma split_rank_pos l c :
  within l c → 0 < split_rank l c →
  ∃ j rj cj, l !! j = Some rj ∧ c !! j = Some cj ∧ rj.1 < cj.
Proof.
  unfold split_rank. induction 1 as [|r e l c Hre Hw IH]; cbn [zip_with sumZ]; [lia|].
  intros Hs. destruct (decide (r.1 < e)) as [Hlt|Hge].
  - by exists 0%nat, r, e.
  - destruct IH as (j & rj & cj & ? & ? & ?); [lia|]. by exists (S j), rj, cj.
Qed.

Lemma split_after_fst (l : list range) : split_after l (fst <$> l) = l.
Proof.
  unfold split_after. induction l as [|[a b] l IH]; [done|].
  rewrite fmap_cons. cbn [zip_with]. by rewrite IH.
Qed.

Lemma split_before_fst (l : list range) :
  split_before l (fst <$> l) = (λ e, (e, e)) <$> (fst <$> l).
Proof.
  unfold split_before. induction l as [|[a b] l IH]; [done|].
  rewrite !fmap_cons. cbn [zip_with]. by rewrite IH.
Qed.

Section advance_facts.
Context {A : Type}.
Variable comp : A → A → bool.
Variable mem : Z → A.

Local Abbreviation cross_ordered := (cross_ordered comp mem).

Lemma advance_length (l : list range) i : length (advance l i) = length l.
Proof. apply length_alter. Qed.

Lemma advance_lookup (l : list range) i (r : range) :
  l !! i = Some r → advance l i !! i = Some (r.1 + 1, r.2).
Proof. intros H. unfold advance. by rewrite list_lookup_alter_eq, H. Qed.

Lemma advance_lookup_ne (l : list range) i j : i ≠ j → advance l i !! j = l !! j.
Proof. intros H. unfold advance. by rewrite list_lookup_alter_ne. Qed.

Lemma within_advance (l : list range) (c : list Z) i (r : range) e :
  within l c → l !! i = Some r → c !! i = Some e → r.1 < e →
  within (advance l i) c.
Proof.
  intros Hw. revert i. induction Hw as [|r0 e0 l c Hre Hw IH]; intros [|i] Hr He Hlt;
    try done.
  - injection Hr as ->. injection He as ->. apply Forall2_cons. split; [simpl; lia | done].
  - apply Forall2_cons. split; [done|]. by apply IH.
Qed.

Lemma split_rank_advance (l : list range) (c : list Z) i (r : range) e :
  within l c → l !! i = Some r → c !! i = Some e →
  split_rank (advance l i) c = split_rank l c - 1.
Proof.
  unfold split_rank.
  intros Hw. revert i. induction Hw as [|r0 e0 l c Hre Hw IH]; intros [|i] Hr He;
    try done.
  - injection Hr as ->. injection He as ->. cbn [advance alter list_alter zip_with sumZ].
    simpl. lia.
  - change (l !! i = Some r) in Hr. change (c !! i = Some e) in He.
    change (advance (r0 :: l) (S i)) with (r0 :: advance l i).
    cbn [zip_with sumZ]. rewrite (IH i Hr He). lia.
Qed.

Lemma split_after_advance (l : list range) (c : list Z) i (r : range) e :
  l !! i = Some r → c !! i = Some e →
  split_after (advance l i) c = split_after l c.
Proof.
  unfold split_after. revert c i. induction l as [|r0 l IH]; intros [|e0 c] [|i] Hr He;
    try done.
  change (advance (r0 :: l) (S i)) with (r0 :: advance l i).
  cbn [zip_with]. f_equal. by apply IH.
Qed.

Lemma split_before_advance (l : list range) (c : list Z) i :
  split_before (advance l i) c = advance (split_before l c) i.
Proof.
  unfold split_before. revert c i. induction l as [|r0 l IH]; intros [|e0 c] [|i];
    try done.
  change (advance (r0 :: l) (S i)) with (r0 :: advance l i).
  cbn [zip_with].
  change (advance (?x :: ?t) (S i)) with (x :: advance t i).
  f_equal. by apply IH.
Qed.

Lemma split_before_lookup (l : list range) (c : list Z) i (r : range) e :
  l !! i = Some r → c !! i = Some e → split_before l c !! i = Some (r.1, e).
Proof.
  intros Hr He. unfold split_before. rewrite lookup_zip_with, Hr. simpl.
  by rewrite He.
Qed.

Lemma split_before_lookup_inv (l : list range) (c : list Z) i (x : range) :
  split_before l c !! i = Some x →
  ∃ r e, l !! i = Some r ∧ c !! i = Some e ∧ x = (r.1, e).
Proof.
  unfold split_before. rewrite lookup_zip_with.
  destruct (l !! i) as [r|]; [|done]. simpl.
  destruct (c !! i) as [e|]; [|done]. simpl. intros [= <-]. by exists r, e.
Qed.

Lemma cross_ordered_advance (l : list range) (c : list Z) i :
  cross_ordered l c → cross_ordered (advance l i) c.
Proof.
  intros Hc i1 i2 r1 r2 c1 c2 p q Hne H1 H2 Hc1 Hc2 Hp Hq.
  assert (∃ r1', l !! i1 = Some r1' ∧ r1'.1 ≤ r1.1 ∧ r1'.2 = r1.2) as (r1' & ? & ? & ?).
  { destruct (decide (i = i1)) as [<-|].
    - unfold advance in H1. rewrite list_lookup_alter_eq in H1.
      destruct (l !! i) as [r|]; [|done]. injection H1 as <-.
      exists r. simpl. split_and!; [done | lia | done].
    - rewrite advance_lookup_ne in H1 by done. by exists r1. }
  assert (∃ r2', l !! i2 = Some r2' ∧ r2'.1 ≤ r2.1 ∧ r2'.2 = r2.2) as (r2' & ? & ? & ?).
  { destruct (decide (i = i2)) as [<-|].
    - unfold advance in H2. rewrite list_lookup_alter_eq in H2.
      destruct (l !! i) as [r|]; [|done]. injection H2 as <-.
      exists r. simpl. split_and!; [done | lia | done].
    - rewrite advance_lookup_ne in H2 by done. by exists r2. }
  apply (Hc i1 i2 r1' r2' c1 c2 p q); try done; lia.
Qed.

End advance_facts.

Section merge_prefix.
Context {A : Type}.
Variable comp : A → A → bool.
Variable mem : Z → A.
Hypothesis Hswo : StrictWeakOrder comp.

Lemma merge_picks_S (n : nat) (l : list range) (i : nat) (p : Z) :
  pick comp mem l = Some (i, p) →
  merge_picks comp mem (S n) l =
  ((i, p) :: (merge_picks comp mem n (advance l i)).1,
   (merge_picks comp mem n (advance l i)).2).
Proof. intros H. cbn [merge_picks]. by rewrite H. Qed.

(** The element the merge takes next lies before a rank-based split that
    is not yet reached. *)
Lemma pick_before_split (l : list range) (c : list Z) (i : nat) (p : Z) :
  within l c → cross_ordered comp mem l c → 0 < split_rank l c →
  is_min comp mem l i p →
  ∃ r e, l !! i = Some r ∧ c !! i = Some e ∧ p = r.1 ∧ r.1 < e.
Proof.
  intros Hw Hc Hpos (r & Hr & Hne & -> & Hmin).
  destruct (within_lookup l c i r Hw Hr) as (e & He & Hre).
  exists r, e. split_and!; try done.
  destruct (decide (r.1 < e)) as [|Hge]; [done|]. exfalso.
  destruct (split_rank_pos l c Hw Hpos) as (j & rj & cj & Hj & Hcj & Hlt).
  destruct (within_lookup l c j rj Hw Hj) as (cj' & Hcj' & Hrj).
  assert (cj' = cj) as -> by congruence.
  assert (i ≠ j) as Hij.
  { intros ->. assert (rj = r) as -> by congruence.
    assert (cj = e) as -> by congruence. lia. }
  assert (lex_lt comp (mem r.1) i (mem rj.1) j = false) as H1.
  { apply (Hc j i rj r cj e rj.1 r.1); try done; try lia. }
  assert (lex_lt comp (mem rj.1) j (mem r.1) i = false) as H2.
  { apply Hmin; [done | lia]. }
  apply (lex_lt_total comp) in H1; [|done]. congruence.
Qed.

Lemma is_min_split_before (l : list range) (c : list Z) (i : nat) (p : Z) :
  within l c → is_min comp mem l i p →
  (∃ r e, l !! i = Some r ∧ c !! i = Some e ∧ r.1 < e) →
  is_min comp mem (split_before l c) i p.
Proof.
  intros Hw (r & Hr & Hne & -> & Hmin) (r' & e & Hr' & He & Hlt).
  assert (r' = r) as -> by congruence.
  exists (r.1, e). split_and!.
  - by apply split_before_lookup.
  - simpl. lia.
  - done.
  - intros j x Hx Hxne.
    apply split_before_lookup_inv in Hx as (rj & ej & Hrj & Hej & ->).
    simpl in *. apply (Hmin j rj Hrj).
    destruct (within_lookup l c j rj Hw Hrj) as (ej' & Hej' & Hb).
    assert (ej' = ej) as -> by congruence. lia.
Qed.

(** Up to a rank-based split [c] of rank [n], the merge of the sequences
    takes the elements before the split, in the order in which the merge of
    the parts before the split takes them, and leaves the parts from the
    split on. *)
Lemma merge_prefix (n : nat) (l : list range) (c : list Z) :
  within l c → cross_ordered comp mem l c → split_rank l c = Z.of_nat n →
  merge_picks comp mem n l =
    ((merge_picks comp mem n (split_before l c)).1, split_after l c)
  ∧ (merge_picks comp mem n (split_before l c)).2 = (λ e, (e, e)) <$> c
  ∧ length (merge_picks comp mem n l).1 = n.
Proof.
  revert l. induction n as [|n IH]; intros l Hw Hc Hn.
  - apply split_rank_0 in Hn; [|done]. subst c. cbn [merge_picks fst snd].
    by rewrite split_after_fst, split_before_fst.
  - assert (0 < split_rank l c) as Hpos by lia.
    destruct (pick comp mem l) as [[i p]|] eqn:E.
    2:{ apply pick_None in E.
        destruct (split_rank_pos l c Hw Hpos) as (j & rj & cj & Hj & Hcj & Hlt).
        rewrite Forall_lookup in E. specialize (E j rj Hj).
        destruct (within_lookup l c j rj Hw Hj) as (cj' & Hcj' & Hrj).
        assert (cj' = cj) as -> by congruence. lia. }
    pose proof (pick_is_min comp mem Hswo l i p E) as Hmin.
    destruct (pick_before_split l c i p Hw Hc Hpos Hmin)
      as (r & e & Hr & He & -> & Hlt).
    assert (pick comp mem (split_before l c) = Some (i, r.1)) as E'.
    { apply (is_min_pick comp mem Hswo).
      apply is_min_split_before; [done | done | by exists r, e]. }
    rewrite (merge_picks_S n l i r.1 E).
    rewrite (merge_picks_S n (split_before l c) i r.1 E').
    rewrite <- split_before_advance.
    destruct (IH (advance l i)) as (IH1 & IH2 & IH3).
    { by eapply within_advance. }
    { by apply cross_ordered_advance. }
    { rewrite (split_rank_advance l c i r e) by done. lia. }
    rewrite IH1. cbn [fst snd].
    rewrite (split_after_advance l c i r e) by done.
    split_and!; [done | done |].
    cbn [length]. f_equal. by rewrite IH1 in IH3.
Qed.

(** More steps of the merge continue from the sequences that remain. *)
Lemma merge_picks_add (n m : nat) (l : list range) :
  merge_picks comp mem (n + m) l =
  ((merge_picks comp mem n l).1 ++
     (merge_picks comp mem m (merge_picks comp mem n l).2).1,
   (merge_picks comp mem m (merge_picks comp mem n l).2).2).
Proof.
  revert l. induction n as [|n IH]; intros l.
  - cbn [merge_picks Nat.add fst snd app]. by destruct (merge_picks comp mem m l).
  - cbn [Nat.add merge_picks].
    destruct (pick comp mem l) as [[i p]|] eqn:E.
    + rewrite IH. done.
    + cbn [fst snd app]. destruct m; cbn [merge_picks]; by rewrite ?E.
Qed.

End merge_prefix.

(** ** What the planner contract gives *)

Lemma forallb_seq (f : nat → bool) (n i : nat) :
  forallb f (seq 0 n) = true → (i < n)%nat → f i = true.
Proof.
  intros H Hi. rewrite forallb_forall in H. apply H. apply in_seq. lia.
Qed.

Lemma forallb_seqZ (f : Z → bool) (a n p : Z) :
  forallb f (seqZ a n) = true → a ≤ p < a + n → f p = true.
Proof.
  intros H Hp. rewrite forallb_forall in H. apply H.
  apply list_elem_of_In, elem_of_seqZ. lia.
Qed.

Section contract_facts.
Context {A : Type} {Stable : bool}.
Variable comp : A → A → bool.
Variable mem : Z → A.
Variable seqs_ne : list range.
Variable bound : Z.
Variable num_threads : nat.
Variable fill : nat → nat → range.
Hypothesis Hok :
  partition_table_ok Stable comp mem seqs_ne bound num_threads fill = true.

Lemma contract_start (s : nat) (q : range) :
  (0 < num_threads)%nat → seqs_ne !! s = Some q → (fill 0 s).1 = q.1.
Proof.
  intros Hw Hs. unfold partition_table_ok in Hok.
  apply andb_true_iff in Hok as [H _]. apply andb_true_iff in H as [H _].
  apply (forallb_seq _ _ 0%nat) in H; [|done].
  apply (forallb_seq _ _ s) in H; [|by eapply lookup_lt_Some].
  apply andb_true_iff in H as [H _]. unfold chunk_contiguous in H.
  rewrite Hs in H. by apply bool_decide_eq_true in H.
Qed.

Lemma contract_contiguous (w s : nat) :
  (S w < num_threads)%nat → (s < length seqs_ne)%nat →
  (fill (S w) s).1 = (fill w s).2.
Proof.
  intros Hw Hs. unfold partition_table_ok in Hok.
  apply andb_true_iff in Hok as [H _]. apply andb_true_iff in H as [H _].
  apply (forallb_seq _ _ (S w)) in H; [|done].
  apply (forallb_seq _ _ s) in H; [|done].
  apply andb_true_iff in H as [H _]. unfold chunk_contiguous in H.
  destruct (lookup_lt_is_Some_2 seqs_ne s Hs) as [q Hq].
  rewrite Hq in H. by apply bool_decide_eq_true in H.
Qed.

Lemma contract_within (w s : nat) (q : range) :
  (w < num_threads)%nat → seqs_ne !! s = Some q →
  (fill w s).1 ≤ (fill w s).2 ≤ q.2.
Proof.
  intros Hw Hs. unfold partition_table_ok in Hok.
  apply andb_true_iff in Hok as [H _]. apply andb_true_iff in H as [H _].
  apply (forallb_seq _ _ w) in H; [|done].
  apply (forallb_seq _ _ s) in H; [|by eapply lookup_lt_Some].
  apply andb_true_iff in H as [_ H]. unfold chunk_within in H.
  rewrite Hs in H. by apply bool_decide_eq_true in H.
Qed.

Lemma contract_count :
  sumZ ((λ w, row_length (table_row seqs_ne fill w)) <$> seq 0 num_threads) = bound.
Proof.
  unfold partition_table_ok in Hok.
  apply andb_true_iff in Hok as [H _]. apply andb_true_iff in H as [_ H].
  by apply bool_decide_eq_true in H.
Qed.

Lemma contract_ordered (w i j : nat) (qi qj : range) (p q : Z) :
  (w < num_threads)%nat → i ≠ j →
  seqs_ne !! i = Some qi → seqs_ne !! j = Some qj →
  qi.1 ≤ p < (fill w i).2 → (fill w j).2 ≤ q < qj.2 →
  goes_before Stable comp (mem q) j (mem p) i = false.
Proof.
  intros Hw Hij Hi Hj Hp Hq. unfold partition_table_ok in Hok.
  apply andb_true_iff in Hok as [_ H].
  apply (forallb_seq _ _ w) in H; [|done].
  apply (forallb_seq _ _ i) in H; [|by eapply lookup_lt_Some].
  apply (forallb_seq _ _ j) in H; [|by eapply lookup_lt_Some].
  unfold split_ordered in H. rewrite Hi, Hj in H.
  rewrite bool_decide_eq_false_2 in H by done. cbn [orb] in H.
  apply (forallb_seqZ _ _ _ p) in H; [|lia].
  apply (forallb_seqZ _ _ _ q) in H; [|lia].
  by apply negb_true_iff in H.
Qed.

Lemma cut_length (w : nat) : length (cut seqs_ne fill w) = length seqs_ne.
Proof. destruct w; simpl; by rewrite length_fmap, ?length_seq. Qed.

Lemma cut_S_lookup (w s : nat) :
  (s < length seqs_ne)%nat → cut seqs_ne fill (S w) !! s = Some (fill w s).2.
Proof. intros Hs. simpl. by rewrite list_lookup_fmap, lookup_seq_lt. Qed.

(** The start of a chunk is the position at which its row starts. *)
Lemma cut_lookup (w s : nat) :
  (w < num_threads)%nat → (s < length seqs_ne)%nat →
  cut seqs_ne fill w !! s = Some (fill w s).1.
Proof.
  intros Hw Hs. destruct w as [|w].
  - simpl. rewrite list_lookup_fmap.
    destruct (lookup_lt_is_Some_2 seqs_ne s Hs) as [q Hq]. rewrite Hq. simpl.
    by rewrite (contract_start s q).
  - rewrite cut_S_lookup by done. by rewrite contract_contiguous.
Qed.

Lemma table_row_split (w : nat) :
  (w < num_threads)%nat →
  table_row seqs_ne fill w =
  split_before (split_after seqs_ne (cut seqs_ne fill w)) (cut seqs_ne fill (S w)).
Proof.
  intros Hw. apply list_eq. intros s. unfold table_row, split_before, split_after.
  rewrite list_lookup_fmap, !lookup_zip_with.
  destruct (decide (s < length seqs_ne)%nat) as [Hs|Hs].
  - rewrite lookup_seq_lt by done.
    destruct (lookup_lt_is_Some_2 seqs_ne s Hs) as [q Hq]. rewrite Hq.
    rewrite (cut_lookup w s), (cut_S_lookup w s) by done. simpl.
    by destruct (fill w s).
  - rewrite lookup_seq_ge by lia. rewrite (lookup_ge_None_2 seqs_ne) by lia. done.
Qed.

Lemma cut_within (w : nat) :
  (w < num_threads)%nat →
  within (split_after seqs_ne (cut seqs_ne fill w)) (cut seqs_ne fill (S w)).
Proof.
  intros Hw. apply Forall2_same_length_lookup_2.
  - unfold split_after. rewrite length_zip_with, !cut_length. lia.
  - intros s r e Hr He. unfold split_after in Hr. rewrite lookup_zip_with in Hr.
    destruct (seqs_ne !! s) as [q|] eqn:Hq; [|done]. simpl in Hr.
    pose proof (lookup_lt_Some _ _ _ Hq) as Hs.
    rewrite cut_lookup in Hr by done. simpl in Hr. injection Hr as <-.
    rewrite cut_S_lookup in He by done. injection He as <-. simpl.
    by apply contract_within.
Qed.

Lemma cut_ge (w s : nat) (q : range) (e : Z) :
  (0 < num_threads)%nat → (w ≤ num_threads)%nat → seqs_ne !! s = Some q →
  cut seqs_ne fill w !! s = Some e → q.1 ≤ e ≤ q.2.
Proof.
  intros Hnt Hw Hq. pose proof (lookup_lt_Some _ _ _ Hq) as Hs.
  revert e Hw. induction w as [|w IH]; intros e Hw He.
  - simpl in He. rewrite list_lookup_fmap, Hq in He. injection He as <-.
    pose proof (contract_start s q Hnt Hq) as H0.
    pose proof (contract_within 0 s q Hnt Hq) as H1. lia.
  - rewrite cut_S_lookup in He by done. injection He as <-.
    pose proof (contract_within w s q ltac:(lia) Hq) as H1.
    specialize (IH (fill w s).1 ltac:(lia)).
    rewrite cut_lookup in IH by (done || lia). specialize (IH eq_refl). lia.
Qed.

End contract_facts.

Lemma split_rank_fst (l : list range) : split_rank l (fst <$> l) = 0.
Proof.
  unfold split_rank. induction l as [|r l IH]; [done|].
  rewrite fmap_cons. cbn [zip_with sumZ]. lia.
Qed.

Lemma split_after_twice (l : list range) (c c' : list Z) :
  length c = length l →
  split_after (split_after l c) c' = split_after l c'.
Proof.
  unfold split_after. revert c c'.
  induction l as [|r l IH]; intros [|e c] [|e' c'] Hl; try done.
  cbn [zip_with]. simpl. f_equal. apply IH. simpl in Hl. lia.
Qed.

Lemma split_rank_after (l : list range) (c c' : list Z) :
  length c = length l → length c' = length l →
  split_rank (split_after l c) c' = split_rank l c' - split_rank l c.
Proof.
  unfold split_rank, split_after. revert c c'.
  induction l as [|r l IH]; intros [|e c] [|e' c'] Hl Hl'; try done.
  cbn [zip_with sumZ]. simpl in Hl, Hl'. rewrite IH by lia. simpl. lia.
Qed.

(** ** The target buffer after the workers *)

Lemma write_range_lookup {A : Type} (buf : gmap Z A) (pos : Z) (l : list A) (a : Z) :
  write_range buf pos l !! a =
  if decide (pos ≤ a < pos + Z.of_nat (length l))
  then l !! Z.to_nat (a - pos)
  else buf !! a.
Proof.
  revert buf pos. induction l as [|x l IH]; intros buf pos.
  - simpl. case_decide; [lia | done].
  - cbn [write_range length]. rewrite IH.
    destruct (decide (a = pos)) as [->|Hne].
    + rewrite decide_False by lia. rewrite decide_True by lia.
      rewrite lookup_insert_eq. by replace (pos - pos) with 0 by lia.
    + rewrite lookup_insert_ne by done.
      repeat case_decide; try lia; try done.
      replace (Z.to_nat (a - pos)) with (S (Z.to_nat (a - (pos + 1)))) by lia.
      done.
Qed.

Lemma writes_disjoint_init {A : Type} (ws : list (Z * list A)) (w : Z * list A) :
  writes_disjoint (ws ++ [w]) → writes_disjoint ws.
Proof.
  intros H i j wi wj Hij Hi Hj.
  apply (H i j wi wj Hij); by apply lookup_app_l_Some.
Qed.

Lemma apply_writes_lookup_in {A : Type} (buf : gmap Z A) (ws : list (Z * list A))
    (i : nat) (w : Z * list A) (a : Z) :
  writes_disjoint ws → ws !! i = Some w →
  w.1 ≤ a < w.1 + Z.of_nat (length w.2) →
  apply_writes buf ws !! a = w.2 !! Z.to_nat (a - w.1).
Proof.
  revert i. induction ws as [|wl ws IH] using rev_ind; intros i Hd Hi Ha; [done|].
  unfold apply_writes. rewrite foldl_app. cbn [foldl]. rewrite write_range_lookup.
  destruct (decide (i = length ws)) as [->|Hne].
  - rewrite list_lookup_middle in Hi by done. injection Hi as ->.
    by rewrite decide_True by done.
  - assert (ws !! i = Some w) as Hi'.
    { apply lookup_lt_Some in Hi as Hlt. rewrite length_app in Hlt. simpl in Hlt.
      rewrite lookup_app_l in Hi by lia. done. }
    assert ((ws ++ [wl]) !! length ws = Some wl) as Hl
      by (by apply list_lookup_middle).
    destruct (Hd i (length ws) w wl Hne Hi Hl) as [H|H];
      (rewrite decide_False by lia);
      apply (IH i); try done; by eapply writes_disjoint_init.
Qed.

Lemma apply_writes_lookup_out {A : Type} (buf : gmap Z A) (ws : list (Z * list A))
    (a : Z) :
  (∀ i w, ws !! i = Some w → ¬ (w.1 ≤ a < w.1 + Z.of_nat (length w.2))) →
  apply_writes buf ws !! a = buf !! a.
Proof.
  induction ws as [|wl ws IH] using rev_ind; intros H; [done|].
  unfold apply_writes. rewrite foldl_app. cbn [foldl]. rewrite write_range_lookup.
  rewrite decide_False.
  - apply IH. intros i w Hi. apply (H i). by apply lookup_app_l_Some.
  - apply (H (length ws)). by apply list_lookup_middle.
Qed.

Lemma run_calls_writes {A MultiwayMergeAlgorithm : Type}
    (comp : A → A → bool) (mwma : MultiwayMergeAlgorithm) (mem : Z → A)
    (calls : list worker_call) (buf : gmap Z A) :
  foldl (run_call multiway_merge_base true comp mwma mem) buf calls =
  apply_writes buf (call_write comp mem <$> calls).
Proof.
  revert buf. induction calls as [|call calls IH]; intros buf; [done|].
  cbn [foldl fmap list_fmap]. rewrite IH. done.
Qed.

Section worker_chain.
Context {A : Type} {Stable : bool}.
Variable comp : A → A → bool.
Variable mem : Z → A.
Variable seqs_ne : list range.
Variable bound : Z.
Variable num_threads : nat.
Variable fill : nat → nat → range.
Hypothesis Hswo : StrictWeakOrder comp.
Hypothesis Hok :
  partition_table_ok Stable comp mem seqs_ne bound num_threads fill = true.
Hypothesis Hnt : (0 < num_threads)%nat.

Local Abbreviation rank_of := (rank_of seqs_ne fill).

Lemma rank_of_0 : rank_of 0 = 0.
Proof. unfold rank_of. simpl. apply split_rank_fst. Qed.

Lemma row_offset_rank (w : nat) :
  (w < num_threads)%nat →
  row_offset (table_row seqs_ne fill w) seqs_ne = rank_of w.
Proof.
  intros Hw. unfold row_offset, rank_of, split_rank. f_equal.
  apply list_eq. intros s. unfold table_row.
  rewrite !lookup_zip_with, list_lookup_fmap.
  destruct (decide (s < length seqs_ne)%nat) as [Hs|Hs].
  - rewrite lookup_seq_lt by done.
    destruct (lookup_lt_is_Some_2 seqs_ne s Hs) as [q Hq]. rewrite Hq.
    rewrite (cut_lookup comp mem seqs_ne bound num_threads fill Hok w s) by done.
    done.
  - rewrite lookup_seq_ge by lia. rewrite (lookup_ge_None_2 seqs_ne) by lia. done.
Qed.

Lemma row_length_rank (w : nat) :
  (w < num_threads)%nat →
  row_length (table_row seqs_ne fill w) = rank_of (S w) - rank_of w.
Proof.
  intros Hw. unfold rank_of.
  rewrite <- split_rank_after by (by rewrite cut_length).
  unfold row_length, split_rank. f_equal.
  apply list_eq. intros s. unfold table_row, split_after.
  rewrite !lookup_zip_with, !list_lookup_fmap.
  destruct (decide (s < length seqs_ne)%nat) as [Hs|Hs].
  - rewrite lookup_seq_lt by done.
    destruct (lookup_lt_is_Some_2 seqs_ne s Hs) as [q Hq]. rewrite Hq.
    rewrite (cut_lookup comp mem seqs_ne bound num_threads fill Hok w s) by done.
    rewrite (cut_S_lookup seqs_ne fill w s) by done. done.
  - rewrite lookup_seq_ge by lia. rewrite (lookup_ge_None_2 seqs_ne) by lia. done.
Qed.

Lemma row_length_nonneg (w : nat) :
  (w < num_threads)%nat → 0 ≤ row_length (table_row seqs_ne fill w).
Proof.
  intros Hw. rewrite row_length_rank by done. unfold rank_of.
  rewrite <- split_rank_after by (by rewrite cut_length).
  apply split_rank_nonneg.
  by apply (cut_within comp mem seqs_ne bound num_threads fill Hok).
Qed.

Lemma rank_of_mono (w : nat) : (w < num_threads)%nat → rank_of w ≤ rank_of (S w).
Proof.
  intros Hw. pose proof (row_length_nonneg w Hw) as H.
  rewrite row_length_rank in H by done. lia.
Qed.

Lemma rank_of_nonneg (w : nat) : (w ≤ num_threads)%nat → 0 ≤ rank_of w.
Proof.
  induction w as [|w IH]; intros Hw.
  - rewrite rank_of_0. lia.
  - pose proof (rank_of_mono w ltac:(lia)). specialize (IH ltac:(lia)). lia.
Qed.

Lemma rank_of_sum (n : nat) :
  (n ≤ num_threads)%nat →
  sumZ ((λ w, row_length (table_row seqs_ne fill w)) <$> seq 0 n) = rank_of n.
Proof.
  induction n as [|n IH]; intros Hn.
  - by rewrite rank_of_0.
  - rewrite seq_S, fmap_app, sumZ_app, IH by lia. simpl.
    rewrite row_length_rank by lia. lia.
Qed.

Lemma rank_of_last : rank_of num_threads = bound.
Proof.
  rewrite <- rank_of_sum by done.
  apply (contract_count comp mem seqs_ne bound num_threads fill Hok).
Qed.

Lemma rank_of_le (w w' : nat) :
  (w ≤ w')%nat → (w' ≤ num_threads)%nat → rank_of w ≤ rank_of w'.
Proof.
  intros Hw Hw'. induction w' as [|w' IH].
  - assert (w = 0%nat) as -> by lia. lia.
  - destruct (decide (w = S w')) as [->|]; [lia|].
    pose proof (rank_of_mono w' ltac:(lia)). specialize (IH ltac:(lia) ltac:(lia)). lia.
Qed.

(** Every position below the bound belongs to exactly one worker. *)
Lemma rank_of_owner (k : Z) :
  0 ≤ k < bound →
  ∃ w, (w < num_threads)%nat ∧ rank_of w ≤ k < rank_of (S w).
Proof.
  rewrite <- rank_of_last. intros Hk.
  assert (∀ n, (n ≤ num_threads)%nat → k < rank_of n →
    ∃ w, (w < n)%nat ∧ rank_of w ≤ k < rank_of (S w)) as H.
  { induction n as [|n IH]; intros Hn Hlt.
    - rewrite rank_of_0 in Hlt. lia.
    - destruct (decide (k < rank_of n)) as [Hlt'|Hge].
      + destruct (IH ltac:(lia) Hlt') as (w & ? & ?). exists w. split; [lia | done].
      + exists n. split; [lia | lia]. }
  destruct (H num_threads ltac:(lia) ltac:(lia)) as (w & ? & ?). by exists w.
Qed.

(** From here on the stable variant, where the table is split by element
    and sequence index. *)
Hypothesis Hstable : Stable = true.

Lemma cut_cross_ordered (w : nat) :
  (w < num_threads)%nat →
  cross_ordered comp mem (split_after seqs_ne (cut seqs_ne fill w))
    (cut seqs_ne fill (S w)).
Proof.
  intros Hw i j ri rj ci cj p q Hij Hi Hj Hci Hcj Hp Hq.
  unfold split_after in Hi, Hj. rewrite lookup_zip_with in Hi, Hj.
  destruct (seqs_ne !! i) as [qi|] eqn:Hqi; [|done]. simpl in Hi.
  destruct (seqs_ne !! j) as [qj|] eqn:Hqj; [|done]. simpl in Hj.
  destruct (cut seqs_ne fill w !! i) as [ei|] eqn:Hei; [|done].
  destruct (cut seqs_ne fill w !! j) as [ej|] eqn:Hej; [|done].
  simpl in Hi, Hj. injection Hi as <-. injection Hj as <-. cbn [fst snd] in *.
  pose proof (lookup_lt_Some _ _ _ Hqi) as Hsi.
  pose proof (lookup_lt_Some _ _ _ Hqj) as Hsj.
  rewrite cut_S_lookup in Hci, Hcj by done.
  injection Hci as <-. injection Hcj as <-.
  pose proof (cut_ge comp mem seqs_ne bound num_threads fill Hok
                w i qi ei Hnt ltac:(lia) Hqi Hei).
  pose proof (contract_ordered comp mem seqs_ne bound num_threads fill Hok
                w i j qi qj p q Hw Hij Hqi Hqj ltac:(lia) ltac:(lia)) as Hb.
  by rewrite Hstable in Hb.
Qed.

(** The merge of all sequences, up to the rank at which row [w] starts,
    leaves the sequences from the starts of row [w] on. *)
Lemma merge_to_rank (w : nat) :
  (w ≤ num_threads)%nat →
  (merge_picks comp mem (Z.to_nat (rank_of w)) seqs_ne).2 =
    split_after seqs_ne (cut seqs_ne fill w)
  ∧ length (merge_picks comp mem (Z.to_nat (rank_of w)) seqs_ne).1 =
    Z.to_nat (rank_of w).
Proof.
  induction w as [|w IH]; intros Hw.
  - rewrite rank_of_0. simpl. by rewrite split_after_fst.
  - destruct (IH ltac:(lia)) as [IH1 IH2].
    pose proof (rank_of_mono w ltac:(lia)) as Hm.
    pose proof (rank_of_nonneg w ltac:(lia)) as H0.
    replace (Z.to_nat (rank_of (S w)))
      with (Z.to_nat (rank_of w) + Z.to_nat (rank_of (S w) - rank_of w))%nat by lia.
    rewrite (merge_picks_add comp mem). cbn [fst snd]. rewrite IH1.
    destruct (merge_prefix comp mem Hswo (Z.to_nat (rank_of (S w) - rank_of w))
                (split_after seqs_ne (cut seqs_ne fill w)) (cut seqs_ne fill (S w)))
      as (H1 & H2 & H3).
    { apply (cut_within comp mem seqs_ne bound num_threads fill Hok). lia. }
    { apply cut_cross_ordered. lia. }
    { rewrite split_rank_after by (by rewrite cut_length). fold (rank_of (S w)).
      fold (rank_of w). lia. }
    rewrite H1. cbn [fst snd].
    rewrite split_after_twice by (by rewrite cut_length).
    split; [done|]. rewrite length_app, IH2. rewrite H1 in H3. cbn [fst] in H3.
    rewrite H3. done.
Qed.

(** What a worker merges is the part of the single-threaded merge at its
    positions. *)
Lemma merge_row_lookup (w : nat) (k : Z) :
  (w < num_threads)%nat → rank_of w ≤ k < rank_of (S w) →
  (merge_picks comp mem (Z.to_nat bound) seqs_ne).1 !! Z.to_nat k =
  (merge_picks comp mem (Z.to_nat (row_length (table_row seqs_ne fill w)))
     (table_row seqs_ne fill w)).1 !! Z.to_nat (k - rank_of w)
  ∧ length (merge_picks comp mem (Z.to_nat (row_length (table_row seqs_ne fill w)))
     (table_row seqs_ne fill w)).1 = Z.to_nat (row_length (table_row seqs_ne fill w)).
Proof.
  intros Hw Hk.
  pose proof (rank_of_nonneg w ltac:(lia)) as H0.
  pose proof (rank_of_le (S w) num_threads ltac:(lia) ltac:(lia)) as Hle.
  rewrite rank_of_last in Hle.
  rewrite row_length_rank by done.
  destruct (merge_to_rank w ltac:(lia)) as [M1 M2].
  destruct (merge_prefix comp mem Hswo (Z.to_nat (rank_of (S w) - rank_of w))
              (split_after seqs_ne (cut seqs_ne fill w)) (cut seqs_ne fill (S w)))
    as (H1 & H2 & H3).
  { apply (cut_within comp mem seqs_ne bound num_threads fill Hok). lia. }
  { apply cut_cross_ordered. lia. }
  { rewrite split_rank_after by (by rewrite cut_length). fold (rank_of (S w)).
    fold (rank_of w). lia. }
  rewrite <- (table_row_split comp mem seqs_ne bound num_threads fill Hok w Hw)
    in H1, H2.
  rewrite H1 in H3. cbn [fst] in H3. split; [|done].
  replace (Z.to_nat bound)
    with (Z.to_nat (rank_of w) +
          (Z.to_nat (rank_of (S w) - rank_of w) + Z.to_nat (bound - rank_of (S w))))%nat
    by lia.
  rewrite (merge_picks_add comp mem). cbn [fst]. rewrite M1.
  rewrite (merge_picks_add comp mem). cbn [fst]. rewrite H1. cbn [fst].
  rewrite lookup_app_r by lia. rewrite M2.
  rewrite lookup_app_l by lia. f_equal. lia.
Qed.

(** The end of a chunk in the last row is the position the single-threaded
    merge reaches in its sequence. *)
Lemma last_row_end (s : nat) :
  (s < length seqs_ne)%nat →
  (merge_picks comp mem (Z.to_nat bound) seqs_ne).2 !! s
  = (λ q : range, ((fill (num_threads - 1) s).2, q.2)) <$> seqs_ne !! s.
Proof.
  intros Hs. destruct (merge_to_rank num_threads ltac:(lia)) as [H _].
  rewrite rank_of_last in H. rewrite H. unfold split_after.
  rewrite lookup_zip_with.
  destruct (lookup_lt_is_Some_2 seqs_ne s Hs) as [q Hq]. rewrite Hq. simpl.
  destruct num_threads as [|n]; [lia|].
  rewrite cut_S_lookup by done. simpl.
  by replace (n - 0)%nat with n by lia.
Qed.

Variable target size : Z.
Variable sched : list nat.
Hypothesis Hsize : bound ≤ size.
Hypothesis Hsched : sched ≡ₚ seq 0 num_threads.

Local Abbreviation rank := rank_of.
Local Abbreviation row := (table_row seqs_ne fill).
Local Abbreviation call := (expected_call fill seqs_ne target size).

Lemma expected_call_eq (w : nat) :
  (w < num_threads)%nat →
  call w = WorkerCall (row w) (target + rank w) (rank (S w) - rank w).
Proof.
  intros Hw. unfold expected_call. fold (row w).
  rewrite row_offset_rank by done.
  rewrite row_length_rank by done.
  pose proof (rank_of_le (S w) num_threads ltac:(lia) ltac:(lia)) as H.
  rewrite rank_of_last in H.
  f_equal. lia.
Qed.

Lemma sched_lt (w : nat) : w ∈ sched → (w < num_threads)%nat.
Proof. rewrite Hsched. intros H%elem_of_seq. lia. Qed.

Lemma call_write_eq (w : nat) :
  (w < num_threads)%nat →
  (call_write comp mem (call w)).1 = target + rank w ∧
  Z.of_nat (length (call_write comp mem (call w)).2) = rank (S w) - rank w ∧
  ∀ k, rank w ≤ k < rank (S w) →
    (call_write comp mem (call w)).2 !! Z.to_nat (k - rank w) =
    merged comp mem bound seqs_ne !! Z.to_nat k.
Proof.
  intros Hw. rewrite expected_call_eq by done. unfold call_write. cbn.
  pose proof (rank_of_mono w Hw) as Hm.
  split; [done|]. unfold merged.
  pose proof (row_length_rank w Hw) as Hl.
  split.
  - rewrite length_fmap.
    destruct (decide (rank w < rank (S w))) as [Hlt|Hge].
    + destruct (merge_row_lookup w (rank w) Hw ltac:(lia)) as [_ H].
      rewrite Hl in H. rewrite H. lia.
    + replace (rank (S w) - rank w) with 0 by lia. done.
  - intros k Hk. rewrite !list_lookup_fmap.
    destruct (merge_row_lookup w k Hw Hk) as [H _].
    rewrite Hl in H. by rewrite H.
Qed.

Lemma sched_writes_disjoint :
  writes_disjoint (call_write comp mem <$> (call <$> sched)).
Proof.
  intros i j wi wj Hij Hi Hj. rewrite !list_lookup_fmap in Hi, Hj.
  destruct (sched !! i) as [w|] eqn:Hw; [|done].
  destruct (sched !! j) as [w'|] eqn:Hw'; [|done].
  simpl in Hi, Hj. injection Hi as <-. injection Hj as <-.
  assert (w ≠ w') as Hne.
  { intros ->. apply Hij. eapply NoDup_lookup; [|done..].
    rewrite Hsched. apply NoDup_seq. }
  pose proof (sched_lt w ltac:(by eapply list_elem_of_lookup_2)) as Hlt.
  pose proof (sched_lt w' ltac:(by eapply list_elem_of_lookup_2)) as Hlt'.
  destruct (call_write_eq w Hlt) as (-> & -> & _).
  destruct (call_write_eq w' Hlt') as (-> & -> & _).
  destruct (decide (w < w')%nat).
  - left.
    pose proof (rank_of_le (S w) w' ltac:(lia) ltac:(lia)). lia.
  - right.
    pose proof (rank_of_le (S w') w ltac:(lia) ltac:(lia)). lia.
Qed.

(** The target buffer after the workers, whatever the order in which they
    took effect: the addresses from [target] to [target + bound] hold the
    merge of all sequences, and the others are as before. *)
Lemma target_after_workers (buf : gmap Z A) (a : Z) :
  apply_writes buf (call_write comp mem <$> (call <$> sched)) !! a =
  if decide (target ≤ a < target + bound)
  then merged comp mem bound seqs_ne !! Z.to_nat (a - target)
  else buf !! a.
Proof.
  case_decide as Ha.
  - destruct (rank_of_owner (a - target) ltac:(lia)) as (w & Hw & Hk).
    assert (w ∈ sched) as Hin. { rewrite Hsched. apply elem_of_seq. lia. }
    apply list_elem_of_lookup_1 in Hin as [i Hi].
    destruct (call_write_eq w Hw) as (H1 & H2 & H3).
    rewrite (apply_writes_lookup_in buf _ i (call_write comp mem (call w)));
      [| apply sched_writes_disjoint
       | by rewrite !list_lookup_fmap, Hi
       | lia].
    rewrite H1. rewrite <- (H3 (a - target)) by done. f_equal. lia.
  - apply apply_writes_lookup_out. intros i w Hi.
    rewrite !list_lookup_fmap in Hi.
    destruct (sched !! i) as [v|] eqn:Hv; [|done]. simpl in Hi. injection Hi as <-.
    pose proof (sched_lt v ltac:(by eapply list_elem_of_lookup_2)) as Hlt.
    destruct (call_write_eq v Hlt) as (-> & -> & _).
    pose proof (rank_of_nonneg v ltac:(lia)) as H0.
    pose proof (rank_of_le (S v) num_threads ltac:(lia) ltac:(lia)) as Hle.
    rewrite rank_of_last in Hle.
    lia.
Qed.

End worker_chain.

(** ** Empty sequences do not change the merge *)

Lemma thinned_seqs_ne (seqs : list range) : thinned seqs (seqs_ne_of seqs).
Proof.
  induction seqs as [|r seqs IH]; [constructor|].
  rewrite seqs_ne_of_cons. destruct (non_empty r) eqn:Hr.
  - by constructor.
  - apply thinned_skip; [by apply non_empty_false | done].
Qed.

Section thinned_facts.
Context {A : Type}.
Variable comp : A → A → bool.
Variable mem : Z → A.

Lemma thinned_pick (l l' : list range) :
  thinned l l' →
  match pick comp mem l, pick comp mem l' with
  | None, None => True
  | Some (i, p), Some (i', p') => p = p' ∧ thinned (advance l i) (advance l' i')
  | _, _ => False
  end.
Proof.
  induction 1 as [|r l l' Ht IH|r l l' Hr Ht IH]; [done| |].
  - cbn [pick].
    destruct (pick comp mem l) as [[j p]|], (pick comp mem l') as [[j' p']|];
      try done.
    + destruct IH as [<- IH].
      destruct (non_empty r && negb (comp (mem p) (mem r.1))).
      * split; [done|]. by apply thinned_keep.
      * split; [done|]. by apply thinned_keep.
    + destruct (non_empty r); [|done]. split; [done|]. by apply thinned_keep.
  - cbn [pick]. apply non_empty_false in Hr. rewrite Hr. cbn [andb].
    destruct (pick comp mem l) as [[j p]|], (pick comp mem l') as [[j' p']|];
      try done.
    destruct IH as [<- IH]. split; [done|].
    apply thinned_skip; [by apply non_empty_false | done].
Qed.

Lemma thinned_merge_picks (n : nat) (l l' : list range) :
  thinned l l' →
  (merge_picks comp mem n l).1.*2 = (merge_picks comp mem n l').1.*2.
Proof.
  revert l l'. induction n as [|n IH]; intros l l' Ht; [done|].
  cbn [merge_picks]. pose proof (thinned_pick l l' Ht) as Hp.
  destruct (pick comp mem l) as [[i p]|], (pick comp mem l') as [[i' p']|];
    try done.
  destruct Hp as [<- Hp]. cbn [fst]. rewrite !fmap_cons. cbn [snd].
  f_equal. by apply IH.
Qed.

Lemma thinned_merged (n : Z) (l l' : list range) :
  thinned l l' → merged comp mem n l = merged comp mem n l'.
Proof.
  intros Ht. unfold merged.
  pose proof (thinned_merge_picks (Z.to_nat n) l l' Ht) as H.
  apply (f_equal (fmap mem)) in H. rewrite <- !list_fmap_compose in H. exact H.
Qed.

End thinned_facts.

(** ** The parallel merge under the planner contract *)

Lemma advanced_ext (ends ends' : nat → Z) (seqs : list range) (count : nat) :
  (∀ s, (count ≤ s < count + length (seqs_ne_of seqs))%nat → ends s = ends' s) →
  advanced ends seqs count = advanced ends' seqs count.
Proof.
  revert count. induction seqs as [|r seqs IH]; intros count H; [done|].
  rewrite seqs_ne_of_cons in H. cbn [advanced].
  destruct (non_empty r); cbn [length] in H.
  - rewrite (H count) by lia. f_equal. apply IH. intros s Hs. apply H. lia.
  - f_equal. apply IH. intros s Hs. apply H. lia.
Qed.

Section with_contract.
Context {A MultiwayMergeAlgorithm : Type}.
Variables sampling exact :
  bool → list range → Z → Z → (A → A → bool) → (Z → A) → Z → nat → nat → range.
Variable schedule : nat → list nat.
Variable seqs : list range.
Variable target size : Z.
Variable comp : A → A → bool.
Variable mwma : MultiwayMergeAlgorithm.
Variable mwmsa : MultiwayMergeSplittingAlgorithm.
Variable num_threads : Z.
Variable mem : Z → A.
Variable buf : gmap Z A.

Local Abbreviation Stable := true.
Local Abbreviation call_threads := (call_threads seqs num_threads).
Local Abbreviation call_table :=
  (call_table sampling exact Stable seqs size comp mwmsa num_threads mem).
Local Abbreviation call_bound := (call_bound seqs size).

Hypothesis Hswo : StrictWeakOrder comp.
Hypothesis Hsize : 0 ≤ size.
Hypothesis Htotal : 0 < total_size_of seqs.
Hypothesis Hnt_size_t : is_size_t num_threads.
Hypothesis Hnt : 1 ≤ num_threads.
Hypothesis Hok :
  partition_table_ok Stable comp mem (seqs_ne_of seqs) call_bound
    (Z.to_nat call_threads) call_table = true.
Hypothesis Hsched : schedule (Z.to_nat call_threads) ≡ₚ seq 0 (Z.to_nat call_threads).

Lemma call_threads_pos : (0 < Z.to_nat call_threads)%nat.
Proof.
  pose proof (clamp_num_threads_range num_threads (total_size_of seqs)
                Hnt_size_t Hnt Htotal) as H.
  unfold call_threads. lia.
Qed.

Lemma merged_seqs_length :
  length (merged comp mem call_bound seqs) = Z.to_nat call_bound.
Proof.
  rewrite (thinned_merged comp mem _ seqs (seqs_ne_of seqs))
    by apply thinned_seqs_ne.
  unfold merged. rewrite length_fmap.
  destruct (merge_to_rank comp mem (seqs_ne_of seqs) call_bound
              (Z.to_nat call_threads) call_table Hswo Hok call_threads_pos
              eq_refl (Z.to_nat call_threads) ltac:(lia)) as [_ H].
  rewrite (rank_of_last comp mem (seqs_ne_of seqs) call_bound
             (Z.to_nat call_threads) call_table Hok call_threads_pos) in H.
  exact H.
Qed.

(** The result of the call, whatever the order in which the workers take
    effect. *)
Lemma run_with_contract :
  ∃ r,
    parallel_multiway_merge_base_sched multiway_merge_base sampling exact
      schedule Stable seqs target size comp mwma mwmsa num_threads mem buf
    = Some r
    ∧ (∀ a, res_target r !! a =
         if decide (target ≤ a < target + call_bound)
         then merged comp mem call_bound seqs !! Z.to_nat (a - target)
         else buf !! a)
    ∧ res_seqs r =
        advanced (λ s, (call_table (Z.to_nat (call_threads - 1)) s).2) seqs 0
    ∧ res_return r = target + size
    ∧ res_calls r =
        expected_call call_table (seqs_ne_of seqs) target size
          <$> schedule (Z.to_nat call_threads).
Proof.
  pose proof (parallel_multiway_merge_base_sched_eq multiway_merge_base
    sampling exact schedule Stable seqs target size comp mwma mwmsa
    num_threads mem buf Htotal Hnt_size_t Hnt) as Hrun.
  cbn zeta in Hrun. fold call_threads in Hrun. fold call_table in Hrun.
  rewrite Hrun.
  2:{ apply Forall_forall. intros w Hw. rewrite Hsched in Hw.
      apply elem_of_seq in Hw. lia. }
  eexists. split; [done|]. cbn [res_target res_seqs res_return res_calls].
  split_and!; try done.
  intros a. rewrite run_calls_writes.
  rewrite (target_after_workers comp mem (seqs_ne_of seqs) call_bound
             (Z.to_nat call_threads) call_table Hswo Hok call_threads_pos
             eq_refl target size _ ltac:(unfold call_bound; lia) Hsched).
  by rewrite (thinned_merged comp mem _ seqs (seqs_ne_of seqs))
    by apply thinned_seqs_ne.
Qed.

(** The new starts of the sequences are those the single-threaded merge
    leaves. *)
Lemma advanced_single_threaded :
  advanced (λ s, (call_table (Z.to_nat (call_threads - 1)) s).2) seqs 0
  = advanced (single_threaded_start comp mem seqs call_bound) seqs 0.
Proof.
  apply advanced_ext. intros s Hs. unfold single_threaded_start.
  pose proof (last_row_end comp mem (seqs_ne_of seqs) call_bound
                (Z.to_nat call_threads) call_table Hswo Hok call_threads_pos
                eq_refl s ltac:(lia)) as H.
  destruct (lookup_lt_is_Some_2 (seqs_ne_of seqs) s ltac:(lia)) as [q Hq].
  rewrite Hq in H. simpl in H.
  apply list_lookup_total_correct in H. rewrite H. simpl.
  by replace (Z.to_nat (call_threads - 1)) with (Z.to_nat call_threads - 1)%nat
    by lia.
Qed.

End with_contract.

Lemma read_range_eq {A : Type} (buf : gmap Z A) (pos n : Z) (l : list A) :
  length l = Z.to_nat n →
  (∀ a, pos ≤ a < pos + n → buf !! a = l !! Z.to_nat (a - pos)) →
  read_range buf pos n = Some <$> l.
Proof.
  intros Hl H. apply list_eq. intros i. unfold read_range.
  rewrite !list_lookup_fmap.
  destruct (decide (Z.of_nat i < n)) as [Hi|Hi].
  - rewrite lookup_seqZ_lt by done. simpl. rewrite H by lia.
    replace (Z.to_nat (pos + (0 + Z.of_nat i) - pos)) with i by lia.
    destruct (lookup_lt_is_Some_2 l i ltac:(lia)) as [x ->]. done.
  - rewrite lookup_seqZ_ge by lia. rewrite (lookup_ge_None_2 l) by lia. done.
Qed.

(** ** The merge of sorted sequences is ordered by element and sequence *)

Lemma by_value_strict_weak_order {B : Type} (compB : B → B → bool) :
  StrictWeakOrder compB → StrictWeakOrder (by_value compB).
Proof.
  intros H. unfold by_value. split.
  - intros a. apply (swo_irrefl compB H).
  - intros a b c. apply (swo_trans compB H).
  - intros a b c. apply (swo_equiv_trans compB H).
Qed.

Lemma tagged_by_sequence_spec {B : Type} (mem : Z → B * nat) (seqs : list range)
    (i : nat) (r : range) (p : Z) :
  tagged_by_sequence mem seqs = true →
  seqs !! i = Some r → r.1 ≤ p < r.2 → (mem p).2 = i.
Proof.
  intros H Hi Hp. unfold tagged_by_sequence in H.
  apply (forallb_seq _ _ i) in H; [|by eapply lookup_lt_Some].
  cbn beta in H. rewrite Hi in H. apply (forallb_seqZ _ _ _ p) in H; [|lia].
  by apply bool_decide_eq_true in H.
Qed.

Section sorted_merge.
Context {A : Type}.
Variable comp : A → A → bool.
Variable mem : Z → A.
Hypothesis Hswo : StrictWeakOrder comp.

Lemma sorted_range_spec (r : range) :
  sorted_range comp mem r = true → sorted_seq comp mem r.
Proof.
  unfold sorted_range. intros H. apply andb_true_iff in H as [Hle Hadj].
  apply bool_decide_eq_true in Hle. split; [done|].
  assert (∀ (n : nat) p, r.1 ≤ p → p + Z.of_nat n < r.2 →
            comp (mem (p + Z.of_nat n)) (mem p) = false) as Hn.
  { induction n as [|n IH]; intros p Hp Hq.
    - rewrite Z.add_0_r. apply (swo_irrefl comp Hswo).
    - apply (swo_negtrans comp Hswo _ (mem (p + Z.of_nat n))).
      + pose proof (forallb_seqZ _ _ _ (p + Z.of_nat n) Hadj ltac:(lia)) as H.
        cbn beta in H. apply negb_true_iff in H.
        by replace (p + Z.of_nat (S n)) with (p + Z.of_nat n + 1) by lia.
      + apply IH; lia. }
  intros p q Hp Hpq Hq.
  specialize (Hn (Z.to_nat (q - p)) p Hp ltac:(lia)).
  by replace (p + Z.of_nat (Z.to_nat (q - p))) with q in Hn by lia.
Qed.

Lemma sorted_seq_advance (l : list range) (i : nat) (r : range) :
  Forall (sorted_seq comp mem) l → l !! i = Some r → r.1 ≠ r.2 →
  Forall (sorted_seq comp mem) (advance l i).
Proof.
  intros Hl Hi Hne. unfold advance. apply Forall_alter; [done|].
  intros x Hx [Hle Hs]. assert (x = r) as -> by congruence.
  split; simpl; [lia|]. intros p q Hp Hpq Hq. apply Hs; lia.
Qed.

(** Every element the merge takes lies in its sequence. *)
Lemma merge_picks_valid (n : nat) (l : list range) (k i : nat) (p : Z) :
  Forall (sorted_seq comp mem) l →
  (merge_picks comp mem n l).1 !! k = Some (i, p) →
  ∃ r, l !! i = Some r ∧ r.1 ≤ p < r.2.
Proof.
  revert l k. induction n as [|n IH]; intros l k Hl Hk; [done|].
  cbn [merge_picks] in Hk.
  destruct (pick comp mem l) as [[i0 p0]|] eqn:E; [|done].
  destruct (pick_is_min comp mem Hswo l i0 p0 E) as (r0 & Hr0 & Hne & -> & _).
  pose proof (proj1 (Forall_lookup _ l) Hl i0 r0 Hr0) as [Hle _].
  cbn [fst] in Hk. destruct k as [|k].
  - injection Hk as <- <-. exists r0. split; [done | lia].
  - change (((merge_picks comp mem n (advance l i0)).1 !! k) = Some (i, p)) in Hk.
    destruct (IH (advance l i0) k) as (r & Hr & Hp); [|done|].
    { by eapply sorted_seq_advance. }
    destruct (decide (i0 = i)) as [->|Hii].
    + rewrite (advance_lookup l i r0 Hr0) in Hr. injection Hr as <-.
      exists r0. split; [done | simpl in Hp; lia].
    + rewrite advance_lookup_ne in Hr by done. by exists r.
Qed.

(** The merge takes the elements in the order of [lex_lt]: no element goes
    before one taken earlier. *)
Lemma merge_picks_sorted (n : nat) (l : list range) (k1 k2 i1 i2 : nat) (p1 p2 : Z) :
  Forall (sorted_seq comp mem) l →
  (k1 < k2)%nat →
  (merge_picks comp mem n l).1 !! k1 = Some (i1, p1) →
  (merge_picks comp mem n l).1 !! k2 = Some (i2, p2) →
  lex_lt comp (mem p2) i2 (mem p1) i1 = false.
Proof.
  revert l k1 k2. induction n as [|n IH]; intros l k1 k2 Hl Hk H1 H2; [done|].
  cbn [merge_picks] in H1, H2.
  destruct (pick comp mem l) as [[i0 p0]|] eqn:E; [|done].
  destruct (pick_is_min comp mem Hswo l i0 p0 E) as (r0 & Hr0 & Hne & -> & Hmin).
  cbn [fst] in H1, H2.
  destruct k2 as [|k2]; [lia|].
  change (((merge_picks comp mem n (advance l i0)).1 !! k2) = Some (i2, p2)) in H2.
  assert (Forall (sorted_seq comp mem) (advance l i0)) as Hl'
    by (by eapply sorted_seq_advance).
  destruct k1 as [|k1].
  - injection H1 as <- <-.
    destruct (merge_picks_valid n (advance l i0) k2 i2 p2 Hl' H2) as (r & Hr & Hp).
    assert (∃ r2, l !! i2 = Some r2 ∧ r2.1 ≤ p2 < r2.2) as (r2 & Hr2 & Hp2).
    { destruct (decide (i0 = i2)) as [->|Hii].
      - rewrite (advance_lookup l i2 r0 Hr0) in Hr. injection Hr as <-.
        exists r0. split; [done | simpl in Hp; lia].
      - rewrite advance_lookup_ne in Hr by done. by exists r. }
    pose proof (proj1 (Forall_lookup _ l) Hl i2 r2 Hr2) as [_ Hs].
    apply (lex_lt_later comp Hswo _ _ (mem r2.1)).
    + apply (Hmin i2 r2 Hr2). lia.
    + apply Hs; lia.
  - change (((merge_picks comp mem n (advance l i0)).1 !! k1) = Some (i1, p1)) in H1.
    apply (IH (advance l i0) k1 k2); [done | lia | done | done].
Qed.

End sorted_merge.

(** ** The exact planner, as modelled, meets the planner contract *)

Lemma forallb_seq_intro (f : nat → bool) (n : nat) :
  (∀ i, (i < n)%nat → f i = true) → forallb f (seq 0 n) = true.
Proof.
  intros H. apply forallb_forall. intros i Hi. apply in_seq in Hi. apply H. lia.
Qed.

Lemma forallb_seqZ_intro (f : Z → bool) (a n : Z) :
  (∀ p, a ≤ p < a + n → f p = true) → forallb f (seqZ a n) = true.
Proof.
  intros H. apply forallb_forall. intros p Hp.
  apply list_elem_of_In, elem_of_seqZ in Hp. apply H. lia.
Qed.

Lemma split_rank_advance_length (l : list range) (c : list Z) (i : nat) :
  length c = length l → (i < length l)%nat →
  split_rank (advance l i) c = split_rank l c - 1.
Proof.
  unfold split_rank. revert c i.
  induction l as [|r l IH]; intros [|e c] [|i] Hl Hi; simpl in Hl, Hi; try lia.
  - cbn [advance alter list_alter zip_with sumZ]. simpl. lia.
  - change (advance (r :: l) (S i)) with (r :: advance l i).
    cbn [zip_with sumZ]. rewrite IH by lia. lia.
Qed.

Lemma row_length_advance (l : list range) (i : nat) :
  (i < length l)%nat → row_length (advance l i) = row_length l - 1.
Proof.
  unfold row_length. revert i. induction l as [|r l IH]; intros [|i] Hi;
    simpl in Hi; try lia.
  - cbn [advance alter list_alter]. rewrite !fmap_cons. cbn [sumZ].
    unfold range_size. simpl. lia.
  - change (advance (r :: l) (S i)) with (r :: advance l i).
    rewrite !fmap_cons. cbn [sumZ]. rewrite IH by lia. lia.
Qed.

Lemma row_length_all_empty (l : list range) :
  Forall (λ r : range, r.1 = r.2) l → row_length l = 0.
Proof.
  unfold row_length. induction 1 as [|r l Hr _ IH]; [done|].
  rewrite fmap_cons. cbn [sumZ]. rewrite IH. unfold range_size. lia.
Qed.

Section merge_state.
Context {A : Type}.
Variable comp : A → A → bool.
Variable mem : Z → A.
Hypothesis Hswo : StrictWeakOrder comp.

Lemma merge_picks_state_length (n : nat) (l : list range) :
  length (merge_picks comp mem n l).2 = length l.
Proof.
  revert l. induction n as [|n IH]; intros l; [done|].
  cbn [merge_picks]. destruct (pick comp mem l) as [[i p]|]; [|done].
  cbn [snd]. by rewrite IH, advance_length.
Qed.

(** The merge moves the starts forward, not past the ends. *)
Lemma merge_picks_state (n : nat) (l : list range) (s : nat) (r : range) :
  Forall (sorted_seq comp mem) l → l !! s = Some r →
  ∃ r', (merge_picks comp mem n l).2 !! s = Some r'
        ∧ r.1 ≤ r'.1 ≤ r.2 ∧ r'.2 = r.2.
Proof.
  revert l r. induction n as [|n IH]; intros l r Hl Hr.
  - exists r. pose proof (proj1 (Forall_lookup _ l) Hl s r Hr) as [Hle _].
    split; [done | lia].
  - pose proof (proj1 (Forall_lookup _ l) Hl s r Hr) as [Hle _].
    cbn [merge_picks]. destruct (pick comp mem l) as [[i p]|] eqn:E.
    2:{ exists r. split; [done | lia]. }
    destruct (pick_is_min comp mem Hswo l i p E) as (r0 & Hr0 & Hne & -> & _).
    cbn [snd].
    assert (Forall (sorted_seq comp mem) (advance l i)) as Hl'
      by (by eapply sorted_seq_advance).
    destruct (decide (i = s)) as [->|Hii].
    + assert (r0 = r) as -> by congruence.
      destruct (IH (advance l s) (r.1 + 1, r.2) Hl' (advance_lookup l s r Hr))
        as (r' & Hr' & Hb & He).
      exists r'. split; [done|]. simpl in *. lia.
    + destruct (IH (advance l i) r Hl') as (r' & Hr' & Hb & He).
      { by rewrite advance_lookup_ne. }
      by exists r'.
Qed.

Lemma merge_picks_state_sorted (n : nat) (l : list range) :
  Forall (sorted_seq comp mem) l →
  Forall (sorted_seq comp mem) (merge_picks comp mem n l).2.
Proof.
  revert l. induction n as [|n IH]; intros l Hl; [done|].
  cbn [merge_picks]. destruct (pick comp mem l) as [[i p]|] eqn:E; [|done].
  destruct (pick_is_min comp mem Hswo l i p E) as (r0 & Hr0 & Hne & -> & _).
  cbn [snd]. apply IH. by eapply sorted_seq_advance.
Qed.

(** The merge does not stop while elements remain. *)
Lemma merge_picks_length (n : nat) (l : list range) :
  Forall (sorted_seq comp mem) l → Z.of_nat n ≤ row_length l →
  length (merge_picks comp mem n l).1 = n.
Proof.
  revert l. induction n as [|n IH]; intros l Hl Hn; [done|].
  cbn [merge_picks]. destruct (pick comp mem l) as [[i p]|] eqn:E.
  - destruct (pick_is_min comp mem Hswo l i p E) as (r0 & Hr0 & Hne & -> & _).
    cbn [fst length]. f_equal. apply IH; [by eapply sorted_seq_advance|].
    rewrite row_length_advance by (by eapply lookup_lt_Some). lia.
  - apply pick_None in E. rewrite (row_length_all_empty l E) in Hn. lia.
Qed.

(** The starts move by the number of elements taken. *)
Lemma merge_picks_rank (n : nat) (l : list range) :
  split_rank l (fst <$> (merge_picks comp mem n l).2)
  = Z.of_nat (length (merge_picks comp mem n l).1).
Proof.
  revert l. induction n as [|n IH]; intros l.
  - cbn [merge_picks fst snd length]. by rewrite split_rank_fst.
  - cbn [merge_picks]. destruct (pick comp mem l) as [[i p]|] eqn:E.
    + destruct (pick_is_min comp mem Hswo l i p E) as (r0 & Hr0 & _).
      cbn [fst snd length]. specialize (IH (advance l i)).
      rewrite split_rank_advance_length in IH.
      * lia.
      * by rewrite length_fmap, merge_picks_state_length, advance_length.
      * by eapply lookup_lt_Some.
    + cbn [fst snd length]. by rewrite split_rank_fst.
Qed.

(** After any number of steps, no element that remains goes before an
    element already taken. *)
Lemma merge_picks_ordered (n : nat) (l : list range) (i j : nat)
    (ri ci cj : range) (p q : Z) :
  Forall (sorted_seq comp mem) l →
  l !! i = Some ri →
  (merge_picks comp mem n l).2 !! i = Some ci →
  (merge_picks comp mem n l).2 !! j = Some cj →
  ri.1 ≤ p < ci.1 → cj.1 ≤ q < cj.2 →
  lex_lt comp (mem q) j (mem p) i = false.
Proof.
  revert l ri. induction n as [|n IH]; intros l ri Hl Hri Hci Hcj Hp Hq.
  - cbn [merge_picks snd] in *. assert (ci = ri) as -> by congruence. lia.
  - cbn [merge_picks] in Hci, Hcj.
    destruct (pick comp mem l) as [[i0 p0]|] eqn:E.
    2:{ cbn [snd] in *. assert (ci = ri) as -> by congruence. lia. }
    destruct (pick_is_min comp mem Hswo l i0 p0 E) as (r0 & Hr0 & Hne & -> & Hmin).
    cbn [snd] in Hci, Hcj.
    assert (Forall (sorted_seq comp mem) (advance l i0)) as Hl'
      by (by eapply sorted_seq_advance).
    destruct (decide (i0 = i ∧ p = r0.1)) as [[-> ->]|Hnot].
    + (* [p] is the element taken first *)
      destruct (lookup_lt_is_Some_2 (advance l i) j) as [rj1 Hrj1].
      { rewrite <- (merge_picks_state_length n (advance l i)).
        by eapply lookup_lt_Some. }
      destruct (merge_picks_state n (advance l i) j rj1 Hl' Hrj1)
        as (cj' & Hcj' & Hb & He).
      assert (cj' = cj) as -> by congruence.
      assert (∃ rj, l !! j = Some rj ∧ rj.1 ≤ rj1.1 ∧ rj.2 = rj1.2)
        as (rj & Hrj & Hb1 & He1).
      { destruct (decide (i = j)) as [->|Hij].
        - rewrite (advance_lookup l j r0 Hr0) in Hrj1. injection Hrj1 as <-.
          exists r0. simpl. split_and!; [done | lia | done].
        - rewrite advance_lookup_ne in Hrj1 by done. by exists rj1. }
      pose proof (proj1 (Forall_lookup _ l) Hl j rj Hrj) as [_ Hs].
      apply (lex_lt_later comp Hswo _ _ (mem rj.1)).
      * apply (Hmin j rj Hrj). lia.
      * apply Hs; lia.
    + apply (IH (advance l i0)
               (if decide (i0 = i) then (ri.1 + 1, ri.2) else ri));
        try done.
      * destruct (decide (i0 = i)) as [->|Hii].
        -- by apply advance_lookup.
        -- by rewrite advance_lookup_ne.
      * destruct (decide (i0 = i)) as [->|Hii]; [|done].
        assert (r0 = ri) as -> by congruence. simpl.
        destruct (decide (p = ri.1)); [by destruct Hnot | lia].
Qed.

End merge_state.

Lemma row_length_sorted_nonneg {A : Type} (comp : A → A → bool) (mem : Z → A)
    (l : list range) :
  Forall (sorted_seq comp mem) l → 0 ≤ row_length l.
Proof.
  unfold row_length. induction 1 as [|r l [Hr _] _ IH]; [done|].
  rewrite fmap_cons. cbn [sumZ]. unfold range_size at 1. lia.
Qed.

Section exact_contract.
Context {A : Type}.
Variable comp : A → A → bool.
Variable mem : Z → A.
Variable seqs_ne : list range.
Variable size : Z.
Variable num_threads : nat.
Hypothesis Hswo : StrictWeakOrder comp.
Hypothesis Hsorted : Forall (sorted_seq comp mem) seqs_ne.
Hypothesis Hsize : 0 ≤ size.
Hypothesis Hnt : (0 < num_threads)%nat.

Local Abbreviation total := (row_length seqs_ne).
Local Abbreviation bound := (Z.min size (row_length seqs_ne)).
Local Abbreviation fill :=
  (multiway_merge_exact_splitting true seqs_ne size (row_length seqs_ne)
     comp mem (Z.of_nat num_threads)).
Local Abbreviation exact_rank := (exact_rank seqs_ne size num_threads).
Local Abbreviation exact_state :=
  (exact_state comp mem seqs_ne size num_threads).

Lemma bound_nonneg : 0 ≤ bound.
Proof. pose proof (row_length_sorted_nonneg comp mem seqs_ne Hsorted). lia. Qed.

Lemma exact_rank_0 : exact_rank 0 = 0.
Proof. unfold exact_rank. rewrite Z.mul_0_r. apply Zdiv_0_l. Qed.

Lemma exact_rank_last : exact_rank (Z.of_nat num_threads) = bound.
Proof. unfold exact_rank. apply Z.div_mul. lia. Qed.

Lemma exact_rank_mono (w w' : Z) : 0 ≤ w ≤ w' → 0 ≤ exact_rank w ≤ exact_rank w'.
Proof.
  intros Hw. pose proof bound_nonneg as Hb. unfold exact_rank. split.
  - apply Z.div_pos; [|lia]. apply Z.mul_nonneg_nonneg; lia.
  - apply Z.div_le_mono; [lia|]. apply Z.mul_le_mono_nonneg_l; lia.
Qed.

Lemma exact_rank_le_bound (w : Z) :
  0 ≤ w ≤ Z.of_nat num_threads → 0 ≤ exact_rank w ≤ bound.
Proof.
  intros Hw. pose proof (exact_rank_mono w (Z.of_nat num_threads) Hw) as H.
  by rewrite exact_rank_last in H.
Qed.

Lemma exact_fill (w s : nat) :
  fill w s = ((exact_state (Z.of_nat w) !!! s).1,
              (exact_state (Z.of_nat w + 1) !!! s).1).
Proof. reflexivity. Qed.

Lemma exact_state_0 : exact_state 0 = seqs_ne.
Proof. unfold exact_state. by rewrite exact_rank_0. Qed.

Lemma exact_state_sorted (w : Z) : Forall (sorted_seq comp mem) (exact_state w).
Proof. by apply merge_picks_state_sorted. Qed.

Lemma exact_state_lookup (w : Z) (s : nat) (q : range) :
  seqs_ne !! s = Some q →
  ∃ r, exact_state w !! s = Some r ∧ exact_state w !!! s = r
       ∧ q.1 ≤ r.1 ≤ q.2 ∧ r.2 = q.2.
Proof.
  intros Hq.
  destruct (merge_picks_state comp mem Hswo (Z.to_nat (exact_rank w))
              seqs_ne s q Hsorted Hq) as (r & Hr & Hb & He).
  exists r. split_and!; try done; try lia. by apply list_lookup_total_correct.
Qed.

(** From one worker boundary to the next the merge goes on. *)
Lemma exact_state_next (w : Z) :
  0 ≤ w →
  exact_state (w + 1)
  = (merge_picks comp mem (Z.to_nat (exact_rank (w + 1) - exact_rank w))
       (exact_state w)).2.
Proof.
  intros Hw. unfold exact_state.
  pose proof (exact_rank_mono w (w + 1) ltac:(lia)) as Hm.
  replace (Z.to_nat (exact_rank (w + 1)))
    with (Z.to_nat (exact_rank w)
          + Z.to_nat (exact_rank (w + 1) - exact_rank w))%nat by lia.
  by rewrite (merge_picks_add comp mem).
Qed.

Lemma exact_picks_length (n : Z) :
  0 ≤ n ≤ bound → length (merge_picks comp mem (Z.to_nat n) seqs_ne).1 = Z.to_nat n.
Proof. intros Hn. apply merge_picks_length; [done | done | lia]. Qed.

(** The row of worker [w] holds the elements between two ranks. *)
Lemma exact_row_length (w : nat) :
  (w < num_threads)%nat →
  row_length (table_row seqs_ne fill w)
  = exact_rank (Z.of_nat w + 1) - exact_rank (Z.of_nat w).
Proof.
  intros Hw.
  pose proof (exact_rank_mono (Z.of_nat w) (Z.of_nat w + 1) ltac:(lia)) as Hm.
  pose proof (exact_rank_le_bound (Z.of_nat w + 1) ltac:(lia)) as Hb.
  pose proof (exact_picks_length (exact_rank (Z.of_nat w)) ltac:(lia)) as H1.
  pose proof (exact_picks_length (exact_rank (Z.of_nat w + 1)) ltac:(lia)) as H2.
  pose proof (merge_picks_rank comp mem Hswo (Z.to_nat (exact_rank (Z.of_nat w)))
                seqs_ne) as R1.
  pose proof (merge_picks_rank comp mem Hswo
                (Z.to_nat (exact_rank (Z.of_nat w + 1))) seqs_ne) as R2.
  rewrite H1 in R1. rewrite H2 in R2.
  fold (exact_state (Z.of_nat w)) in R1.
  fold (exact_state (Z.of_nat w + 1)) in R2.
  transitivity (split_rank seqs_ne (fst <$> exact_state (Z.of_nat w + 1))
                - split_rank seqs_ne (fst <$> exact_state (Z.of_nat w))); [|lia].
  rewrite <- split_rank_after
    by (rewrite length_fmap; apply merge_picks_state_length).
  unfold row_length, split_rank, table_row, split_after. f_equal.
  apply list_eq. intros s.
  rewrite !list_lookup_fmap, !lookup_zip_with, !list_lookup_fmap.
  destruct (decide (s < length seqs_ne)%nat) as [Hs|Hs].
  - rewrite lookup_seq_lt by done.
    destruct (lookup_lt_is_Some_2 seqs_ne s Hs) as [q Hq]. rewrite Hq.
    destruct (exact_state_lookup (Z.of_nat w) s q Hq) as (r & Hr & Hr' & _).
    destruct (exact_state_lookup (Z.of_nat w + 1) s q Hq) as (r' & Hr1 & Hr1' & _).
    rewrite Hr, Hr1. simpl. rewrite exact_fill, Hr', Hr1'. done.
  - rewrite lookup_seq_ge by lia. rewrite (lookup_ge_None_2 seqs_ne) by lia. done.
Qed.

Lemma exact_table_count (n : nat) :
  (n ≤ num_threads)%nat →
  sumZ ((λ w, row_length (table_row seqs_ne fill w)) <$> seq 0 n)
  = exact_rank (Z.of_nat n).
Proof.
  induction n as [|n IH]; intros Hn.
  - change (Z.of_nat 0) with 0. by rewrite exact_rank_0.
  - rewrite seq_S, fmap_app, sumZ_app, IH by lia.
    rewrite Nat.add_0_l. cbn [fmap list_fmap sumZ].
    rewrite exact_row_length by lia.
    replace (Z.of_nat (S n)) with (Z.of_nat n + 1) by lia. lia.
Qed.

(** The exact planner, as modelled, meets the planner contract on sorted
    sequences. *)
Lemma exact_splitting_meets_contract :
  partition_table_ok true comp mem seqs_ne bound num_threads fill = true.
Proof.
  unfold partition_table_ok. repeat (apply andb_true_iff; split).
  - apply forallb_seq_intro. intros w Hw.
    apply forallb_seq_intro. intros s Hs.
    destruct (lookup_lt_is_Some_2 seqs_ne s Hs) as [q Hq].
    destruct (exact_state_lookup (Z.of_nat w) s q Hq) as (r & Hr & Hr' & Hb & He).
    destruct (exact_state_lookup (Z.of_nat w + 1) s q Hq)
      as (r1 & Hr1 & Hr1' & Hb1 & He1).
    apply andb_true_iff. split.
    + unfold chunk_contiguous. rewrite Hq. destruct w as [|w].
      * apply bool_decide_eq_true. rewrite exact_fill. cbn [fst].
        change (Z.of_nat 0) with 0. rewrite exact_state_0.
        by rewrite (list_lookup_total_correct _ _ _ Hq).
      * apply bool_decide_eq_true. rewrite !exact_fill. cbn [fst snd].
        by replace (Z.of_nat (S w)) with (Z.of_nat w + 1) by lia.
    + unfold chunk_within. rewrite Hq. apply bool_decide_eq_true.
      rewrite exact_fill. cbn [fst snd]. rewrite Hr', Hr1'.
      split; [|lia].
      rewrite exact_state_next in Hr1 by lia.
      destruct (merge_picks_state comp mem Hswo
                  (Z.to_nat (exact_rank (Z.of_nat w + 1) - exact_rank (Z.of_nat w)))
                  (exact_state (Z.of_nat w)) s r
                  (exact_state_sorted (Z.of_nat w)) Hr) as (r2 & Hr2 & Hb2 & _).
      assert (r2 = r1) as -> by congruence. lia.
  - apply bool_decide_eq_true. unfold table_count.
    fold (table_row seqs_ne fill).
    change (sumZ ((λ w, row_length (table_row seqs_ne fill w)) <$> seq 0 num_threads)
            = bound).
    rewrite exact_table_count by done. apply exact_rank_last.
  - apply forallb_seq_intro. intros w Hw.
    apply forallb_seq_intro. intros i Hi.
    apply forallb_seq_intro. intros j Hj.
    unfold split_ordered.
    destruct (lookup_lt_is_Some_2 seqs_ne i Hi) as [qi Hqi].
    destruct (lookup_lt_is_Some_2 seqs_ne j Hj) as [qj Hqj].
    rewrite Hqi, Hqj. apply orb_true_iff. right.
    destruct (exact_state_lookup (Z.of_nat w + 1) i qi Hqi)
      as (ci & Hci & Hci' & Hbi & Hei).
    destruct (exact_state_lookup (Z.of_nat w + 1) j qj Hqj)
      as (cj & Hcj & Hcj' & Hbj & Hej).
    apply forallb_seqZ_intro. intros p Hp.
    apply forallb_seqZ_intro. intros q Hq.
    apply negb_true_iff. rewrite exact_fill in Hp, Hq. cbn [snd] in Hp, Hq.
    rewrite Hci' in Hp. rewrite Hcj' in Hq.
    apply (merge_picks_ordered comp mem Hswo
             (Z.to_nat (exact_rank (Z.of_nat w + 1))) seqs_ne i j qi ci cj p q);
      try done; lia.
Qed.

End exact_contract.

Lemma Z_ltb_strict_weak_order : StrictWeakOrder Z.ltb.
Proof.
  split.
  - intros a. apply Z.ltb_irrefl.
  - intros a b c H1%Z.ltb_lt H2%Z.ltb_lt. apply Z.ltb_lt. lia.
  - intros a b c H1%Z.ltb_ge H2%Z.ltb_ge H3%Z.ltb_ge H4%Z.ltb_ge.
    split; apply Z.ltb_ge; lia.
Qed.

(** * Merges and planners in general *)

Lemma total_size_all (seqs : list range) :
  total_size_of seqs = sumZ (range_size <$> seqs).
Proof.
  unfold total_size_of. induction seqs as [|r seqs IH]; [done|].
  rewrite seqs_ne_of_cons, fmap_cons. cbn [sumZ]. rewrite <- IH.
  destruct (non_empty r) eqn:Hr.
  - by rewrite fmap_cons.
  - apply non_empty_false in Hr. unfold range_size. lia.
Qed.

(** ** Merges in general *)

Lemma row_addrs_cons (r : range) (l : list range) :
  row_addrs (r :: l) = seqZ r.1 (r.2 - r.1) ++ row_addrs l.
Proof. reflexivity. Qed.

Lemma row_addrs_app (l1 l2 : list range) :
  row_addrs (l1 ++ l2) = row_addrs l1 ++ row_addrs l2.
Proof. unfold row_addrs. apply bind_app. Qed.

Lemma elem_of_row_addrs (x : Z) (l : list range) :
  x ∈ row_addrs l ↔ ∃ (s : nat) (r : range), l !! s = Some r ∧ r.1 ≤ x < r.2.
Proof.
  unfold row_addrs. rewrite list_elem_of_bind. split.
  - intros (r & Hx & Hr). apply elem_of_seqZ in Hx.
    apply list_elem_of_lookup_1 in Hr as [s Hs]. exists s, r. split; [done | lia].
  - intros (s & r & Hs & Hx). exists r. split.
    + apply elem_of_seqZ. lia.
    + by eapply list_elem_of_lookup_2.
Qed.

Lemma length_row_addrs (l : list range) :
  Forall (λ r : range, r.1 ≤ r.2) l →
  Z.of_nat (length (row_addrs l)) = row_length l.
Proof.
  induction 1 as [|r l Hr _ IH]; [done|].
  rewrite row_addrs_cons, length_app, length_seqZ, row_length_cons. lia.
Qed.

Lemma row_addrs_reverse (l : list range) : row_addrs (reverse l) ≡ₚ row_addrs l.
Proof.
  induction l as [|r l IH]; [done|].
  rewrite reverse_cons, row_addrs_app, IH, row_addrs_cons.
  cbn [row_addrs mbind list_bind]. rewrite app_nil_r. apply Permutation_app_comm.
Qed.

Lemma row_addrs_split (l : list range) (c : list Z) :
  within l c →
  row_addrs l ≡ₚ row_addrs (split_before l c) ++ row_addrs (split_after l c).
Proof.
  unfold within, split_before, split_after.
  induction 1 as [|r e l c Hr _ IH]; [done|].
  cbn [zip_with]. rewrite !row_addrs_cons. cbn [fst snd]. rewrite IH.
  replace (r.2 - r.1) with ((e - r.1) + (r.2 - e)) by lia.
  rewrite seqZ_app by lia. replace (r.1 + (e - r.1)) with e by lia.
  rewrite <- !app_assoc. apply Permutation_app_head.
  rewrite !app_assoc. apply Permutation_app_tail. apply Permutation_app_comm.
Qed.

Lemma row_addrs_seqs_ne (seqs : list range) :
  row_addrs (seqs_ne_of seqs) = row_addrs seqs.
Proof.
  induction seqs as [|r seqs IH]; [done|].
  rewrite seqs_ne_of_cons, row_addrs_cons. destruct (non_empty r) eqn:Hr.
  - by rewrite row_addrs_cons, IH.
  - apply non_empty_false in Hr. rewrite IH.
    by replace (r.2 - r.1) with 0 by lia.
Qed.

Lemma weakly_sorted_app {A : Type} (comp : A → A → bool) (mem : Z → A)
    (l1 l2 : list Z) :
  weakly_sorted comp mem l1 → weakly_sorted comp mem l2 →
  (∀ x y, x ∈ l1 → y ∈ l2 → comp (mem y) (mem x) = false) →
  weakly_sorted comp mem (l1 ++ l2).
Proof.
  intros H1 H2 H12 i j p q Hij Hi Hj.
  apply lookup_app_Some in Hi as [Hi|[Hi1 Hi2]];
    apply lookup_app_Some in Hj as [Hj|[Hj1 Hj2]].
  - by apply (H1 i j).
  - apply H12; by eapply list_elem_of_lookup_2.
  - apply lookup_lt_Some in Hj. lia.
  - apply (H2 (i - length l1)%nat (j - length l1)%nat); [lia | done | done].
Qed.


(** ** Two selections of the least elements agree up to equivalence *)

Section selection.
Context {A : Type}.
Variable comp : A → A → bool.
Variable mem : Z → A.
Hypothesis Hswo : StrictWeakOrder comp.

Lemma length_filter_impl (P Q : Z → Prop) `{!∀ x, Decision (P x)}
    `{!∀ x, Decision (Q x)} (l : list Z) :
  (∀ x, x ∈ l → P x → Q x) →
  (length (filter P l) ≤ length (filter Q l))%nat.
Proof.
  induction l as [|x l IH]; intros Hall; [done|].
  rewrite !filter_cons.
  assert (length (filter P l) ≤ length (filter Q l))%nat as IH'.
  { apply IH. intros y Hy. apply Hall. by right. }
  destruct (decide (P x)) as [HP|HP].
  - rewrite decide_True by (apply Hall; [left | done]). simpl. lia.
  - destruct (decide (Q x)); simpl; lia.
Qed.

Lemma filter_nil_intro (P : Z → Prop) `{!∀ x, Decision (P x)} (l : list Z) :
  (∀ x, x ∈ l → ¬ P x) → filter P l = [].
Proof.
  induction l as [|x l IH]; intros Hall; [done|].
  rewrite filter_cons, decide_False by (apply Hall; left).
  apply IH. intros y Hy. apply Hall. by right.
Qed.

Lemma filter_all_intro (P : Z → Prop) `{!∀ x, Decision (P x)} (l : list Z) :
  (∀ x, x ∈ l → P x) → filter P l = l.
Proof.
  induction l as [|x l IH]; intros Hall; [done|].
  rewrite filter_cons, decide_True by (apply Hall; left).
  f_equal. apply IH. intros y Hy. apply Hall. by right.
Qed.

Local Abbreviation selects := (selects comp mem).

Lemma count_smaller (L R N : list Z) (k : nat) (x : Z) :
  selects L R N → L !! k = Some x →
  (length (filter (λ z, comp (mem z) (mem x) = true) N) ≤ k)%nat.
Proof.
  intros (Hperm & Hsorted & Hrest) Hk.
  rewrite <- Hperm, filter_app, length_app.
  rewrite (filter_nil_intro _ R).
  2:{ intros z Hz. rewrite (Hrest x z); [done | | done].
      by eapply list_elem_of_lookup_2. }
  rewrite <- (take_drop k L) at 1. rewrite filter_app, length_app.
  rewrite (filter_nil_intro _ (drop k L)).
  2:{ intros z Hz. apply list_elem_of_lookup_1 in Hz as [j Hj].
      rewrite lookup_drop in Hj.
      destruct j as [|j].
      - rewrite Nat.add_0_r in Hj. assert (z = x) as -> by congruence.
        by rewrite (swo_irrefl comp Hswo).
      - by rewrite (Hsorted k (k + S j)%nat x z ltac:(lia) Hk Hj). }
  pose proof (length_filter (λ z, comp (mem z) (mem x) = true) (take k L)) as H1.
  rewrite length_take in H1. simpl. lia.
Qed.

Lemma count_not_greater (L R N : list Z) (k : nat) (x : Z) :
  selects L R N → L !! k = Some x →
  (k < length (filter (λ z, comp (mem x) (mem z) = false) N))%nat.
Proof.
  intros (Hperm & Hsorted & Hrest) Hk.
  rewrite <- Hperm, filter_app, length_app.
  rewrite <- (take_drop (S k) L) at 1. rewrite filter_app, length_app.
  rewrite (filter_all_intro _ (take (S k) L)).
  2:{ intros z Hz. apply list_elem_of_lookup_1 in Hz as [j Hj].
      apply lookup_take_Some in Hj as [Hj Hlt].
      destruct (decide (j = k)) as [->|Hne].
      - assert (z = x) as -> by congruence. apply (swo_irrefl comp Hswo).
      - apply (Hsorted j k z x); [lia | done | done]. }
  apply lookup_lt_Some in Hk. rewrite length_take. lia.
Qed.

(** Two selections of the same number of elements from the same elements
    hold equivalent elements at every position. *)
Lemma selections_equivalent (L1 R1 L2 R2 N : list Z) :
  selects L1 R1 N → selects L2 R2 N → length L1 = length L2 →
  Forall2 (λ p q, equivalent comp (mem p) (mem q)) L1 L2.
Proof.
  intros H1 H2 Hlen. apply Forall2_same_length_lookup_2; [done|].
  assert (∀ La Ra Lb Rb k x y,
            selects La Ra N → selects Lb Rb N →
            La !! k = Some x → Lb !! k = Some y →
            comp (mem x) (mem y) = false) as Hhalf.
  { intros La Ra Lb Rb k x y Ha Hb Hx Hy.
    destruct (comp (mem x) (mem y)) eqn:Hxy; [|done]. exfalso.
    pose proof (count_not_greater La Ra N k x Ha Hx) as Hge.
    pose proof (count_smaller Lb Rb N k y Hb Hy) as Hle.
    pose proof (length_filter_impl
                  (λ z, comp (mem x) (mem z) = false)
                  (λ z, comp (mem z) (mem y) = true) N) as Himp.
    assert (length (filter (λ z, comp (mem x) (mem z) = false) N)
            ≤ length (filter (λ z, comp (mem z) (mem y) = true) N))%nat as H;
      [|lia].
    apply Himp. intros z _ Hxz.
    destruct (comp (mem z) (mem y)) eqn:Hzy; [done|].
    by rewrite (swo_negtrans comp Hswo _ _ _ Hxz Hzy) in Hxy. }
  intros k x y Hx Hy. split.
  - exact (Hhalf L1 R1 L2 R2 k x y H1 H2 Hx Hy).
  - exact (Hhalf L2 R2 L1 R1 k y x H2 H1 Hy Hx).
Qed.


End selection.

(** ** The modelled merge meets the contract *)

Lemma row_addrs_advance (l : list range) (i : nat) (r : range) :
  l !! i = Some r → r.1 < r.2 →
  row_addrs l ≡ₚ r.1 :: row_addrs (advance l i).
Proof.
  revert i. induction l as [|a l IH]; intros [|i] Hi Hr; try done.
  - injection Hi as ->. unfold advance. cbn [alter list_alter].
    rewrite !row_addrs_cons. cbn [fst snd].
    rewrite (seqZ_cons r.1) by lia.
    by replace (Z.pred (r.2 - r.1)) with (r.2 - (r.1 + 1)) by lia.
  - change (l !! i = Some r) in Hi. unfold advance. cbn [alter list_alter].
    rewrite !row_addrs_cons. fold (advance l i). rewrite (IH i Hi Hr).
    by rewrite Permutation_middle.
Qed.

Section stable_order_facts.
Context {A : Type}.
Variable comp : A → A → bool.
Variable mem : Z → A.
Hypothesis Hswo : StrictWeakOrder comp.

Lemma merge_picks_addrs (n : nat) (l : list range) :
  Forall (sorted_seq comp mem) l →
  (snd <$> (merge_picks comp mem n l).1) ++ row_addrs (merge_picks comp mem n l).2
  ≡ₚ row_addrs l.
Proof.
  revert l. induction n as [|n IH]; intros l Hl; [done|].
  cbn [merge_picks]. destruct (pick comp mem l) as [[i p]|] eqn:Hp; [|done].
  cbn [fst snd]. rewrite fmap_cons. cbn [snd app].
  destruct (pick_is_min comp mem Hswo l i p Hp) as (r & Hr & Hne & -> & _).
  assert (sorted_seq comp mem r) as [Hle _].
  { rewrite Forall_forall in Hl. apply Hl. by eapply list_elem_of_lookup_2. }
  rewrite (IH (advance l i)) by (by eapply sorted_seq_advance).
  symmetry. apply row_addrs_advance; [done | lia].
Qed.

Lemma merge_picks_sorted_addrs (n : nat) (l : list range) :
  Forall (sorted_seq comp mem) l →
  weakly_sorted comp mem (snd <$> (merge_picks comp mem n l).1).
Proof.
  intros Hl i j p q Hij Hi Hj. rewrite list_lookup_fmap in Hi, Hj.
  destruct ((merge_picks comp mem n l).1 !! i) as [[i1 p1]|] eqn:E1; [|done].
  destruct ((merge_picks comp mem n l).1 !! j) as [[i2 p2]|] eqn:E2; [|done].
  simpl in Hi, Hj. injection Hi as <-. injection Hj as <-.
  pose proof (merge_picks_sorted comp mem Hswo n l i j i1 i2 p1 p2 Hl Hij E1 E2)
    as H.
  unfold lex_lt in H. by apply orb_false_iff in H as [H _].
Qed.

(** When as many elements as there are have been taken, nothing is left. *)
Lemma merge_picks_all (l : list range) :
  Forall (sorted_seq comp mem) l →
  Forall (λ r : range, r.1 = r.2)
    (merge_picks comp mem (Z.to_nat (row_length l)) l).2.
Proof.
  intros Hl.
  pose proof (row_length_sorted_nonneg comp mem l Hl) as H0.
  pose proof (merge_picks_addrs (Z.to_nat (row_length l)) l Hl) as Hperm.
  apply Permutation_length in Hperm. rewrite length_app, length_fmap in Hperm.
  rewrite (merge_picks_length comp mem Hswo) in Hperm by (done || lia).
  assert (Z.of_nat (length (row_addrs l)) = row_length l) as Hlen.
  { apply length_row_addrs. eapply Forall_impl; [exact Hl|]. by intros r [? _]. }
  pose proof (merge_picks_state_sorted comp mem Hswo (Z.to_nat (row_length l)) l Hl)
    as Hs.
  apply Forall_forall. intros r Hr.
  rewrite Forall_forall in Hs. destruct (Hs r Hr) as [Hle _].
  destruct (decide (r.1 = r.2)) as [|Hne]; [done|]. exfalso.
  assert (r.1 ∈ row_addrs (merge_picks comp mem (Z.to_nat (row_length l)) l).2)
    as Hin.
  { apply list_elem_of_lookup_1 in Hr as [s Hs']. apply elem_of_row_addrs.
    exists s, r. split; [done | lia]. }
  destruct (row_addrs (merge_picks comp mem (Z.to_nat (row_length l)) l).2);
    [by apply elem_of_nil in Hin | simpl in Hperm; lia].
Qed.

Lemma merge_picks_empty (n : nat) (l : list range) :
  Forall (λ r : range, r.1 = r.2) l → (merge_picks comp mem n l).1 = [].
Proof.
  intros Hl. destruct n as [|n]; [done|]. cbn [merge_picks].
  by rewrite (proj2 (pick_None comp mem l) Hl).
Qed.

(** The merge limited to [limit] elements takes the first [limit] elements
    of the whole merge. *)
Lemma stable_order_take (row : list range) (limit : Z) :
  Forall (sorted_seq comp mem) row →
  stable_order comp mem row limit
  = take (Z.to_nat limit) (stable_order comp mem row (row_length row)).
Proof.
  intros Hl. unfold stable_order. rewrite <- fmap_take. f_equal.
  pose proof (row_length_sorted_nonneg comp mem row Hl) as H0.
  destruct (decide (limit ≤ row_length row)) as [Hle|Hgt].
  - replace (Z.to_nat (row_length row))
      with (Z.to_nat limit + (Z.to_nat (row_length row) - Z.to_nat limit))%nat
      by lia.
    rewrite (merge_picks_add comp mem). cbn [fst].
    pose proof (merge_picks_length comp mem Hswo (Z.to_nat limit) row Hl
                  ltac:(lia)) as Hlen.
    set (P := (merge_picks comp mem (Z.to_nat limit) row).1) in *.
    rewrite <- Hlen. by rewrite take_app_length.
  - replace (Z.to_nat limit)
      with (Z.to_nat (row_length row) + (Z.to_nat limit - Z.to_nat (row_length row)))%nat
      at 1 by lia.
    rewrite (merge_picks_add comp mem). cbn [fst].
    rewrite (merge_picks_empty _
               (merge_picks comp mem (Z.to_nat (row_length row)) row).2)
      by (by apply merge_picks_all).
    rewrite app_nil_r. rewrite take_ge; [done|].
    rewrite (merge_picks_length comp mem Hswo) by (done || lia). lia.
Qed.

Lemma stable_order_output (row : list range) (limit : Z) :
  Forall (sorted_seq comp mem) row →
  merge_output comp mem row limit (stable_order comp mem row limit).
Proof.
  intros Hl. exists (stable_order comp mem row (row_length row)). split_and!.
  - unfold stable_order.
    pose proof (merge_picks_addrs (Z.to_nat (row_length row)) row Hl) as Hperm.
    pose proof (merge_picks_all row Hl) as Hall.
    assert (row_addrs (merge_picks comp mem (Z.to_nat (row_length row)) row).2 = [])
      as Hnil.
    { destruct (row_addrs _) as [|x rest] eqn:E; [done|]. exfalso.
      assert (x ∈ row_addrs (merge_picks comp mem (Z.to_nat (row_length row)) row).2)
        as Hin by (rewrite E; left).
      apply elem_of_row_addrs in Hin as (s & r & Hs & Hx).
      rewrite Forall_forall in Hall.
      pose proof (Hall r ltac:(by eapply list_elem_of_lookup_2)). lia. }
    by rewrite Hnil, app_nil_r in Hperm.
  - by apply merge_picks_sorted_addrs.
  - by apply stable_order_take.
Qed.

End stable_order_facts.

Lemma sorted_seq_tie_order {A : Type} (comp : A → A → bool) (mem : Z → A)
    (Stable : bool) (row : list range) :
  Forall (sorted_seq comp mem) row →
  Forall (sorted_seq comp mem) (tie_order Stable row).
Proof. destruct Stable; [done|]. simpl. by rewrite Forall_reverse. Qed.

Lemma row_addrs_tie_order (Stable : bool) (row : list range) :
  row_addrs (tie_order Stable row) ≡ₚ row_addrs row.
Proof. destruct Stable; [done|]. apply row_addrs_reverse. Qed.

Lemma multiway_merge_order_conforms {A MultiwayMergeAlgorithm : Type} :
  order_conforms (@multiway_merge_order A MultiwayMergeAlgorithm).
Proof.
  intros Stable row size comp mwma mem Hswo Hl. unfold multiway_merge_order. split.
  - destruct (stable_order_output comp mem Hswo (tie_order Stable row) size)
      as (full & Hperm & Hsorted & Heq); [by apply sorted_seq_tie_order|].
    exists full. split_and!; [|done|done].
    by rewrite Hperm, row_addrs_tie_order.
  - by intros ->.
Qed.

Lemma multiway_merge_base_eq {A MultiwayMergeAlgorithm : Type}
    (Stable Sentinels : bool) (row : list range) (target size : Z)
    (comp : A → A → bool) (mwma : MultiwayMergeAlgorithm) (mem : Z → A)
    (buf : gmap Z A) :
  multiway_merge_base Stable Sentinels row target size comp mwma mem buf
  = merge_with multiway_merge_order Stable Sentinels row target size comp mwma
      mem buf.
Proof.
  unfold multiway_merge_base, merge_with, multiway_merge_order, stable_order, merged.
  by rewrite <- list_fmap_compose.
Qed.

(** ** The workers' output under the planner contract, for every merge *)

Lemma goes_before_comp {A : Type} (Stable : bool) (comp : A → A → bool)
    (b a : A) (j i : nat) :
  goes_before Stable comp b j a i = false → comp b a = false.
Proof.
  destruct Stable; simpl; [|done]. unfold lex_lt. intros H.
  by apply orb_false_iff in H as [H _].
Qed.

Section generic_chain.
Context {A MultiwayMergeAlgorithm : Type} {Stable : bool}.
Variable comp : A → A → bool.
Variable mem : Z → A.
Variable seqs_ne : list range.
Variable bound : Z.
Variable num_threads : nat.
Variable fill : nat → nat → range.
Variable order : bool → list range → Z → (A → A → bool) →
                 MultiwayMergeAlgorithm → (Z → A) → list Z.
Variable mwma : MultiwayMergeAlgorithm.
Hypothesis Hswo : StrictWeakOrder comp.
Hypothesis Hok :
  partition_table_ok Stable comp mem seqs_ne bound num_threads fill = true.
Hypothesis Hnt : (0 < num_threads)%nat.
Hypothesis Hsorted : Forall (sorted_seq comp mem) seqs_ne.
Hypothesis Hconf : order_conforms order.

Local Abbreviation rank := (rank_of seqs_ne fill).
Local Abbreviation row := (table_row seqs_ne fill).
Local Abbreviation cut := (cut seqs_ne fill).
Local Abbreviation out :=
  (λ w, order Stable (row w) (row_length (row w)) comp mwma mem).
Local Abbreviation all := (workers_order order Stable seqs_ne fill comp mwma mem).

Lemma row_lookup (w s : nat) :
  (s < length seqs_ne)%nat → row w !! s = Some (fill w s).
Proof. intros Hs. unfold table_row. by rewrite list_lookup_fmap, lookup_seq_lt. Qed.

Lemma chunk_bounds (w s : nat) (q : range) :
  (w < num_threads)%nat → seqs_ne !! s = Some q →
  q.1 ≤ (fill w s).1 ∧ (fill w s).1 ≤ (fill w s).2 ∧ (fill w s).2 ≤ q.2.
Proof.
  intros Hw Hq. pose proof (lookup_lt_Some _ _ _ Hq) as Hs.
  pose proof (contract_within comp mem seqs_ne bound num_threads fill Hok
                w s q Hw Hq) as H1.
  pose proof (cut_ge comp mem seqs_ne bound num_threads fill Hok w s q
                (fill w s).1 Hnt ltac:(lia) Hq
                (cut_lookup comp mem seqs_ne bound num_threads fill Hok w s Hw Hs))
    as H2.
  lia.
Qed.

Lemma chunk_next (w s : nat) :
  (S w < num_threads)%nat → (s < length seqs_ne)%nat →
  (fill (S w) s).1 = (fill w s).2.
Proof.
  intros Hw Hs.
  pose proof (cut_lookup comp mem seqs_ne bound num_threads fill Hok (S w) s Hw Hs)
    as H1.
  rewrite cut_S_lookup in H1 by done. by injection H1 as ->.
Qed.

(** The ends of the chunks of a sequence do not decrease from row to row. *)
Lemma chunk_end_le (w w' s : nat) (q : range) :
  (w ≤ w')%nat → (w' < num_threads)%nat → seqs_ne !! s = Some q →
  (fill w s).2 ≤ (fill w' s).2.
Proof.
  intros Hw Hw' Hq. pose proof (lookup_lt_Some _ _ _ Hq) as Hs.
  induction w' as [|w' IH]; [by replace w with 0%nat by lia|].
  destruct (decide (w = S w')) as [->|Hne]; [done|].
  specialize (IH ltac:(lia) ltac:(lia)).
  pose proof (chunk_bounds (S w') s q Hw' Hq) as Hb.
  rewrite chunk_next in Hb by (done || lia). lia.
Qed.

Lemma table_row_valid (w : nat) :
  (w < num_threads)%nat → Forall (λ r : range, r.1 ≤ r.2) (row w).
Proof.
  intros Hw. apply Forall_forall. intros r Hr.
  apply list_elem_of_lookup_1 in Hr as [s Hr].
  pose proof (lookup_lt_Some _ _ _ Hr) as Hs.
  unfold table_row in Hs. rewrite length_fmap, length_seq in Hs.
  rewrite row_lookup in Hr by done. injection Hr as <-.
  destruct (lookup_lt_is_Some_2 seqs_ne s Hs) as [q Hq].
  pose proof (chunk_bounds w s q Hw Hq). lia.
Qed.

Lemma table_row_sorted (w : nat) :
  (w < num_threads)%nat → Forall (sorted_seq comp mem) (row w).
Proof.
  intros Hw. apply Forall_forall. intros r Hr.
  apply list_elem_of_lookup_1 in Hr as [s Hr].
  pose proof (lookup_lt_Some _ _ _ Hr) as Hs.
  unfold table_row in Hs. rewrite length_fmap, length_seq in Hs.
  rewrite row_lookup in Hr by done. injection Hr as <-.
  destruct (lookup_lt_is_Some_2 seqs_ne s Hs) as [q Hq].
  pose proof (chunk_bounds w s q Hw Hq) as Hb.
  rewrite Forall_forall in Hsorted.
  destruct (Hsorted q ltac:(by eapply list_elem_of_lookup_2)) as [_ Hq'].
  split; [lia|]. intros p p' H1 H2 H3. apply Hq'; lia.
Qed.

Lemma elem_of_row (w : nat) (x : Z) :
  (w < num_threads)%nat → x ∈ row_addrs (row w) →
  ∃ s q, seqs_ne !! s = Some q ∧ (fill w s).1 ≤ x < (fill w s).2.
Proof.
  intros Hw Hx. apply elem_of_row_addrs in Hx as (s & r & Hr & Hx).
  pose proof (lookup_lt_Some _ _ _ Hr) as Hs.
  unfold table_row in Hs. rewrite length_fmap, length_seq in Hs.
  rewrite row_lookup in Hr by done. injection Hr as <-.
  destruct (lookup_lt_is_Some_2 seqs_ne s Hs) as [q Hq]. by exists s, q.
Qed.

(** The output of a worker: the elements of its row, ascending. *)
Lemma out_row (w : nat) :
  (w < num_threads)%nat →
  out w ≡ₚ row_addrs (row w) ∧ weakly_sorted comp mem (out w).
Proof.
  intros Hw.
  destruct (Hconf Stable (row w) (row_length (row w)) comp mwma mem Hswo
              (table_row_sorted w Hw)) as [(full & Hperm & Hs & Heq) _].
  rewrite Heq, take_ge; [done|].
  apply Permutation_length in Hperm.
  pose proof (length_row_addrs (row w) (table_row_valid w Hw)). lia.
Qed.

Lemma length_out (w : nat) :
  (w < num_threads)%nat → Z.of_nat (length (out w)) = rank (S w) - rank w.
Proof.
  intros Hw. destruct (out_row w Hw) as [Hperm _].
  apply Permutation_length in Hperm. rewrite Hperm.
  rewrite (length_row_addrs (row w) (table_row_valid w Hw)).
  apply (row_length_rank comp mem seqs_ne bound num_threads fill Hok Hnt w Hw).
Qed.

Lemma all_S (n : nat) : all (S n) = all n ++ out n.
Proof.
  unfold workers_order. rewrite seq_S, bind_app. cbn [Nat.add].
  by rewrite bind_singleton.
Qed.

(** Nothing from the end of row [w] on is smaller than something before
    it. *)
Lemma rows_cross (w s j : nat) (qs qj : range) (p q : Z) :
  (w < num_threads)%nat →
  seqs_ne !! s = Some qs → seqs_ne !! j = Some qj →
  qs.1 ≤ p < (fill w s).2 → (fill w j).2 ≤ q < qj.2 →
  comp (mem q) (mem p) = false.
Proof.
  intros Hw Hs Hj Hp Hq. destruct (decide (s = j)) as [->|Hne].
  - assert (qs = qj) as -> by congruence.
    rewrite Forall_forall in Hsorted.
    destruct (Hsorted qj ltac:(by eapply list_elem_of_lookup_2)) as [_ H].
    apply H; lia.
  - eapply goes_before_comp.
    apply (contract_ordered comp mem seqs_ne bound num_threads fill Hok
             w s j qs qj p q); done.
Qed.

Lemma all_sorted (n : nat) :
  (n ≤ num_threads)%nat →
  weakly_sorted comp mem (all n)
  ∧ ∀ x, x ∈ all n →
      ∃ v s q, n = S v ∧ seqs_ne !! s = Some q ∧ q.1 ≤ x < (fill v s).2.
Proof.
  induction n as [|n IH]; intros Hn.
  - split; [by intros i j p q _ Hi | by intros x Hx%elem_of_nil].
  - destruct (IH ltac:(lia)) as [IH1 IH2]. rewrite all_S.
    destruct (out_row n ltac:(lia)) as [Hperm Hs].
    assert (∀ y, y ∈ out n →
              ∃ j qj, seqs_ne !! j = Some qj
                      ∧ (fill n j).1 ≤ y < (fill n j).2
                      ∧ qj.1 ≤ (fill n j).1 ∧ (fill n j).2 ≤ qj.2) as Hy.
    { intros y Hy. rewrite Hperm in Hy.
      destruct (elem_of_row n y ltac:(lia) Hy) as (j & qj & Hj & Hb).
      pose proof (chunk_bounds n j qj ltac:(lia) Hj). exists j, qj.
      split; [done | lia]. }
    split.
    + apply weakly_sorted_app; [done | done |].
      intros x y Hx Hin. destruct (IH2 x Hx) as (v & s & q & -> & Hq & Hb).
      destruct (Hy y Hin) as (j & qj & Hj & Hb' & _ & Hb'').
      pose proof (lookup_lt_Some _ _ _ Hj) as Hlt.
      rewrite chunk_next in Hb' by (done || lia).
      apply (rows_cross v s j q qj x y); (done || lia).
    + intros x Hx. apply elem_of_app in Hx as [Hx|Hx].
      * destruct (IH2 x Hx) as (v & s & q & -> & Hq & Hb).
        exists (S v), s, q. split; [done|]. split; [done|].
        pose proof (chunk_end_le v (S v) s q ltac:(lia) ltac:(lia) Hq). lia.
      * destruct (Hy x Hx) as (j & qj & Hj & Hb & Hb' & _).
        exists n, j, qj. split; [done|]. split; [done | lia].
Qed.

Lemma all_perm (n : nat) :
  (n ≤ num_threads)%nat →
  all n ++ row_addrs (split_after seqs_ne (cut n)) ≡ₚ row_addrs seqs_ne.
Proof.
  induction n as [|n IH]; intros Hn.
  - simpl. by rewrite split_after_fst.
  - rewrite <- (IH ltac:(lia)). rewrite all_S, <- app_assoc.
    apply Permutation_app_head.
    destruct (out_row n ltac:(lia)) as [Hperm _].
    pose proof (row_addrs_split (split_after seqs_ne (cut n)) (cut (S n))
                  ltac:(apply (cut_within comp mem seqs_ne bound num_threads
                                 fill Hok); lia)) as Hsplit.
    rewrite <- (table_row_split comp mem seqs_ne bound num_threads fill Hok n)
      in Hsplit by lia.
    rewrite split_after_twice in Hsplit
      by apply cut_length.
    etrans; [|symmetry; exact Hsplit]. by apply Permutation_app_tail.
Qed.

(** The workers' output is a selection of [bound] elements. *)
Lemma all_selects :
  selects comp mem (all num_threads)
    (row_addrs (split_after seqs_ne (cut num_threads))) (row_addrs seqs_ne).
Proof.
  destruct (all_sorted num_threads ltac:(lia)) as [Hs Hin].
  split_and!; [by apply all_perm | done |].
  intros x z Hx Hz. destruct (Hin x Hx) as (v & s & q & Hv & Hq & Hb).
  apply elem_of_row_addrs in Hz as (j & r & Hr & Hz).
  unfold split_after in Hr. rewrite lookup_zip_with in Hr.
  destruct (seqs_ne !! j) as [qj|] eqn:Hqj; [|done]. simpl in Hr.
  destruct (cut num_threads !! j) as [e|] eqn:He; [|done].
  simpl in Hr. injection Hr as <-. cbn [fst snd] in Hz.
  rewrite Hv in He. rewrite cut_S_lookup in He by (by eapply lookup_lt_Some).
  injection He as <-.
  apply (rows_cross v s j q qj x z); (done || lia).
Qed.

Lemma length_all (n : nat) :
  (n ≤ num_threads)%nat → Z.of_nat (length (all n)) = rank n.
Proof.
  induction n as [|n IH]; intros Hn.
  - symmetry. apply (rank_of_0 seqs_ne fill).
  - rewrite all_S, length_app, Nat2Z.inj_add, IH, length_out by lia. lia.
Qed.

Lemma length_all_bound : Z.of_nat (length (all num_threads)) = bound.
Proof.
  rewrite length_all by done.
  apply (rank_of_last comp mem seqs_ne bound num_threads fill Hok Hnt).
Qed.

Lemma all_lookup (n w : nat) (k : Z) :
  (n ≤ num_threads)%nat → (w < n)%nat → rank w ≤ k < rank (S w) →
  all n !! Z.to_nat k = out w !! Z.to_nat (k - rank w).
Proof.
  intros Hn. revert w. induction n as [|n IH]; intros w Hw Hk; [lia|].
  pose proof (rank_of_nonneg comp mem seqs_ne bound num_threads fill Hok Hnt
                w ltac:(lia)) as H0.
  rewrite all_S. destruct (decide (w = n)) as [->|Hne].
  - rewrite lookup_app_r by (pose proof (length_all n ltac:(lia)); lia).
    f_equal. pose proof (length_all n ltac:(lia)). lia.
  - pose proof (rank_of_le comp mem seqs_ne bound num_threads fill Hok Hnt
                  (S w) n ltac:(lia) ltac:(lia)) as Hle.
    rewrite lookup_app_l by (pose proof (length_all n ltac:(lia)); lia).
    apply IH; (lia || done).
Qed.

Variable target size : Z.
Variable sched : list nat.
Hypothesis Hsize : bound ≤ size.
Hypothesis Hsched : sched ≡ₚ seq 0 num_threads.

Local Abbreviation call := (expected_call fill seqs_ne target size).
Local Abbreviation write := (order_write order Stable comp mwma mem).

Lemma write_eq (w : nat) :
  (w < num_threads)%nat →
  write (call w) = (target + rank w, mem <$> out w).
Proof.
  intros Hw.
  rewrite (expected_call_eq comp mem seqs_ne bound num_threads fill Hok Hnt
             target size Hsize w Hw).
  unfold order_write. cbn [wc_target wc_row wc_size].
  by rewrite (row_length_rank comp mem seqs_ne bound num_threads fill Hok Hnt w Hw).
Qed.

Lemma order_writes_disjoint : writes_disjoint (write <$> (call <$> sched)).
Proof.
  intros i j wi wj Hij Hi Hj. rewrite !list_lookup_fmap in Hi, Hj.
  destruct (sched !! i) as [w|] eqn:Hw; [|done].
  destruct (sched !! j) as [w'|] eqn:Hw'; [|done].
  simpl in Hi, Hj. injection Hi as <-. injection Hj as <-.
  assert (w ≠ w') as Hne.
  { intros ->. apply Hij. eapply NoDup_lookup; [|done..].
    rewrite Hsched. apply NoDup_seq. }
  assert (w < num_threads)%nat as Hlt.
  { apply list_elem_of_lookup_2 in Hw. rewrite Hsched in Hw.
    apply elem_of_seq in Hw. lia. }
  assert (w' < num_threads)%nat as Hlt'.
  { apply list_elem_of_lookup_2 in Hw'. rewrite Hsched in Hw'.
    apply elem_of_seq in Hw'. lia. }
  rewrite !write_eq by done. cbn [fst snd]. rewrite !length_fmap, !length_out by done.
  destruct (decide (w < w')%nat).
  - left.
    pose proof (rank_of_le comp mem seqs_ne bound num_threads fill Hok Hnt
                  (S w) w' ltac:(lia) ltac:(lia)). lia.
  - right.
    pose proof (rank_of_le comp mem seqs_ne bound num_threads fill Hok Hnt
                  (S w') w ltac:(lia) ltac:(lia)). lia.
Qed.

(** The target buffer after the workers, whatever the order in which they
    took effect. *)
Lemma target_after_order (buf : gmap Z A) (a : Z) :
  apply_writes buf (write <$> (call <$> sched)) !! a =
  if decide (target ≤ a < target + bound)
  then (mem <$> all num_threads) !! Z.to_nat (a - target)
  else buf !! a.
Proof.
  case_decide as Ha.
  - destruct (rank_of_owner comp mem seqs_ne bound num_threads fill Hok Hnt
                (a - target) ltac:(lia)) as (w & Hw & Hk).
    assert (w ∈ sched) as Hin. { rewrite Hsched. apply elem_of_seq. lia. }
    apply list_elem_of_lookup_1 in Hin as [i Hi].
    rewrite (apply_writes_lookup_in buf _ i (write (call w)));
      [| apply order_writes_disjoint
       | by rewrite !list_lookup_fmap, Hi
       | rewrite write_eq by done; cbn [fst snd];
         rewrite length_fmap, length_out by done; lia].
    rewrite write_eq by done. cbn [fst snd]. rewrite !list_lookup_fmap.
    rewrite (all_lookup num_threads w (a - target)) by (done || lia).
    do 2 f_equal. lia.
  - apply apply_writes_lookup_out. intros i w Hi.
    rewrite !list_lookup_fmap in Hi.
    destruct (sched !! i) as [v|] eqn:Hv; [|done]. simpl in Hi. injection Hi as <-.
    assert (v < num_threads)%nat as Hlt.
    { apply list_elem_of_lookup_2 in Hv. rewrite Hsched in Hv.
      apply elem_of_seq in Hv. lia. }
    rewrite write_eq by done. cbn [fst snd]. rewrite length_fmap, length_out by done.
    pose proof (rank_of_nonneg comp mem seqs_ne bound num_threads fill Hok Hnt
                  v ltac:(lia)) as H0.
    pose proof (rank_of_le comp mem seqs_ne bound num_threads fill Hok Hnt
                  (S v) num_threads ltac:(lia) ltac:(lia)) as Hle.
    rewrite (rank_of_last comp mem seqs_ne bound num_threads fill Hok Hnt) in Hle.
    lia.
Qed.

End generic_chain.

Lemma run_calls_order {A MultiwayMergeAlgorithm : Type}
    (order : bool → list range → Z → (A → A → bool) →
             MultiwayMergeAlgorithm → (Z → A) → list Z)
    (Stable : bool) (comp : A → A → bool) (mwma : MultiwayMergeAlgorithm)
    (mem : Z → A) (calls : list worker_call) (buf : gmap Z A) :
  foldl (run_call (merge_with order) Stable comp mwma mem) buf calls =
  apply_writes buf (order_write order Stable comp mwma mem <$> calls).
Proof.
  revert buf. induction calls as [|call calls IH]; intros buf; [done|].
  cbn [foldl fmap list_fmap]. rewrite IH. done.
Qed.

(** ** The call, for every merge and planner that meet their contracts *)

Lemma row_addrs_advanced (ends : nat → Z) (seqs : list range) (count : nat) :
  row_addrs (advanced ends seqs count) =
  row_addrs (split_after (seqs_ne_of seqs)
               (ends <$> seq count (length (seqs_ne_of seqs)))).
Proof.
  revert count. induction seqs as [|r seqs IH]; intros count; [done|].
  rewrite seqs_ne_of_cons. cbn [advanced]. destruct (non_empty r) eqn:Hr.
  - cbn [length seq]. rewrite fmap_cons. unfold split_after. cbn [zip_with].
    rewrite !row_addrs_cons. f_equal. apply IH.
  - apply non_empty_false in Hr. rewrite row_addrs_cons, IH.
    by replace (r.2 - r.1) with 0 by lia.
Qed.

Lemma sorted_seqs {A : Type} (comp : A → A → bool) (mem : Z → A)
    (seqs : list range) :
  StrictWeakOrder comp →
  forallb (sorted_range comp mem) seqs = true →
  Forall (sorted_seq comp mem) seqs.
Proof.
  intros Hswo Hsorted. apply Forall_forall. intros q Hq.
  apply (sorted_range_spec _ _ Hswo).
  rewrite forallb_forall in Hsorted. apply Hsorted. by apply list_elem_of_In.
Qed.

Lemma sorted_seqs_ne {A : Type} (comp : A → A → bool) (mem : Z → A)
    (seqs : list range) :
  Forall (sorted_seq comp mem) seqs →
  Forall (sorted_seq comp mem) (seqs_ne_of seqs).
Proof.
  rewrite !Forall_forall. intros H q Hq.
  apply list_elem_of_filter in Hq as [_ Hq]. by apply H.
Qed.



Section with_order.
Context {A MultiwayMergeAlgorithm : Type}.
Variable order : bool → list range → Z → (A → A → bool) →
                 MultiwayMergeAlgorithm → (Z → A) → list Z.
Variables sampling exact :
  bool → list range → Z → Z → (A → A → bool) → (Z → A) → Z → nat → nat → range.
Variable schedule : nat → list nat.
Variable Stable : bool.
Variable seqs : list range.
Variable target size : Z.
Variable comp : A → A → bool.
Variable mwma : MultiwayMergeAlgorithm.
Variable mwmsa : MultiwayMergeSplittingAlgorithm.
Variable num_threads : Z.
Variable mem : Z → A.
Variable buf : gmap Z A.

Local Abbreviation call_threads := (call_threads seqs num_threads).
Local Abbreviation call_table :=
  (call_table sampling exact Stable seqs size comp mwmsa num_threads mem).
Local Abbreviation call_bound := (call_bound seqs size).
Local Abbreviation output :=
  (workers_order order Stable (seqs_ne_of seqs) call_table comp mwma mem
     (Z.to_nat call_threads)).

Hypothesis Hconf : order_conforms order.
Hypothesis Hswo : StrictWeakOrder comp.
Hypothesis Hsorted : Forall (sorted_seq comp mem) seqs.
Hypothesis Htotal : 0 < total_size_of seqs.
Hypothesis Hnt_size_t : is_size_t num_threads.
Hypothesis Hnt : 1 ≤ num_threads.
Hypothesis Hok :
  planner_meets_contract sampling exact Stable seqs size comp mwmsa
    num_threads mem.

(** The elements the workers write are a selection of [call_bound]
    elements of the input, ascending. *)
Lemma output_length : length output = Z.to_nat call_bound.
Proof.
  pose proof (length_all_bound comp mem (seqs_ne_of seqs) call_bound
                (Z.to_nat call_threads) call_table order mwma Hswo Hok
                (call_threads_pos seqs num_threads Htotal Hnt_size_t Hnt)
                (sorted_seqs_ne comp mem seqs Hsorted) Hconf) as H.
  lia.
Qed.

Lemma output_remaining :
  output ++
  row_addrs (advanced (λ s, (call_table (Z.to_nat (call_threads - 1)) s).2) seqs 0)
  ≡ₚ row_addrs seqs.
Proof.
  pose proof (call_threads_pos seqs num_threads Htotal Hnt_size_t Hnt) as Hpos.
  pose proof (all_perm comp mem (seqs_ne_of seqs) call_bound
                (Z.to_nat call_threads) call_table order mwma Hswo Hok Hpos
                (sorted_seqs_ne comp mem seqs Hsorted) Hconf
                (Z.to_nat call_threads) ltac:(lia)) as H.
  rewrite row_addrs_seqs_ne in H. rewrite row_addrs_advanced.
  replace (Z.to_nat call_threads) with (S (Z.to_nat (call_threads - 1)))
    in H at 2 by lia.
  exact H.
Qed.

Lemma output_selects :
  selects comp mem output
    (row_addrs (advanced (λ s, (call_table (Z.to_nat (call_threads - 1)) s).2)
                  seqs 0))
    (row_addrs seqs).
Proof.
  pose proof (call_threads_pos seqs num_threads Htotal Hnt_size_t Hnt) as Hpos.
  pose proof (all_selects comp mem (seqs_ne_of seqs) call_bound
                (Z.to_nat call_threads) call_table order mwma Hswo Hok Hpos
                (sorted_seqs_ne comp mem seqs Hsorted) Hconf) as H.
  rewrite row_addrs_seqs_ne in H. rewrite row_addrs_advanced.
  replace (Z.to_nat call_threads) with (S (Z.to_nat (call_threads - 1)))
    in H at 2 by lia.
  exact H.
Qed.


Hypothesis Hsched :
  schedule (Z.to_nat call_threads) ≡ₚ seq 0 (Z.to_nat call_threads).

(** The result of the call, whatever the order in which the workers take
    effect. *)
Lemma run_with_order :
  ∃ r,
    parallel_multiway_merge_base_sched (merge_with order) sampling exact
      schedule Stable seqs target size comp mwma mwmsa num_threads mem buf
    = Some r
    ∧ (∀ a, res_target r !! a =
         if decide (target ≤ a < target + call_bound)
         then (mem <$> output) !! Z.to_nat (a - target)
         else buf !! a)
    ∧ res_seqs r =
        advanced (λ s, (call_table (Z.to_nat (call_threads - 1)) s).2) seqs 0
    ∧ res_return r = target + size
    ∧ res_calls r =
        expected_call call_table (seqs_ne_of seqs) target size
          <$> schedule (Z.to_nat call_threads).
Proof.
  pose proof (parallel_multiway_merge_base_sched_eq (merge_with order)
    sampling exact schedule Stable seqs target size comp mwma mwmsa
    num_threads mem buf Htotal Hnt_size_t Hnt) as Hrun.
  cbn zeta in Hrun. fold call_threads in Hrun. fold call_table in Hrun.
  rewrite Hrun.
  2:{ apply Forall_forall. intros w Hw. rewrite Hsched in Hw.
      apply elem_of_seq in Hw. lia. }
  eexists. split; [done|]. cbn [res_target res_seqs res_return res_calls].
  split_and!; try done.
  intros a. rewrite run_calls_order.
  apply (target_after_order comp mem (seqs_ne_of seqs) call_bound
           (Z.to_nat call_threads) call_table order mwma Hswo Hok
           (call_threads_pos seqs num_threads Htotal Hnt_size_t Hnt)
           (sorted_seqs_ne comp mem seqs Hsorted) Hconf
           target size _ ltac:(unfold call_bound; lia) Hsched).
Qed.

End with_order.

(** ** The stable variant: the workers write the stable merge *)

Lemma foldl_ext_in {B C : Type} (f g : B → C → B) (l : list C) (b : B) :
  (∀ b c, c ∈ l → f b c = g b c) → foldl f b l = foldl g b l.
Proof.
  revert b. induction l as [|c l IH]; intros b H; [done|].
  cbn [foldl]. rewrite (H b c) by left. apply IH. intros b' c' Hc'.
  apply H. by right.
Qed.

Lemma output_stable {A MultiwayMergeAlgorithm : Type}
    (order : bool → list range → Z → (A → A → bool) →
             MultiwayMergeAlgorithm → (Z → A) → list Z)
    (sampling exact : bool → list range → Z → Z → (A → A → bool) → (Z → A) →
                      Z → nat → nat → range)
    (seqs : list range) (size : Z) (comp : A → A → bool)
    (mwma : MultiwayMergeAlgorithm) (mwmsa : MultiwayMergeSplittingAlgorithm)
    (num_threads : Z) (mem : Z → A) :
  order_conforms order → StrictWeakOrder comp →
  Forall (sorted_seq comp mem) seqs →
  0 < total_size_of seqs → is_size_t num_threads → 1 ≤ num_threads →
  planner_meets_contract sampling exact true seqs size comp mwmsa num_threads
    mem →
  mem <$> workers_order order true (seqs_ne_of seqs)
            (call_table sampling exact true seqs size comp mwmsa num_threads mem)
            comp mwma mem (Z.to_nat (call_threads seqs num_threads))
  = merged comp mem (call_bound seqs size) seqs.
Proof.
  intros Hconf Hswo Hsorted Ht Hs Hn Hok.
  pose proof (call_threads_pos seqs num_threads Ht Hs Hn) as Hpos.
  set (nt := Z.to_nat (call_threads seqs num_threads)) in *.
  set (fill := call_table sampling exact true seqs size comp mwmsa num_threads mem)
    in *.
  destruct (run_with_order order sampling exact (seq 0) true seqs 0 size comp
              mwma mwmsa num_threads mem ∅ Hconf Hswo Hsorted Ht Hs Hn Hok
              ltac:(done)) as (r1 & Hr1 & Hb1 & _).
  destruct (run_with_contract sampling exact (seq 0) seqs 0 size comp mwma
              mwmsa num_threads mem ∅ Hswo Ht Hs Hn Hok ltac:(done))
    as (r2 & Hr2 & Hb2 & _).
  assert (res_target r1 = res_target r2) as Heq.
  { rewrite parallel_multiway_merge_base_sched_eq in Hr1, Hr2
      by (done || apply seq_schedule_ok).
    injection Hr1 as <-. injection Hr2 as <-. cbn [res_target].
    apply foldl_ext_in. intros b c Hc.
    apply list_elem_of_fmap in Hc as (w & -> & Hw). apply elem_of_seq in Hw.
    unfold run_call. rewrite multiway_merge_base_eq. unfold merge_with.
    do 2 f_equal.
    assert (Forall (sorted_seq comp mem)
              (wc_row (expected_call fill (seqs_ne_of seqs) 0 size w))) as Hrow.
    { apply (table_row_sorted comp mem (seqs_ne_of seqs) (call_bound seqs size)
               nt fill Hok Hpos (sorted_seqs_ne comp mem seqs Hsorted) w).
      unfold nt, call_threads. lia. }
    rewrite (proj2 (Hconf true _ _ comp mwma mem Hswo Hrow) eq_refl).
    by rewrite (proj2 (multiway_merge_order_conforms true _ _ comp mwma mem
                         Hswo Hrow) eq_refl). }
  pose proof (output_length order sampling exact true seqs size comp mwma mwmsa
                num_threads mem Hconf Hswo Hsorted Ht Hs Hn Hok) as Hl1.
  pose proof (merged_seqs_length sampling exact seqs size comp mwmsa num_threads
                mem Hswo Ht Hs Hn Hok) as Hl2.
  fold nt fill in Hl1.
  apply list_eq. intros k.
  destruct (decide (Z.of_nat k < call_bound seqs size)) as [Hk|Hk].
  - specialize (Hb1 (Z.of_nat k)). specialize (Hb2 (Z.of_nat k)).
    rewrite decide_True in Hb1, Hb2 by lia.
    replace (Z.to_nat (Z.of_nat k - 0)) with k in Hb1, Hb2 by lia.
    fold nt fill in Hb1. by rewrite <- Hb1, <- Hb2, Heq.
  - rewrite !lookup_ge_None_2; [done | lia | rewrite length_fmap; lia].
Qed.

(** ** Elements counted by the index they carry *)

Lemma elements_from_fmap {B : Type} (mem : Z → B * nat) (i : nat) (l : list Z) :
  elements_from i (Some <$> (mem <$> l))
  = Z.of_nat (length (filter (λ x, (mem x).2 = i) l)).
Proof.
  unfold elements_from. f_equal. induction l as [|x l IH]; [done|].
  rewrite !fmap_cons, !filter_cons. cbn [fmap option_fmap option_map].
  destruct (decide ((mem x).2 = i)) as [Hx|Hx].
  - rewrite decide_True by (by rewrite Hx). cbn [length]. by rewrite IH.
  - rewrite decide_False by (intros [= H]; done). exact IH.
Qed.

Lemma count_tagged {B : Type} (mem : Z → B * nat) (i : nat) (l : list range) :
  (∀ j r x, l !! j = Some r → r.1 ≤ x < r.2 → (mem x).2 = j) →
  Z.of_nat (length (filter (λ x, (mem x).2 = i) (row_addrs l)))
  = from_option (λ r : range, Z.max 0 (r.2 - r.1)) 0 (l !! i).
Proof.
  induction l as [|r l IH] using rev_ind; intros Htag; [done|].
  rewrite row_addrs_app, filter_app, length_app, Nat2Z.inj_add.
  rewrite IH by (intros j r' x Hj; apply Htag; by apply lookup_app_l_Some).
  replace (row_addrs [r]) with (seqZ r.1 (r.2 - r.1))
    by (unfold row_addrs; cbn [mbind list_bind]; by rewrite app_nil_r).
  assert (∀ x, x ∈ seqZ r.1 (r.2 - r.1) → (mem x).2 = length l) as Hlast.
  { intros x Hx%elem_of_seqZ. apply (Htag (length l) r x); [|lia].
    by apply list_lookup_middle. }
  destruct (decide (i = length l)) as [->|Hne].
  - rewrite (lookup_ge_None_2 l) by done. rewrite list_lookup_middle by done.
    rewrite filter_all_intro by done. rewrite length_seqZ. simpl. lia.
  - rewrite filter_nil_intro by (intros x Hx; rewrite (Hlast x Hx); lia).
    destruct (decide (i < length l)%nat).
    + rewrite lookup_app_l by done. simpl. lia.
    + rewrite !lookup_ge_None_2; [done | rewrite length_app; simpl; lia | lia].
Qed.

(** ** A merge that writes at most [size] elements *)

Lemma merge_picks_length_le {A : Type} (comp : A → A → bool) (mem : Z → A)
    (n : nat) (l : list range) :
  (length (merge_picks comp mem n l).1 ≤ n)%nat.
Proof.
  revert l. induction n as [|n IH]; intros l; [done|].
  cbn [merge_picks]. destruct (pick comp mem l) as [[i p]|]; [|simpl; lia].
  cbn [fst length]. specialize (IH (advance l i)). lia.
Qed.

Lemma multiway_merge_base_within_limit {A MultiwayMergeAlgorithm : Type} :
  writes_within_limit (@multiway_merge_base A MultiwayMergeAlgorithm).
Proof.
  intros Stable Sentinels row target size comp mwma mem buf a Ha.
  unfold multiway_merge_base. rewrite write_range_lookup.
  rewrite decide_False; [done|]. unfold merged. rewrite length_fmap.
  pose proof (merge_picks_length_le comp mem (Z.to_nat size)
                (tie_order Stable row)). lia.
Qed.

Lemma run_calls_within {A MultiwayMergeAlgorithm : Type}
    (merge : bool → bool → list range → Z → Z → (A → A → bool) →
             MultiwayMergeAlgorithm → (Z → A) → gmap Z A → gmap Z A)
    (Stable : bool) (comp : A → A → bool) (mwma : MultiwayMergeAlgorithm)
    (mem : Z → A) (calls : list worker_call) (buf : gmap Z A) (a : Z) :
  writes_within_limit merge →
  Forall (λ c, ¬ (wc_target c ≤ a < wc_target c + wc_size c)) calls →
  foldl (run_call merge Stable comp mwma mem) buf calls !! a = buf !! a.
Proof.
  intros Hm. revert buf. induction calls as [|c calls IH]; intros buf Hc; [done|].
  apply Forall_cons in Hc as [Hc Hcs]. cbn [foldl]. rewrite IH by done.
  unfold run_call. by apply Hm.
Qed.

(** The distance by which the start of a sequence moves is the number of
    elements of the sequence among those the workers write. *)
Lemma output_elements_from {B MultiwayMergeAlgorithm : Type}
    (order : bool → list range → Z → (B * nat → B * nat → bool) →
             MultiwayMergeAlgorithm → (Z → B * nat) → list Z)
    (sampling exact : bool → list range → Z → Z → (B * nat → B * nat → bool) →
                      (Z → B * nat) → Z → nat → nat → range)
    (Stable : bool) (seqs : list range) (size : Z)
    (comp : B * nat → B * nat → bool) (mwma : MultiwayMergeAlgorithm)
    (mwmsa : MultiwayMergeSplittingAlgorithm) (num_threads : Z)
    (mem : Z → B * nat) (i : nat) (first second : Z) :
  order_conforms order → StrictWeakOrder comp →
  Forall (sorted_seq comp mem) seqs →
  tagged_by_sequence mem seqs = true →
  0 < total_size_of seqs → is_size_t num_threads → 1 ≤ num_threads →
  planner_meets_contract sampling exact Stable seqs size comp mwmsa num_threads
    mem →
  seqs !! i = Some (first, second) → first ≠ second →
  Z.of_nat (length (filter (λ x, (mem x).2 = i)
    (workers_order order Stable (seqs_ne_of seqs)
       (call_table sampling exact Stable seqs size comp mwmsa num_threads mem)
       comp mwma mem (Z.to_nat (call_threads seqs num_threads)))))
  = (call_table sampling exact Stable seqs size comp mwmsa num_threads mem
       (Z.to_nat (call_threads seqs num_threads - 1)) (rank_ne seqs i)).2 - first.
Proof.
  intros Hconf Hswo Hsorted Htag Ht Hs Hn Hok Hi Hne.
  pose proof (call_threads_pos seqs num_threads Ht Hs Hn) as Hpos.
  pose proof (output_remaining order sampling exact Stable seqs size comp mwma
                mwmsa num_threads mem Hconf Hswo Hsorted Ht Hs Hn Hok) as Hperm.
  set (fill := call_table sampling exact Stable seqs size comp mwmsa
                 num_threads mem) in *.
  set (last := Z.to_nat (call_threads seqs num_threads - 1)) in *.
  assert (∀ j q, seqs !! j = Some q → non_empty q = true →
            q.1 ≤ (fill last (rank_ne seqs j)).2 ≤ q.2) as Hend.
  { intros j q Hj Hq.
    pose proof (chunk_bounds comp mem (seqs_ne_of seqs) (call_bound seqs size)
                  (Z.to_nat (call_threads seqs num_threads)) fill Hok Hpos
                  last (rank_ne seqs j) q ltac:(unfold last; lia)
                  (seqs_ne_of_rank seqs j q Hj Hq)). lia. }
  assert (Z.of_nat (length (filter (λ x, (mem x).2 = i)
            (workers_order order Stable (seqs_ne_of seqs) fill comp mwma mem
               (Z.to_nat (call_threads seqs num_threads)) ++
             row_addrs (advanced (λ s, (fill last s).2) seqs 0))))
          = Z.of_nat (length (filter (λ x, (mem x).2 = i) (row_addrs seqs))))
    as Hcount by (by rewrite Hperm).
  rewrite filter_app, length_app, Nat2Z.inj_add in Hcount.
  rewrite (count_tagged mem i seqs) in Hcount
    by (intros j r x Hj Hx; by apply (tagged_by_sequence_spec mem seqs j r x)).
  rewrite (count_tagged mem i (advanced (λ s, (fill last s).2) seqs 0)) in Hcount.
  2:{ intros j r x Hj Hx. rewrite advanced_lookup in Hj.
      destruct (seqs !! j) as [q|] eqn:Hq; [|done]. simpl in Hj.
      injection Hj as <-.
      apply (tagged_by_sequence_spec mem seqs j q x Htag Hq).
      destruct (non_empty q) eqn:Hqne; [|done].
      pose proof (Hend j q Hq Hqne). cbn [fst snd] in Hx. lia. }
  rewrite advanced_lookup, Hi in Hcount. cbn [fmap option_fmap option_map] in Hcount.
  pose proof (proj2 (non_empty_true (first, second)) Hne) as Hq.
  rewrite Hq in Hcount. cbn [from_option fst snd Nat.add] in Hcount.
  pose proof (Hend i (first, second) Hi Hq) as Hb. cbn [fst snd] in Hb.
  rewrite Forall_forall in Hsorted.
  destruct (Hsorted (first, second) ltac:(by eapply list_elem_of_lookup_2))
    as [Hle _].
  cbn [fst snd] in Hle. lia.
Qed.

(** ** The counts of workers *)

Lemma clamp_num_threads_large (num_threads total_size : Z) :
  is_size_t num_threads → DiffType_max < num_threads → 0 < total_size →
  clamp_num_threads num_threads total_size = num_threads.
Proof.
  unfold is_size_t, clamp_num_threads, to_DiffType, to_size_t, size_t_modulus,
    DiffType_max.
  intros Hn Hl Ht. rewrite (Z.mod_small num_threads) by lia.
  repeat case_bool_decide; lia.
Qed.

(** * The claims *)

(** C2. When the sequence set is empty or every sequence in it is empty,
    the call returns the target iterator unchanged, leaves the target buffer
    and every sequence as they were, and dispatches no worker; this holds
    for every sequential merge, every planner and every schedule. *)
Theorem empty_input_is_noop {A MultiwayMergeAlgorithm : Type}
    (merge : bool → bool → list range → Z → Z → (A → A → bool) →
             MultiwayMergeAlgorithm → (Z → A) → gmap Z A → gmap Z A)
    (sampling exact : bool → list range → Z → Z → (A → A → bool) → (Z → A) →
                      Z → nat → nat → range)
    (schedule : nat → list nat) (Stable : bool) (seqs : list range)
    (target size : Z) (comp : A → A → bool) (mwma : MultiwayMergeAlgorithm)
    (mwmsa : MultiwayMergeSplittingAlgorithm) (num_threads : Z)
    (mem : Z → A) (buf : gmap Z A) :
  Forall (λ r : range, r.1 = r.2) seqs →
  total_size_of seqs = 0 ∧
  parallel_multiway_merge_base_sched merge sampling exact schedule Stable
    seqs target size comp mwma mwmsa num_threads mem buf
  = Some (Result seqs buf target []) ∧
  parallel_multiway_merge_base merge sampling exact Stable
    seqs target size comp mwma mwmsa num_threads mem buf
  = Some (Result seqs buf target []).
Proof.
  intros Hempty. apply all_empty_seqs_ne in Hempty as Hne.
  assert (total_size_of seqs = 0) as Ht by (unfold total_size_of; by rewrite Hne).
  split; [done|].
  unfold parallel_multiway_merge_base, parallel_multiway_merge_base_sched.
  rewrite non_empty_sequences_eq. cbn [fst snd]. rewrite Ht.
  by rewrite bool_decide_eq_true_2 by done.
Qed.

Lemma empty_input_is_noop_witness :
  example_call (seq 0) false [(3, 3); (6, 6)] 5 2
  = Some (Result [(3, 3); (6, 6)] ∅ 100 []).
Proof.
  apply (empty_input_is_noop (MultiwayMergeAlgorithm := unit)
           multiway_merge_base multiway_merge_exact_splitting
           multiway_merge_exact_splitting (seq 0) false [(3, 3); (6, 6)]
           100 5 Z.ltb tt MWMSA_EXACT 2 example_mem ∅).
  repeat constructor.
Defined.

(** C3. A call with a non-empty input (and, as every call must, at least
    one thread requested) returns [target + size], whether or not
    [total_size] is less than [size]. *)
Theorem returns_target_plus_size {A MultiwayMergeAlgorithm : Type}
    (merge : bool → bool → list range → Z → Z → (A → A → bool) →
             MultiwayMergeAlgorithm → (Z → A) → gmap Z A → gmap Z A)
    (sampling exact : bool → list range → Z → Z → (A → A → bool) → (Z → A) →
                      Z → nat → nat → range)
    (Stable : bool) (seqs : list range)
    (target size : Z) (comp : A → A → bool) (mwma : MultiwayMergeAlgorithm)
    (mwmsa : MultiwayMergeSplittingAlgorithm) (num_threads : Z)
    (mem : Z → A) (buf : gmap Z A) :
  0 < total_size_of seqs → is_size_t num_threads → 1 ≤ num_threads →
  ∃ r,
    parallel_multiway_merge_base merge sampling exact Stable
      seqs target size comp mwma mwmsa num_threads mem buf = Some r
    ∧ res_return r = target + size.
Proof.
  intros Ht Hn H1. unfold parallel_multiway_merge_base.
  rewrite parallel_multiway_merge_base_sched_eq;
    [| done | done | done | apply seq_schedule_ok].
  eexists. split; [reflexivity | reflexivity].
Qed.

Lemma returns_target_plus_size_witness :
  total_size_of example_seqs < 20 ∧
  ∃ r, example_call (seq 0) false example_seqs 20 4 = Some r
       ∧ res_return r = 100 + 20.
Proof.
  split; [vm_compute; reflexivity|].
  apply (returns_target_plus_size (MultiwayMergeAlgorithm := unit)
           multiway_merge_base multiway_merge_exact_splitting
           multiway_merge_exact_splitting false example_seqs
           100 20 Z.ltb tt MWMSA_EXACT 4 example_mem ∅).
  - vm_compute. reflexivity.
  - unfold is_size_t, size_t_modulus. lia.
  - lia.
Defined.

(** C4.  A request above the largest value of [DiffType] is not reduced:
    line 113 compares [static_cast<DiffType>(num_threads)], which is
    negative for such a request, with [total_size], so the comparison does
    not hold and [num_threads] stays as requested, which is not
    min(num_threads, total_size); the table of line 118 then has more rows
    than can be allocated. *)
Theorem clamp_misses_large_request (num_threads total_size : Z) :
  is_size_t num_threads → DiffType_max < num_threads →
  0 < total_size → total_size ≤ DiffType_max →
  to_DiffType num_threads < 0
  ∧ clamp_num_threads num_threads total_size = num_threads
  ∧ clamp_num_threads num_threads total_size ≠ Z.min num_threads total_size
  ∧ chunks_too_large (clamp_num_threads num_threads total_size) = true.
Proof.
  intros Hs Hl Ht Hle.
  rewrite (clamp_num_threads_large num_threads total_size Hs Hl Ht).
  split_and!; [| done | lia | by apply bool_decide_eq_true].
  unfold is_size_t, size_t_modulus, DiffType_max in *.
  unfold to_DiffType, to_size_t, size_t_modulus, DiffType_max.
  rewrite Z.mod_small by lia. case_bool_decide; lia.
Qed.

Lemma clamp_misses_large_request_witness :
  to_DiffType (2 ^ 63) < 0
  ∧ clamp_num_threads (2 ^ 63) (total_size_of [(0, 3)]) = 2 ^ 63
  ∧ clamp_num_threads (2 ^ 63) (total_size_of [(0, 3)])
    ≠ Z.min (2 ^ 63) (total_size_of [(0, 3)])
  ∧ chunks_too_large (clamp_num_threads (2 ^ 63) (total_size_of [(0, 3)]))
    = true.
Proof.
  apply (clamp_misses_large_request (2 ^ 63) (total_size_of [(0, 3)])).
  - unfold is_size_t, size_t_modulus. lia.
  - unfold DiffType_max. lia.
  - vm_compute. reflexivity.
  - vm_compute. discriminate.
Defined.

(** C6. Worker [w] calls the sequential merge with the target offset that is
    the sum, over the non-empty sequences, of the distance from the start of
    the sequence to the start of its chunk in row [w], and with the length
    that is the minimum of the total length of its row and of [size] minus
    that offset.  The target buffer after the call is the buffer these calls
    leave, one after the other.  With a sequential merge that writes at most
    the length it is given, a worker changes no address outside the window
    of its call, which ends at [target + size] at the latest: no worker
    writes past [target + size], and the buffer from [target + size] on is
    as before the call. *)
Theorem worker_offset_and_length {A MultiwayMergeAlgorithm : Type}
    (merge : bool → bool → list range → Z → Z → (A → A → bool) →
             MultiwayMergeAlgorithm → (Z → A) → gmap Z A → gmap Z A)
    (sampling exact : bool → list range → Z → Z → (A → A → bool) → (Z → A) →
                      Z → nat → nat → range)
    (Stable : bool) (seqs : list range)
    (target size : Z) (comp : A → A → bool) (mwma : MultiwayMergeAlgorithm)
    (mwmsa : MultiwayMergeSplittingAlgorithm) (num_threads : Z)
    (mem : Z → A) (buf : gmap Z A) :
  writes_within_limit merge →
  0 < total_size_of seqs → is_size_t num_threads → 1 ≤ num_threads →
  let nt := clamp_num_threads num_threads (total_size_of seqs) in
  let chunks :=
    planner sampling exact mwmsa Stable (seqs_ne_of seqs) size
      (total_size_of seqs) comp mem nt in
  ∃ r,
    parallel_multiway_merge_base merge sampling exact Stable
      seqs target size comp mwma mwmsa num_threads mem buf = Some r
    ∧ length (res_calls r) = Z.to_nat nt
    ∧ res_target r = foldl (run_call merge Stable comp mwma mem) buf (res_calls r)
    ∧ (∀ w : nat, (w < Z.to_nat nt)%nat →
        let row := chunks w <$> seq 0 (length (seqs_ne_of seqs)) in
        let offset :=
          sumZ (zip_with (λ c q : range, c.1 - q.1) row (seqs_ne_of seqs)) in
        let length := sumZ ((λ c : range, c.2 - c.1) <$> row) in
        let call :=
          WorkerCall row (target + offset) (Z.min length (size - offset)) in
        res_calls r !! w = Some call
        ∧ (∀ (b : gmap Z A) (a : Z),
             ¬ (target + offset ≤ a
                < target + offset + Z.min length (size - offset)) →
             run_call merge Stable comp mwma mem b call !! a = b !! a)
        ∧ (∀ (b : gmap Z A) (a : Z),
             target + size ≤ a →
             run_call merge Stable comp mwma mem b call !! a = b !! a))
    ∧ ∀ a : Z, target + size ≤ a → res_target r !! a = buf !! a.
Proof.
  intros Hm Ht Hn H1 nt chunks. unfold parallel_multiway_merge_base.
  rewrite parallel_multiway_merge_base_sched_eq;
    [| done | done | done | apply seq_schedule_ok].
  fold nt. fold chunks.
  eexists. split; [reflexivity|]. cbn [res_calls res_target].
  split; [by rewrite length_fmap, length_seq|].
  split; [done|]. split.
  - intros w Hw. cbn zeta. split_and!.
    + rewrite list_lookup_fmap, lookup_seq_lt by done. reflexivity.
    + intros b a Ha. unfold run_call. cbn [wc_row wc_target wc_size].
      by apply Hm.
    + intros b a Ha. unfold run_call. cbn [wc_row wc_target wc_size].
      apply Hm. lia.
  - intros a Ha. apply run_calls_within; [done|].
    apply Forall_forall. intros c Hc.
    apply list_elem_of_fmap in Hc as (w & -> & _).
    unfold expected_call. cbn [wc_target wc_size]. lia.
Qed.

Lemma worker_offset_and_length_witness :
  ∃ r, example_call (seq 0) true example_seqs 5 2 = Some r
       ∧ res_calls r
         = [WorkerCall [(0, 1); (3, 4); (6, 6)] 100 2;
            WorkerCall [(1, 2); (4, 5); (6, 7)] 102 3]
       ∧ read_range (res_target r) 100 7
         = [Some 1; Some 2; Some 3; Some 4; Some 5; None; None].
Proof.
  destruct (worker_offset_and_length (MultiwayMergeAlgorithm := unit)
              multiway_merge_base multiway_merge_exact_splitting
              multiway_merge_exact_splitting true example_seqs
              100 5 Z.ltb tt MWMSA_EXACT 2 example_mem ∅)
    as (r & Hr & _).
  - apply multiway_merge_base_within_limit.
  - vm_compute. reflexivity.
  - unfold is_size_t, size_t_modulus. lia.
  - lia.
  - exists r. split; [exact Hr|].
    vm_compute in Hr. injection Hr as <-. split; vm_compute; reflexivity.
Defined.

(** C9. With a non-empty input, a call with zero threads requested does not
    complete: the clamp leaves the number at zero, the chunk table has no
    row, and the cursor update indexes row [num_threads - 1], which is
    2^64 - 1 after the unsigned wrap-around and out of bounds.  With at
    least one thread requested the call completes. *)
Theorem zero_threads_out_of_bounds {A MultiwayMergeAlgorithm : Type}
    (merge : bool → bool → list range → Z → Z → (A → A → bool) →
             MultiwayMergeAlgorithm → (Z → A) → gmap Z A → gmap Z A)
    (sampling exact : bool → list range → Z → Z → (A → A → bool) → (Z → A) →
                      Z → nat → nat → range)
    (Stable : bool) (seqs : list range)
    (target size : Z) (comp : A → A → bool) (mwma : MultiwayMergeAlgorithm)
    (mwmsa : MultiwayMergeSplittingAlgorithm)
    (mem : Z → A) (buf : gmap Z A) :
  0 < total_size_of seqs →
  let chunks :=
    allocate_chunks
      (planner sampling exact mwmsa Stable (seqs_ne_of seqs) size
         (total_size_of seqs) comp mem 0)
      0 (length (seqs_ne_of seqs)) in
  clamp_num_threads 0 (total_size_of seqs) = 0
  ∧ chunks = []
  ∧ to_size_t (0 - 1) = size_t_modulus - 1
  ∧ vec_at chunks (to_size_t (0 - 1)) = None
  ∧ parallel_multiway_merge_base merge sampling exact Stable
      seqs target size comp mwma mwmsa 0 mem buf = None
  ∧ ∀ num_threads, is_size_t num_threads → 1 ≤ num_threads →
      is_Some (parallel_multiway_merge_base merge sampling exact Stable
                 seqs target size comp mwma mwmsa num_threads mem buf).
Proof.
  intros Ht chunks.
  assert (clamp_num_threads 0 (total_size_of seqs) = 0) as Hc.
  { unfold clamp_num_threads, to_DiffType, size_t_modulus, DiffType_max.
    change (0 `mod` 2 ^ 64) with 0.
    rewrite (bool_decide_eq_true_2 (0 ≤ 2 ^ 63 - 1)) by lia.
    by rewrite bool_decide_eq_false_2 by lia. }
  assert (to_size_t (0 - 1) = size_t_modulus - 1) as Hw
    by (vm_compute; reflexivity).
  assert (∀ l count, seqs_ne_of l ≠ [] → update_ends [] 0 l count = None) as Hu.
  { induction l as [|r l IH]; intros count Hl; [done|].
    rewrite seqs_ne_of_cons in Hl. cbn [update_ends].
    destruct (non_empty r); [done|]. by rewrite IH. }
  split_and!; try done.
  - unfold parallel_multiway_merge_base, parallel_multiway_merge_base_sched.
    rewrite non_empty_sequences_eq. cbn [fst snd].
    pose proof (total_size_pos_num_seqs seqs Ht) as Hk.
    rewrite bool_decide_eq_false_2 by lia.
    rewrite bool_decide_eq_false_2 by lia. cbn [orb].
    rewrite Hc. cbn [Z.to_nat seq foldl mbind option_bind].
    change (allocate_chunks ?f 0 ?k) with (@nil (list range)).
    rewrite Hu; [done|]. intros Hnil. rewrite Hnil in Hk. simpl in Hk. lia.
  - intros num_threads Hs H1.
    unfold parallel_multiway_merge_base.
    rewrite parallel_multiway_merge_base_sched_eq;
      [| done | done | done | apply seq_schedule_ok].
    by eexists.
Qed.

Lemma zero_threads_out_of_bounds_witness :
  example_call (seq 0) false example_seqs 5 0 = None.
Proof.
  apply (zero_threads_out_of_bounds (MultiwayMergeAlgorithm := unit)
           multiway_merge_base multiway_merge_exact_splitting
           multiway_merge_exact_splitting false example_seqs
           100 5 Z.ltb tt MWMSA_EXACT example_mem ∅).
  vm_compute. reflexivity.
Defined.

(** C10. The frontend [parallel_multiway_merge] is
    [parallel_multiway_merge_base] with [Stable] false, the frontend
    [stable_parallel_multiway_merge] is it with [Stable] true, and all other
    arguments are forwarded unchanged. *)
Theorem frontends_forward {A MultiwayMergeAlgorithm : Type}
    (merge : bool → bool → list range → Z → Z → (A → A → bool) →
             MultiwayMergeAlgorithm → (Z → A) → gmap Z A → gmap Z A)
    (sampling exact : bool → list range → Z → Z → (A → A → bool) → (Z → A) →
                      Z → nat → nat → range)
    (seqs : list range)
    (target size : Z) (comp : A → A → bool) (mwma : MultiwayMergeAlgorithm)
    (mwmsa : MultiwayMergeSplittingAlgorithm) (num_threads : Z)
    (mem : Z → A) (buf : gmap Z A) :
  parallel_multiway_merge merge sampling exact
    seqs target size comp mwma mwmsa num_threads mem buf
  = parallel_multiway_merge_base merge sampling exact false
      seqs target size comp mwma mwmsa num_threads mem buf
  ∧ stable_parallel_multiway_merge merge sampling exact
      seqs target size comp mwma mwmsa num_threads mem buf
    = parallel_multiway_merge_base merge sampling exact true
        seqs target size comp mwma mwmsa num_threads mem buf.
Proof. split; reflexivity. Qed.

(** ** The claims that rest on the collaborators *)

(** On sorted sequences the exact planner, as modelled, meets the contract
    of the stable variant whenever it is the one chosen. *)
Lemma exact_planner_meets_contract {A : Type}
    (sampling : bool → list range → Z → Z → (A → A → bool) → (Z → A) →
                Z → nat → nat → range)
    (seqs : list range) (size : Z) (comp : A → A → bool)
    (mwmsa : MultiwayMergeSplittingAlgorithm) (num_threads : Z) (mem : Z → A) :
  StrictWeakOrder comp →
  forallb (sorted_range comp mem) seqs = true →
  0 ≤ size → 0 < total_size_of seqs →
  is_size_t num_threads → 1 ≤ num_threads →
  mwmsa ≠ MWMSA_SAMPLING →
  planner_meets_contract sampling multiway_merge_exact_splitting true seqs
    size comp mwmsa num_threads mem.
Proof.
  intros Hswo Hsorted Hsize Ht Hs Hn Hm.
  pose proof (call_threads_pos seqs num_threads Ht Hs Hn) as Hpos.
  assert (Forall (sorted_seq comp mem) (seqs_ne_of seqs)) as Hl.
  { apply Forall_forall. intros q Hq. apply list_elem_of_filter in Hq as [_ Hq].
    apply (sorted_range_spec _ _ Hswo).
    rewrite forallb_forall in Hsorted. apply Hsorted. by apply list_elem_of_In. }
  pose proof (exact_splitting_meets_contract comp mem (seqs_ne_of seqs)
                size (Z.to_nat (call_threads seqs num_threads)) Hswo Hl Hsize Hpos)
    as H.
  rewrite Z2Nat.id in H by lia.
  unfold planner_meets_contract, call_table, call_bound, planner.
  destruct mwmsa; [done | exact H | exact H].
Qed.

(** The contract holds for the planner of the call: by the lemma above when
    the exact planner is chosen, by assumption when sampling is. *)
Lemma chosen_planner_meets_contract {A : Type}
    (sampling : bool → list range → Z → Z → (A → A → bool) → (Z → A) →
                Z → nat → nat → range)
    (seqs : list range) (size : Z) (comp : A → A → bool)
    (mwmsa : MultiwayMergeSplittingAlgorithm) (num_threads : Z) (mem : Z → A) :
  StrictWeakOrder comp →
  forallb (sorted_range comp mem) seqs = true →
  0 ≤ size → 0 < total_size_of seqs →
  is_size_t num_threads → 1 ≤ num_threads →
  (mwmsa = MWMSA_SAMPLING →
   planner_meets_contract sampling multiway_merge_exact_splitting true seqs
     size comp mwmsa num_threads mem) →
  planner_meets_contract sampling multiway_merge_exact_splitting true seqs
    size comp mwmsa num_threads mem.
Proof.
  intros Hswo Hsorted Hsize Ht Hs Hn Hsampling.
  destruct mwmsa; [by apply Hsampling | |];
    by apply exact_planner_meets_contract.
Qed.

(** C7. With the stable frontend, on sorted sequences whose elements carry
    the index of their sequence: whenever two elements of the merged output
    are equivalent under the comparator, the one that comes first is not
    from a sequence of higher index than the other; so of two equivalent
    elements from different sequences the one from the lower-indexed
    sequence appears first. *)
Theorem stable_merge_keeps_sequence_order {B MultiwayMergeAlgorithm : Type}
    (compB : B → B → bool)
    (sampling : bool → list range → Z → Z → (B * nat → B * nat → bool) →
                (Z → B * nat) → Z → nat → nat → range)
    (seqs : list range)
    (target size : Z) (mwma : MultiwayMergeAlgorithm)
    (mwmsa : MultiwayMergeSplittingAlgorithm) (num_threads : Z)
    (mem : Z → B * nat) (buf : gmap Z (B * nat)) :
  StrictWeakOrder compB →
  forallb (sorted_range (by_value compB) mem) seqs = true →
  tagged_by_sequence mem seqs = true →
  0 ≤ size → 0 < total_size_of seqs →
  is_size_t num_threads → 1 ≤ num_threads →
  (mwmsa = MWMSA_SAMPLING →
   planner_meets_contract sampling multiway_merge_exact_splitting true seqs
     size (by_value compB) mwmsa num_threads mem) →
  ∃ r,
    stable_parallel_multiway_merge multiway_merge_base sampling
      multiway_merge_exact_splitting
      seqs target size (by_value compB) mwma mwmsa num_threads mem buf = Some r
    ∧ ∀ (k1 k2 : Z) (x y : B * nat),
        0 ≤ k1 → k1 < k2 → k2 < Z.min size (total_size_of seqs) →
        res_target r !! (target + k1) = Some x →
        res_target r !! (target + k2) = Some y →
        compB x.1 y.1 = false → compB y.1 x.1 = false →
        (x.2 ≤ y.2)%nat.
Proof.
  intros HswoB Hsorted Htag Hsize Ht Hs Hn Hsampling.
  pose proof (by_value_strict_weak_order compB HswoB) as Hswo.
  pose proof (chosen_planner_meets_contract sampling seqs size
                (by_value compB) mwmsa num_threads mem Hswo Hsorted Hsize Ht Hs
                Hn Hsampling) as Hok.
  destruct (run_with_contract sampling multiway_merge_exact_splitting (seq 0)
              seqs target size (by_value compB) mwma mwmsa num_threads mem
              buf Hswo Ht Hs Hn Hok ltac:(done))
    as (r & Hr & Hbuf & _).
  exists r. split; [exact Hr|].
  intros k1 k2 x y H0 H12 Hk2 Hx Hy Hxy Hyx.
  rewrite Hbuf in Hx, Hy. unfold call_bound in Hx, Hy.
  rewrite decide_True in Hx by lia. rewrite decide_True in Hy by lia.
  unfold merged in Hx, Hy. rewrite list_lookup_fmap in Hx, Hy.
  destruct ((merge_picks (by_value compB) mem
               (Z.to_nat (Z.min size (total_size_of seqs))) seqs).1
            !! Z.to_nat (target + k1 - target)) as [[i1 p1]|] eqn:E1; [|done].
  destruct ((merge_picks (by_value compB) mem
               (Z.to_nat (Z.min size (total_size_of seqs))) seqs).1
            !! Z.to_nat (target + k2 - target)) as [[i2 p2]|] eqn:E2; [|done].
  simpl in Hx, Hy. injection Hx as <-. injection Hy as <-.
  assert (Forall (sorted_seq (by_value compB) mem) seqs) as Hl.
  { apply Forall_forall. intros q Hq. apply (sorted_range_spec _ _ Hswo).
    rewrite forallb_forall in Hsorted. apply Hsorted. by apply list_elem_of_In. }
  destruct (merge_picks_valid _ _ Hswo _ _ _ _ _ Hl E1) as (r1 & Hr1 & Hp1).
  destruct (merge_picks_valid _ _ Hswo _ _ _ _ _ Hl E2) as (r2 & Hr2 & Hp2).
  rewrite (tagged_by_sequence_spec mem seqs i1 r1 p1 Htag Hr1 Hp1).
  rewrite (tagged_by_sequence_spec mem seqs i2 r2 p2 Htag Hr2 Hp2).
  pose proof (merge_picks_sorted _ _ Hswo _ _
                (Z.to_nat (target + k1 - target)) (Z.to_nat (target + k2 - target))
                _ _ _ _ Hl ltac:(lia) E1 E2) as Hlex.
  unfold lex_lt, by_value in Hlex. rewrite Hyx, Hxy in Hlex. simpl in Hlex.
  apply bool_decide_eq_false in Hlex. lia.
Qed.

Lemma stable_merge_keeps_sequence_order_witness :
  ∃ r,
    stable_parallel_multiway_merge (MultiwayMergeAlgorithm := unit)
      multiway_merge_base multiway_merge_exact_splitting
      multiway_merge_exact_splitting tagged_seqs 100 4 (by_value Z.ltb) tt
      MWMSA_EXACT 2 tagged_mem ∅ = Some r
    ∧ read_range (res_target r) 100 4
      = [Some (1, 0%nat); Some (2, 0%nat); Some (2, 1%nat); Some (3, 1%nat)].
Proof.
  destruct (stable_merge_keeps_sequence_order (MultiwayMergeAlgorithm := unit)
              Z.ltb multiway_merge_exact_splitting
              tagged_seqs 100 4 tt MWMSA_EXACT 2 tagged_mem ∅)
    as (r & Hr & _).
  - exact Z_ltb_strict_weak_order.
  - vm_compute. reflexivity.
  - vm_compute. reflexivity.
  - lia.
  - vm_compute. reflexivity.
  - unfold is_size_t, size_t_modulus. lia.
  - lia.
  - discriminate.
  - exists r. split; [exact Hr|].
    vm_compute in Hr. injection Hr as <-. vm_compute. reflexivity.
Defined.




(** C5. After a call on sorted sequences with a non-empty input, with a
    sequential merge and a planner that meet their contracts: a sequence
    that was empty at entry is unchanged, and a sequence that was not empty
    has its start set to the end of its chunk in the row of the last worker
    (index [num_threads - 1] after the clamp), which moves the start by the
    number of elements of that sequence among the min(size, total_size)
    elements of the merged output in the target buffer.  The elements carry
    the index of their sequence, so that those of a sequence can be counted
    in the buffer. *)
Theorem cursors_advance_by_merged_count {B MultiwayMergeAlgorithm : Type}
    (order : bool → list range → Z → (B * nat → B * nat → bool) →
             MultiwayMergeAlgorithm → (Z → B * nat) → list Z)
    (sampling exact : bool → list range → Z → Z → (B * nat → B * nat → bool) →
                      (Z → B * nat) → Z → nat → nat → range)
    (Stable : bool) (seqs : list range)
    (target size : Z) (comp : B * nat → B * nat → bool)
    (mwma : MultiwayMergeAlgorithm)
    (mwmsa : MultiwayMergeSplittingAlgorithm) (num_threads : Z)
    (mem : Z → B * nat) (buf : gmap Z (B * nat)) :
  order_conforms order →
  StrictWeakOrder comp →
  forallb (sorted_range comp mem) seqs = true →
  tagged_by_sequence mem seqs = true →
  0 ≤ size → 0 < total_size_of seqs →
  is_size_t num_threads → 1 ≤ num_threads →
  planner_meets_contract sampling exact Stable seqs size comp mwmsa num_threads
    mem →
  ∃ r,
    parallel_multiway_merge_base (merge_with order) sampling exact Stable
      seqs target size comp mwma mwmsa num_threads mem buf = Some r
    ∧ length (res_seqs r) = length seqs
    ∧ ∀ (i : nat) (first second : Z),
        seqs !! i = Some (first, second) →
        (first = second → res_seqs r !! i = Some (first, second))
        ∧ (first ≠ second →
           let s := rank_ne seqs i in
           let last_worker := Z.to_nat (call_threads seqs num_threads - 1) in
           let last_end :=
             (call_table sampling exact Stable seqs size comp mwmsa
                num_threads mem last_worker s).2 in
           res_seqs r !! i = Some (last_end, second)
           ∧ last_end - first
             = elements_from i
                 (read_range (res_target r) target
                    (Z.min size (total_size_of seqs)))).
Proof.
  intros Hconf Hswo Hsorted Htag Hsize Ht Hs Hn Hok.
  pose proof (sorted_seqs comp mem seqs Hswo Hsorted) as Hl.
  destruct (run_with_order order sampling exact (seq 0) Stable seqs target size
              comp mwma mwmsa num_threads mem buf Hconf Hswo Hl Ht Hs Hn Hok
              ltac:(done))
    as (r & Hr & Hbuf & Hseqs & _).
  exists r. split; [exact Hr|]. rewrite Hseqs.
  split; [apply advanced_length|].
  intros i first second Hi. rewrite advanced_lookup, Hi.
  cbn [fmap option_fmap option_map].
  split.
  - intros Heq. by rewrite (proj2 (non_empty_false (first, second)) Heq).
  - intros Hne. rewrite (proj2 (non_empty_true (first, second)) Hne).
    cbn zeta. cbn [snd Nat.add]. split; [done|].
    rewrite (read_range_eq (res_target r) target
               (Z.min size (total_size_of seqs))
               (mem <$> workers_order order Stable (seqs_ne_of seqs)
                  (call_table sampling exact Stable seqs size comp mwmsa
                     num_threads mem)
                  comp mwma mem (Z.to_nat (call_threads seqs num_threads)))).
    + rewrite elements_from_fmap. symmetry.
      by apply (output_elements_from order sampling exact Stable seqs size comp
                  mwma mwmsa num_threads mem i first second).
    + rewrite length_fmap.
      apply (output_length order sampling exact Stable seqs size comp mwma mwmsa
               num_threads mem Hconf Hswo Hl Ht Hs Hn Hok).
    + intros a Ha. rewrite Hbuf. unfold call_bound.
      by rewrite decide_True by lia.
Qed.

Lemma cursors_advance_by_merged_count_witness :
  ∃ r,
    parallel_multiway_merge_base (MultiwayMergeAlgorithm := unit)
      (merge_with multiway_merge_order) multiway_merge_exact_splitting
      multiway_merge_exact_splitting false
      [(0, 2); (1, 1); (2, 4)] 100 3 (by_value Z.ltb) tt MWMSA_EXACT 2
      (λ p, if bool_decide (p < 2) then (p + 1, 0%nat) else (p, 2%nat)) ∅
    = Some r
    ∧ res_seqs r = [(2, 2); (1, 1); (3, 4)]
    ∧ elements_from 0 (read_range (res_target r) 100 3) = 2
    ∧ elements_from 1 (read_range (res_target r) 100 3) = 0
    ∧ elements_from 2 (read_range (res_target r) 100 3) = 1.
Proof.
  destruct (cursors_advance_by_merged_count (MultiwayMergeAlgorithm := unit)
              multiway_merge_order multiway_merge_exact_splitting
              multiway_merge_exact_splitting false
              [(0, 2); (1, 1); (2, 4)] 100 3 (by_value Z.ltb) tt MWMSA_EXACT 2
              (λ p, if bool_decide (p < 2) then (p + 1, 0%nat) else (p, 2%nat)) ∅)
    as (r & Hr & _).
  - apply multiway_merge_order_conforms.
  - exact (by_value_strict_weak_order Z.ltb Z_ltb_strict_weak_order).
  - vm_compute. reflexivity.
  - vm_compute. reflexivity.
  - lia.
  - vm_compute. reflexivity.
  - unfold is_size_t, size_t_modulus. lia.
  - lia.
  - vm_compute. reflexivity.
  - exists r. split; [exact Hr|].
    vm_compute in Hr. injection Hr as <-. split_and!; vm_compute; reflexivity.
Defined.

(** C8. On sorted sequences, with a sequential merge and a planner that
    meet their contracts, the result does not depend on the order in which
    the workers take effect: two runs with the same number of threads, each
    with its own order of the workers, leave the same target buffer and the
    same final starts of the sequences.  Two runs with different numbers of
    threads return the same iterator, leave the buffer outside the first
    min(size, total_size) addresses as it was, and in these addresses
    contents that are order-equivalent under the comparator: position by
    position the two elements are equivalent.  In the stable variant the
    buffers and the final starts are the same for every number of
    threads. *)
Theorem merge_is_deterministic {A MultiwayMergeAlgorithm : Type}
    (order : bool → list range → Z → (A → A → bool) →
             MultiwayMergeAlgorithm → (Z → A) → list Z)
    (sampling exact : bool → list range → Z → Z → (A → A → bool) → (Z → A) →
                      Z → nat → nat → range)
    (schedule1 schedule2 : nat → list nat)
    (Stable : bool) (seqs : list range)
    (target size : Z) (comp : A → A → bool) (mwma : MultiwayMergeAlgorithm)
    (mwmsa : MultiwayMergeSplittingAlgorithm) (num_threads1 num_threads2 : Z)
    (mem : Z → A) (buf : gmap Z A) :
  order_conforms order →
  StrictWeakOrder comp →
  forallb (sorted_range comp mem) seqs = true →
  0 ≤ size → 0 < total_size_of seqs →
  is_size_t num_threads1 → 1 ≤ num_threads1 →
  is_size_t num_threads2 → 1 ≤ num_threads2 →
  planner_meets_contract sampling exact Stable seqs size comp mwmsa
    num_threads1 mem →
  planner_meets_contract sampling exact Stable seqs size comp mwmsa
    num_threads2 mem →
  schedule1 (Z.to_nat (call_threads seqs num_threads1))
    ≡ₚ seq 0 (Z.to_nat (call_threads seqs num_threads1)) →
  schedule2 (Z.to_nat (call_threads seqs num_threads2))
    ≡ₚ seq 0 (Z.to_nat (call_threads seqs num_threads2)) →
  ∃ r1 r2 out1 out2,
    parallel_multiway_merge_base_sched (merge_with order) sampling exact
      schedule1 Stable seqs target size comp mwma mwmsa num_threads1 mem buf
    = Some r1
    ∧ parallel_multiway_merge_base_sched (merge_with order) sampling exact
        schedule2 Stable seqs target size comp mwma mwmsa num_threads2 mem buf
      = Some r2
    ∧ (num_threads1 = num_threads2 →
       res_target r1 = res_target r2 ∧ res_seqs r1 = res_seqs r2)
    ∧ res_return r1 = res_return r2
    ∧ read_range (res_target r1) target (Z.min size (total_size_of seqs))
      = Some <$> out1
    ∧ read_range (res_target r2) target (Z.min size (total_size_of seqs))
      = Some <$> out2
    ∧ Forall2 (equivalent comp) out1 out2
    ∧ (∀ a : Z,
         ¬ (target ≤ a < target + Z.min size (total_size_of seqs)) →
         res_target r1 !! a = buf !! a ∧ res_target r2 !! a = buf !! a)
    ∧ (Stable = true →
       res_target r1 = res_target r2 ∧ res_seqs r1 = res_seqs r2).
Proof.
  intros Hconf Hswo Hsorted Hsize Ht Hs1 Hn1 Hs2 Hn2 Hok1 Hok2 Hp1 Hp2.
  pose proof (sorted_seqs comp mem seqs Hswo Hsorted) as Hl.
  destruct (run_with_order order sampling exact schedule1 Stable seqs target
              size comp mwma mwmsa num_threads1 mem buf Hconf Hswo Hl Ht Hs1
              Hn1 Hok1 Hp1)
    as (r1 & Hr1 & Hbuf1 & Hseqs1 & Hret1 & _).
  destruct (run_with_order order sampling exact schedule2 Stable seqs target
              size comp mwma mwmsa num_threads2 mem buf Hconf Hswo Hl Ht Hs2
              Hn2 Hok2 Hp2)
    as (r2 & Hr2 & Hbuf2 & Hseqs2 & Hret2 & _).
  pose proof (output_length order sampling exact Stable seqs size comp mwma
                mwmsa num_threads1 mem Hconf Hswo Hl Ht Hs1 Hn1 Hok1) as Hlen1.
  pose proof (output_length order sampling exact Stable seqs size comp mwma
                mwmsa num_threads2 mem Hconf Hswo Hl Ht Hs2 Hn2 Hok2) as Hlen2.
  exists r1, r2,
    (mem <$> workers_order order Stable (seqs_ne_of seqs)
               (call_table sampling exact Stable seqs size comp mwmsa
                  num_threads1 mem)
               comp mwma mem (Z.to_nat (call_threads seqs num_threads1))),
    (mem <$> workers_order order Stable (seqs_ne_of seqs)
               (call_table sampling exact Stable seqs size comp mwmsa
                  num_threads2 mem)
               comp mwma mem (Z.to_nat (call_threads seqs num_threads2))).
  split; [exact Hr1|]. split; [exact Hr2|]. split_and!.
  - intros Heq. destruct Heq. split; [|by rewrite Hseqs1, Hseqs2].
    apply map_eq. intros a. by rewrite Hbuf1, Hbuf2.
  - by rewrite Hret1, Hret2.
  - apply read_range_eq; [by rewrite length_fmap|].
    intros a Ha. rewrite Hbuf1. unfold call_bound. by rewrite decide_True by lia.
  - apply read_range_eq; [by rewrite length_fmap|].
    intros a Ha. rewrite Hbuf2. unfold call_bound. by rewrite decide_True by lia.
  - apply Forall2_fmap.
    apply (selections_equivalent comp mem Hswo _ _ _ _ _
             (output_selects order sampling exact Stable seqs size comp mwma
                mwmsa num_threads1 mem Hconf Hswo Hl Ht Hs1 Hn1 Hok1)
             (output_selects order sampling exact Stable seqs size comp mwma
                mwmsa num_threads2 mem Hconf Hswo Hl Ht Hs2 Hn2 Hok2)).
    by rewrite Hlen1, Hlen2.
  - intros a Ha. rewrite Hbuf1, Hbuf2. unfold call_bound.
    by rewrite !decide_False by done.
  - intros Hstable. destruct Stable; [|done]. split.
    + apply map_eq. intros a. rewrite Hbuf1, Hbuf2.
      rewrite (output_stable order sampling exact seqs size comp mwma mwmsa
                 num_threads1 mem Hconf Hswo Hl Ht Hs1 Hn1 Hok1).
      by rewrite (output_stable order sampling exact seqs size comp mwma mwmsa
                    num_threads2 mem Hconf Hswo Hl Ht Hs2 Hn2 Hok2).
    + rewrite Hseqs1, Hseqs2.
      rewrite (advanced_single_threaded sampling exact seqs size comp mwmsa
                 num_threads1 mem Hswo Ht Hs1 Hn1 Hok1).
      by rewrite (advanced_single_threaded sampling exact seqs size comp mwmsa
                    num_threads2 mem Hswo Ht Hs2 Hn2 Hok2).
Qed.

Lemma merge_is_deterministic_witness :
  ∃ r1 r2 out1 out2,
    parallel_multiway_merge_base_sched (MultiwayMergeAlgorithm := unit)
      (merge_with multiway_merge_order) multiway_merge_exact_splitting
      multiway_merge_index_splitting (seq 0) false
      tagged_seqs 100 4 (by_value Z.ltb) tt MWMSA_EXACT 1 tagged_mem ∅
    = Some r1
    ∧ parallel_multiway_merge_base_sched (MultiwayMergeAlgorithm := unit)
        (merge_with multiway_merge_order) multiway_merge_exact_splitting
        multiway_merge_index_splitting (λ n, reverse (seq 0 n)) false
        tagged_seqs 100 4 (by_value Z.ltb) tt MWMSA_EXACT 2 tagged_mem ∅
      = Some r2
    ∧ (1 = 2 → res_target r1 = res_target r2 ∧ res_seqs r1 = res_seqs r2)
    ∧ res_return r1 = res_return r2
    ∧ read_range (res_target r1) 100 (Z.min 4 (total_size_of tagged_seqs))
      = Some <$> out1
    ∧ read_range (res_target r2) 100 (Z.min 4 (total_size_of tagged_seqs))
      = Some <$> out2
    ∧ Forall2 (equivalent (by_value Z.ltb)) out1 out2
    ∧ (∀ a : Z,
         ¬ (100 ≤ a < 100 + Z.min 4 (total_size_of tagged_seqs)) →
         res_target r1 !! a = (∅ : gmap Z (Z * nat)) !! a
         ∧ res_target r2 !! a = (∅ : gmap Z (Z * nat)) !! a)
    ∧ (false = true →
       res_target r1 = res_target r2 ∧ res_seqs r1 = res_seqs r2).
Proof.
  apply (merge_is_deterministic (MultiwayMergeAlgorithm := unit)
           multiway_merge_order multiway_merge_exact_splitting
           multiway_merge_index_splitting
           (seq 0) (λ n, reverse (seq 0 n))
           false tagged_seqs 100 4 (by_value Z.ltb) tt MWMSA_EXACT 1 2
           tagged_mem ∅).
  - apply multiway_merge_order_conforms.
  - exact (by_value_strict_weak_order Z.ltb Z_ltb_strict_weak_order).
  - vm_compute. reflexivity.
  - lia.
  - vm_compute. reflexivity.
  - unfold is_size_t, size_t_modulus. lia.
  - lia.
  - unfold is_size_t, size_t_modulus. lia.
  - lia.
  - vm_compute. reflexivity.
  - vm_compute. reflexivity.
  - reflexivity.
  - apply reverse_Permutation.
Defined.

(** * Further properties of the orchestration

    The statements of this part hold for every sequential merge and every
    planner, on sorted and on unsorted input. *)

(** ** The filter loop *)

Lemma well_formed_total_size (seqs : list range) :
  Forall (λ r : range, r.1 ≤ r.2) seqs →
  Z.of_nat (length (seqs_ne_of seqs)) ≤ total_size_of seqs.
Proof.
  unfold total_size_of. induction 1 as [|r seqs Hr _ IH]; [done|].
  rewrite seqs_ne_of_cons. destruct (non_empty r) eqn:Hne; [|done].
  apply non_empty_true in Hne. rewrite fmap_cons. cbn [length sumZ].
  unfold range_size at 1. lia.
Qed.

Lemma seqs_ne_nil_all_empty (seqs : list range) :
  seqs_ne_of seqs = [] → Forall (λ r : range, r.1 = r.2) seqs.
Proof.
  induction seqs as [|r seqs IH]; [done|].
  rewrite seqs_ne_of_cons. destruct (non_empty r) eqn:Hr; [done|].
  intros H. constructor; [by apply non_empty_false | by apply IH].
Qed.

(** X8. The loop of lines 100-106 leaves in [seqs_ne] exactly the sequences
    with [first != second], in the order of the input, and in [total_size]
    the sum of [second - first] over all the sequences of the input. *)
Theorem filter_loop_closed_form (seqs : list range) :
  (non_empty_sequences seqs).1 = sumZ ((λ r : range, r.2 - r.1) <$> seqs)
  ∧ (non_empty_sequences seqs).2 = filter (λ r : range, r.1 ≠ r.2) seqs
  ∧ (non_empty_sequences seqs).2 `sublist_of` seqs
  ∧ (length (non_empty_sequences seqs).2 ≤ length seqs)%nat.
Proof.
  rewrite non_empty_sequences_eq. cbn [fst snd].
  split_and!.
  - apply total_size_all.
  - done.
  - apply sublist_filter.
  - apply length_filter.
Qed.

(** ** The cursor update *)

Lemma sumZ_zip_advanced (ends : nat → Z) (seqs : list range) (count : nat) :
  sumZ (zip_with (λ q' q : range, q'.1 - q.1) (advanced ends seqs count) seqs)
  = sumZ (zip_with (λ (s : nat) (q : range), ends s - q.1)
            (seq count (length (seqs_ne_of seqs))) (seqs_ne_of seqs)).
Proof.
  revert count. induction seqs as [|r seqs IH]; intros count; [done|].
  rewrite seqs_ne_of_cons. cbn [advanced]. destruct (non_empty r) eqn:Hr.
  - cbn [zip_with length seq sumZ fst]. by rewrite IH.
  - cbn [zip_with sumZ]. rewrite IH. lia.
Qed.

Lemma row_end_sum (f : nat → range) (q : list range) (i : nat) :
  sumZ (zip_with (λ (s : nat) (q : range), (f s).2 - q.1) (seq i (length q)) q)
  = row_offset (f <$> seq i (length q)) q + row_length (f <$> seq i (length q)).
Proof.
  revert i. induction q as [|q0 q IH]; intros i; [done|].
  cbn [length seq zip_with sumZ]. rewrite fmap_cons, row_offset_cons, row_length_cons.
  rewrite IH. lia.
Qed.

Lemma update_ends_seqs_ne chunks num_threads (seqs : list range) (count : nat) :
  is_Some (update_ends chunks num_threads seqs count) ↔
  is_Some (update_ends chunks num_threads (seqs_ne_of seqs) count).
Proof.
  revert count. induction seqs as [|r seqs IH]; intros count; [done|].
  rewrite seqs_ne_of_cons. destruct (non_empty r) eqn:Hr.
  - cbn [update_ends]. rewrite Hr.
    destruct (vec_at chunks (to_size_t (num_threads - 1))) as [row|]; [|done].
    cbn [mbind option_bind]. destruct (row !! count) as [c|]; [|done].
    cbn [mbind option_bind]. specialize (IH (S count)).
    destruct (update_ends chunks num_threads seqs (S count)),
      (update_ends chunks num_threads (seqs_ne_of seqs) (S count));
      cbn [mbind option_bind]; split; intros [x Hx];
      first [ by eexists
            | done
            | by destruct (proj1 IH ltac:(by eexists))
            | by destruct (proj2 IH ltac:(by eexists)) ].
  - cbn [update_ends]. rewrite Hr. rewrite <- IH.
    destruct (update_ends chunks num_threads seqs count);
      cbn [mbind option_bind]; split; intros [x Hx]; first [by eexists | done].
Qed.

Lemma table_consecutive_at (seqs_ne : list range) (fill : nat → nat → range)
    (num_threads w s : nat) :
  table_consecutive seqs_ne fill num_threads = true →
  (w < num_threads)%nat → (s < length seqs_ne)%nat →
  chunk_contiguous seqs_ne fill w s = true ∧ (fill w s).1 ≤ (fill w s).2.
Proof.
  intros H Hw Hs. unfold table_consecutive in H.
  apply (forallb_seq _ _ w) in H; [|done].
  apply (forallb_seq _ _ s) in H; [|done].
  apply andb_true_iff in H as [H1 H2]. by apply bool_decide_eq_true in H2.
Qed.

Lemma row_offset_next (row row' q : list range) :
  length row = length q →
  Forall2 (λ c c' : range, c'.1 = c.2) row row' →
  row_offset row' q = row_offset row q + row_length row.
Proof.
  intros Hl H. revert q Hl.
  induction H as [|c c' row row' Hc _ IH]; intros [|q0 q] Hl; try done.
  rewrite !row_offset_cons, row_length_cons, (IH q) by (simpl in Hl; lia). lia.
Qed.

Lemma row_offset_first (row q : list range) :
  Forall2 (λ c q0 : range, c.1 = q0.1) row q → row_offset row q = 0.
Proof.
  induction 1 as [|c q0 row q Hc _ IH]; [done|].
  rewrite row_offset_cons, IH. lia.
Qed.

Lemma row_length_valid (row : list range) :
  Forall (λ c : range, c.1 ≤ c.2) row → 0 ≤ row_length row.
Proof.
  induction 1 as [|c row Hc _ IH]; [done|]. rewrite row_length_cons. lia.
Qed.

Section consecutive_table.
Variable seqs_ne : list range.
Variable fill : nat → nat → range.
Variable num_threads : nat.
Hypothesis Htable : table_consecutive seqs_ne fill num_threads = true.

Local Abbreviation row := (table_row seqs_ne fill).

Lemma consecutive_first : (0 < num_threads)%nat → row_offset (row 0) seqs_ne = 0.
Proof.
  intros Hn. apply row_offset_first. unfold table_row.
  apply Forall2_fmap_l, Forall2_lookup. intros s.
  destruct (decide (s < length seqs_ne)%nat) as [Hs|Hs].
  - rewrite lookup_seq_lt by done.
    destruct (lookup_lt_is_Some_2 seqs_ne s Hs) as [q Hq]. rewrite Hq.
    constructor.
    destruct (table_consecutive_at _ _ _ 0%nat s Htable Hn Hs) as [H _].
    unfold chunk_contiguous in H. rewrite Hq in H.
    by apply bool_decide_eq_true in H.
  - rewrite lookup_seq_ge by lia. rewrite lookup_ge_None_2 by lia. constructor.
Qed.

Lemma consecutive_next (w : nat) :
  (S w < num_threads)%nat →
  row_offset (row (S w)) seqs_ne
  = row_offset (row w) seqs_ne + row_length (row w).
Proof.
  intros Hw. apply row_offset_next.
  { unfold table_row. by rewrite length_fmap, length_seq. }
  unfold table_row. apply Forall2_fmap, Forall_Forall2_diag, Forall_forall.
  intros s Hs. apply elem_of_seq in Hs.
  destruct (table_consecutive_at _ _ _ (S w) s Htable Hw ltac:(lia)) as [H _].
  unfold chunk_contiguous in H.
  destruct (lookup_lt_is_Some_2 seqs_ne s ltac:(lia)) as [q Hq].
  rewrite Hq in H. by apply bool_decide_eq_true in H.
Qed.

Lemma consecutive_length (w : nat) :
  (w < num_threads)%nat → 0 ≤ row_length (row w).
Proof.
  intros Hw. apply row_length_valid. unfold table_row.
  apply Forall_fmap, Forall_forall. intros s Hs. apply elem_of_seq in Hs.
  by destruct (table_consecutive_at _ _ _ w s Htable Hw ltac:(lia)) as [_ H].
Qed.

Lemma consecutive_later (w w' : nat) :
  (w < w')%nat → (w' < num_threads)%nat →
  row_offset (row w) seqs_ne + row_length (row w) ≤ row_offset (row w') seqs_ne.
Proof.
  intros Hlt. induction Hlt as [|w' Hle IH]; intros Hw.
  - rewrite consecutive_next by done. lia.
  - rewrite (consecutive_next w') by done.
    pose proof (consecutive_length w' ltac:(lia)).
    specialize (IH ltac:(lia)). lia.
Qed.

End consecutive_table.

Lemma all_empty_call {A MultiwayMergeAlgorithm : Type}
    (merge : bool → bool → list range → Z → Z → (A → A → bool) →
             MultiwayMergeAlgorithm → (Z → A) → gmap Z A → gmap Z A)
    (sampling exact : bool → list range → Z → Z → (A → A → bool) → (Z → A) →
                      Z → nat → nat → range)
    Stable (seqs : list range) target size comp mwma mwmsa num_threads mem buf :
  seqs_ne_of seqs = [] →
  parallel_multiway_merge_base merge sampling exact Stable seqs target size
    comp mwma mwmsa num_threads mem buf
  = Some (Result seqs buf target []).
Proof.
  intros Hne.
  unfold parallel_multiway_merge_base, parallel_multiway_merge_base_sched.
  rewrite non_empty_sequences_eq. cbn [fst snd].
  unfold total_size_of. by rewrite Hne.
Qed.

(** ** The cursor update and the workers' calls *)

(** X1. After a call with a non-empty input, whatever the planner and the
    sequential merge: the sequence set has as many sequences as before, no
    [second] has changed, an empty sequence is unchanged, and the [first] of
    a non-empty sequence is the [second] of the chunk that the planner left
    for it in the row of the last worker, the sequence being found there at
    the index it has among the non-empty sequences. *)
Theorem cursor_update_moves_only_starts {A MultiwayMergeAlgorithm : Type}
    (merge : bool → bool → list range → Z → Z → (A → A → bool) →
             MultiwayMergeAlgorithm → (Z → A) → gmap Z A → gmap Z A)
    (sampling exact : bool → list range → Z → Z → (A → A → bool) → (Z → A) →
                      Z → nat → nat → range)
    (Stable : bool) (seqs : list range)
    (target size : Z) (comp : A → A → bool) (mwma : MultiwayMergeAlgorithm)
    (mwmsa : MultiwayMergeSplittingAlgorithm) (num_threads : Z)
    (mem : Z → A) (buf : gmap Z A) :
  0 < total_size_of seqs → is_size_t num_threads → 1 ≤ num_threads →
  let nt := clamp_num_threads num_threads (total_size_of seqs) in
  let table :=
    planner sampling exact mwmsa Stable (seqs_ne_of seqs) size
      (total_size_of seqs) comp mem nt in
  ∃ r,
    parallel_multiway_merge_base merge sampling exact Stable
      seqs target size comp mwma mwmsa num_threads mem buf = Some r
    ∧ length (res_seqs r) = length seqs
    ∧ ∀ (i : nat) (q : range), seqs !! i = Some q →
        ∃ q' : range,
          res_seqs r !! i = Some q'
          ∧ q'.2 = q.2
          ∧ (q.1 = q.2 → q' = q)
          ∧ (q.1 ≠ q.2 →
             q'.1 = (table (Z.to_nat (nt - 1))
                       (length (filter (λ r : range, r.1 ≠ r.2) (take i seqs)))).2).
Proof.
  intros Ht Hn H1. cbv zeta. unfold parallel_multiway_merge_base.
  rewrite parallel_multiway_merge_base_sched_eq;
    [| done | done | done | apply seq_schedule_ok].
  set (nt := clamp_num_threads num_threads (total_size_of seqs)) in *.
  set (table := planner sampling exact mwmsa Stable (seqs_ne_of seqs) size
                  (total_size_of seqs) comp mem nt) in *.
  pose proof (clamp_num_threads_range _ _ Hn H1 Ht : 1 ≤ nt < size_t_modulus) as Hc.
  eexists. split; [reflexivity|]. cbn [res_seqs].
  split; [apply advanced_length|].
  intros i q Hi. rewrite advanced_lookup, Hi. cbn [fmap option_fmap option_map].
  eexists. split; [reflexivity|].
  destruct (non_empty q) eqn:Hq.
  - apply non_empty_true in Hq. split_and!; [done | done |].
    intros _. reflexivity.
  - apply non_empty_false in Hq. split_and!; done.
Qed.

Lemma cursor_update_moves_only_starts_witness :
  ∃ r, example_call (seq 0) false [(0, 3); (4, 4); (3, 6); (6, 9)] 5 2 = Some r
       ∧ res_seqs r = [(2, 3); (4, 4); (5, 6); (7, 9)].
Proof.
  destruct (cursor_update_moves_only_starts (MultiwayMergeAlgorithm := unit)
           multiway_merge_base multiway_merge_exact_splitting
           multiway_merge_exact_splitting false
              [(0, 3); (4, 4); (3, 6); (6, 9)]
              100 5 Z.ltb tt MWMSA_EXACT 2 example_mem ∅)
    as (r & Hr & _).
  - vm_compute. reflexivity.
  - unfold is_size_t, size_t_modulus. lia.
  - lia.
  - exists r. split; [exact Hr|].
    vm_compute in Hr. injection Hr as <-. reflexivity.
Defined.

(** X2. Empty sequences do not take part in a call: two sequence sets with
    the same non-empty sequences in the same order give the same worker
    calls, the same target buffer and the same returned iterator, and the
    call on the one completes exactly when the call on the other does. *)
Theorem empty_sequences_are_ignored {A MultiwayMergeAlgorithm : Type}
    (merge : bool → bool → list range → Z → Z → (A → A → bool) →
             MultiwayMergeAlgorithm → (Z → A) → gmap Z A → gmap Z A)
    (sampling exact : bool → list range → Z → Z → (A → A → bool) → (Z → A) →
                      Z → nat → nat → range)
    (Stable : bool) (seqs : list range)
    (target size : Z) (comp : A → A → bool) (mwma : MultiwayMergeAlgorithm)
    (mwmsa : MultiwayMergeSplittingAlgorithm) (num_threads : Z)
    (mem : Z → A) (buf : gmap Z A)
    (seqs' : list range) :
  seqs_ne_of seqs = seqs_ne_of seqs' →
  observable <$>
    parallel_multiway_merge_base merge sampling exact Stable
      seqs target size comp mwma mwmsa num_threads mem buf
  = observable <$>
      parallel_multiway_merge_base merge sampling exact Stable
        seqs' target size comp mwma mwmsa num_threads mem buf.
Proof.
  intros Hne. unfold parallel_multiway_merge_base, parallel_multiway_merge_base_sched.
  rewrite !non_empty_sequences_eq. cbn [fst snd]. unfold total_size_of.
  pose proof (update_ends_seqs_ne
    (allocate_chunks
       (planner sampling exact mwmsa Stable (seqs_ne_of seqs') size
          (sumZ (range_size <$> seqs_ne_of seqs')) comp mem
          (clamp_num_threads num_threads (sumZ (range_size <$> seqs_ne_of seqs'))))
       (clamp_num_threads num_threads (sumZ (range_size <$> seqs_ne_of seqs')))
       (length (seqs_ne_of seqs')))
    (clamp_num_threads num_threads (sumZ (range_size <$> seqs_ne_of seqs')))) as Hu.
  pose proof (Hu seqs 0%nat) as Hu1. pose proof (Hu seqs' 0%nat) as Hu2.
  rewrite Hne in *.
  destruct (bool_decide _ || bool_decide _); [done|].
  destruct (foldl _ _ _) as [[buf' calls]|]; [|done].
  cbn [mbind option_bind].
  destruct (update_ends _ _ seqs 0), (update_ends _ _ seqs' 0);
    cbn [mbind option_bind fmap option_fmap option_map];
    first [ done
          | by destruct (proj2 Hu2 (proj1 Hu1 ltac:(by eexists)))
          | by destruct (proj2 Hu1 (proj1 Hu2 ltac:(by eexists))) ].
Qed.

Lemma empty_sequences_are_ignored_witness :
  observable <$> example_call (seq 0) false [(0, 3); (4, 4); (3, 6); (6, 9)] 5 2
  = observable <$> example_call (seq 0) false [(9, 9); (0, 3); (3, 6); (6, 9)] 5 2.
Proof.
  apply (empty_sequences_are_ignored (MultiwayMergeAlgorithm := unit)
           multiway_merge_base multiway_merge_exact_splitting
           multiway_merge_exact_splitting false
           [(0, 3); (4, 4); (3, 6); (6, 9)]
           100 5 Z.ltb tt MWMSA_EXACT 2 example_mem ∅
           [(9, 9); (0, 3); (3, 6); (6, 9)]).
  vm_compute. reflexivity.
Defined.

(** X3. After a call with a non-empty input, whatever the planner: the
    distances by which the starts of the sequences have moved add up to the
    target position of the last worker plus the total length of its row of
    chunks (its [local_size], before the cap by [size]). *)
Theorem cursor_advance_is_last_window_end {A MultiwayMergeAlgorithm : Type}
    (merge : bool → bool → list range → Z → Z → (A → A → bool) →
             MultiwayMergeAlgorithm → (Z → A) → gmap Z A → gmap Z A)
    (sampling exact : bool → list range → Z → Z → (A → A → bool) → (Z → A) →
                      Z → nat → nat → range)
    (Stable : bool) (seqs : list range)
    (target size : Z) (comp : A → A → bool) (mwma : MultiwayMergeAlgorithm)
    (mwmsa : MultiwayMergeSplittingAlgorithm) (num_threads : Z)
    (mem : Z → A) (buf : gmap Z A) :
  0 < total_size_of seqs → is_size_t num_threads → 1 ≤ num_threads →
  ∃ r c,
    parallel_multiway_merge_base merge sampling exact Stable
      seqs target size comp mwma mwmsa num_threads mem buf = Some r
    ∧ last (res_calls r) = Some c
    ∧ sumZ (zip_with (λ q' q : range, q'.1 - q.1) (res_seqs r) seqs)
      = (wc_target c - target) + sumZ ((λ c : range, c.2 - c.1) <$> wc_row c).
Proof.
  intros Ht Hn H1. unfold parallel_multiway_merge_base.
  rewrite parallel_multiway_merge_base_sched_eq;
    [| done | done | done | apply seq_schedule_ok].
  set (nt := clamp_num_threads num_threads (total_size_of seqs)) in *.
  set (table := planner sampling exact mwmsa Stable (seqs_ne_of seqs) size
                  (total_size_of seqs) comp mem nt) in *.
  pose proof (clamp_num_threads_range _ _ Hn H1 Ht : 1 ≤ nt < size_t_modulus) as Hc.
  destruct (Z.to_nat nt) as [|k] eqn:Hk; [lia|].
  replace (Z.to_nat (nt - 1)) with k by lia.
  eexists. exists (expected_call table (seqs_ne_of seqs) target size k).
  split; [reflexivity|]. cbn [res_calls res_seqs]. split.
  - by rewrite fmap_last, seq_S, last_snoc.
  - rewrite sumZ_zip_advanced, (row_end_sum (table k)).
    unfold expected_call. cbn [wc_target wc_row].
    change (sumZ ((λ c : range, c.2 - c.1) <$> ?l)) with (row_length l). lia.
Qed.

Lemma cursor_advance_is_last_window_end_witness :
  ∃ r c,
    example_call (seq 0) false [(0, 3); (4, 4); (3, 6); (6, 9)] 5 2 = Some r
    ∧ last (res_calls r) = Some c
    ∧ sumZ (zip_with (λ q' q : range, q'.1 - q.1) (res_seqs r)
              [(0, 3); (4, 4); (3, 6); (6, 9)])
      = (wc_target c - 100) + sumZ ((λ c : range, c.2 - c.1) <$> wc_row c).
Proof.
  apply (cursor_advance_is_last_window_end (MultiwayMergeAlgorithm := unit)
           multiway_merge_base multiway_merge_exact_splitting
           multiway_merge_exact_splitting false
           [(0, 3); (4, 4); (3, 6); (6, 9)]
           100 5 Z.ltb tt MWMSA_EXACT 2 example_mem ∅).
  - vm_compute. reflexivity.
  - unfold is_size_t, size_t_modulus. lia.
  - lia.
Defined.

(** X4. When the planner leaves a table of valid chunks in which, for every
    sequence, the chunk of the first row starts at the start of the sequence
    and the chunk of every later row starts where that of the row before
    ends: the first worker writes from [target], every other worker is asked
    to write from where the previous one's row of chunks ends, and no worker
    is asked to write into the part of the target of a later worker. *)
Theorem worker_windows_are_adjacent {A MultiwayMergeAlgorithm : Type}
    (merge : bool → bool → list range → Z → Z → (A → A → bool) →
             MultiwayMergeAlgorithm → (Z → A) → gmap Z A → gmap Z A)
    (sampling exact : bool → list range → Z → Z → (A → A → bool) → (Z → A) →
                      Z → nat → nat → range)
    (Stable : bool) (seqs : list range)
    (target size : Z) (comp : A → A → bool) (mwma : MultiwayMergeAlgorithm)
    (mwmsa : MultiwayMergeSplittingAlgorithm) (num_threads : Z)
    (mem : Z → A) (buf : gmap Z A) :
  0 < total_size_of seqs → is_size_t num_threads → 1 ≤ num_threads →
  let nt := clamp_num_threads num_threads (total_size_of seqs) in
  let table :=
    planner sampling exact mwmsa Stable (seqs_ne_of seqs) size
      (total_size_of seqs) comp mem nt in
  table_consecutive (seqs_ne_of seqs) table (Z.to_nat nt) = true →
  ∃ r,
    parallel_multiway_merge_base merge sampling exact Stable
      seqs target size comp mwma mwmsa num_threads mem buf = Some r
    ∧ (∃ c, res_calls r !! 0%nat = Some c ∧ wc_target c = target)
    ∧ (∀ (w : nat) c c',
         res_calls r !! w = Some c → res_calls r !! S w = Some c' →
         wc_target c' = wc_target c + sumZ ((λ c : range, c.2 - c.1) <$> wc_row c))
    ∧ (∀ (w w' : nat) c c',
         (w < w')%nat →
         res_calls r !! w = Some c → res_calls r !! w' = Some c' →
         wc_target c + wc_size c ≤ wc_target c').
Proof.
  intros Ht Hn H1. cbv zeta. intros Htable. unfold parallel_multiway_merge_base.
  rewrite parallel_multiway_merge_base_sched_eq;
    [| done | done | done | apply seq_schedule_ok].
  set (nt := clamp_num_threads num_threads (total_size_of seqs)) in *.
  set (table := planner sampling exact mwmsa Stable (seqs_ne_of seqs) size
                  (total_size_of seqs) comp mem nt) in *.
  pose proof (clamp_num_threads_range _ _ Hn H1 Ht : 1 ≤ nt < size_t_modulus) as Hc.
  eexists. split; [reflexivity|]. cbn [res_calls].
  assert (∀ (w : nat) c,
            (expected_call table (seqs_ne_of seqs) target size
               <$> seq 0 (Z.to_nat nt)) !! w = Some c →
            (w < Z.to_nat nt)%nat
            ∧ c = expected_call table (seqs_ne_of seqs) target size w) as Hcall.
  { intros w c Hw. rewrite list_lookup_fmap in Hw.
    destruct (seq 0 (Z.to_nat nt) !! w) as [w0|] eqn:Hs; [|done].
    apply lookup_seq in Hs as [-> Hs]. simpl in Hw. by injection Hw as <-. }
  split_and!.
  - eexists. rewrite list_lookup_fmap, lookup_seq_lt by lia.
    split; [reflexivity|]. unfold expected_call. cbn [wc_target].
    pose proof (consecutive_first _ _ _ Htable ltac:(lia)) as H.
    unfold table_row in H. cbn [Nat.add]. lia.
  - intros w c c' Hw Hw'.
    apply Hcall in Hw as [Hlt ->]. apply Hcall in Hw' as [Hlt' ->].
    unfold expected_call. cbn [wc_target wc_row].
    change (sumZ ((λ c : range, c.2 - c.1) <$> ?l)) with (row_length l).
    pose proof (consecutive_next _ _ _ Htable w Hlt') as H.
    unfold table_row in H. lia.
  - intros w w' c c' Hww Hw Hw'.
    apply Hcall in Hw as [Hlt ->]. apply Hcall in Hw' as [Hlt' ->].
    unfold expected_call. cbn [wc_target wc_size].
    pose proof (consecutive_later _ _ _ Htable w w' Hww Hlt') as H.
    unfold table_row in H. lia.
Qed.

Lemma worker_windows_are_adjacent_witness :
  ∃ r, example_call (seq 0) false example_seqs 7 3 = Some r
       ∧ (wc_target <$> res_calls r) = [100; 102; 104]
       ∧ (wc_size <$> res_calls r) = [2; 2; 3].
Proof.
  destruct (worker_windows_are_adjacent (MultiwayMergeAlgorithm := unit)
           multiway_merge_base multiway_merge_exact_splitting
           multiway_merge_exact_splitting false example_seqs
              100 7 Z.ltb tt MWMSA_EXACT 3 example_mem ∅)
    as (r & Hr & _).
  - vm_compute. reflexivity.
  - unfold is_size_t, size_t_modulus. lia.
  - lia.
  - vm_compute. reflexivity.
  - exists r. split; [exact Hr|].
    vm_compute in Hr. injection Hr as <-. split; reflexivity.
Defined.

(** X5. For sequences that are valid ranges ([first <= second]) and at least
    one thread requested, the call completes; it dispatches no worker
    exactly when every sequence is empty, and then it has changed nothing
    and returns [target]; [total_size] is at least the number of non-empty
    sequences. *)
Theorem workers_dispatched_iff_non_empty {A MultiwayMergeAlgorithm : Type}
    (merge : bool → bool → list range → Z → Z → (A → A → bool) →
             MultiwayMergeAlgorithm → (Z → A) → gmap Z A → gmap Z A)
    (sampling exact : bool → list range → Z → Z → (A → A → bool) → (Z → A) →
                      Z → nat → nat → range)
    (Stable : bool) (seqs : list range)
    (target size : Z) (comp : A → A → bool) (mwma : MultiwayMergeAlgorithm)
    (mwmsa : MultiwayMergeSplittingAlgorithm) (num_threads : Z)
    (mem : Z → A) (buf : gmap Z A) :
  Forall (λ r : range, r.1 ≤ r.2) seqs →
  is_size_t num_threads → 1 ≤ num_threads →
  Z.of_nat (length (seqs_ne_of seqs)) ≤ total_size_of seqs
  ∧ ∃ r,
      parallel_multiway_merge_base merge sampling exact Stable
      seqs target size comp mwma mwmsa num_threads mem buf = Some r
      ∧ (res_calls r = [] ↔ Forall (λ r : range, r.1 = r.2) seqs)
      ∧ (res_calls r = [] → r = Result seqs buf target []).
Proof.
  intros Hwf Hn H1. pose proof (well_formed_total_size seqs Hwf) as Hle.
  split; [done|].
  destruct (seqs_ne_of seqs) as [|q0 ne] eqn:Hne.
  - rewrite all_empty_call by done.
    eexists. split; [reflexivity|]. cbn [res_calls].
    split; [|done]. split; [|done]. intros _. by apply seqs_ne_nil_all_empty.
  - cbn [length] in Hle. assert (0 < total_size_of seqs) as Ht by lia.
    unfold parallel_multiway_merge_base.
  rewrite parallel_multiway_merge_base_sched_eq;
    [| done | done | done | apply seq_schedule_ok].
  set (nt := clamp_num_threads num_threads (total_size_of seqs)) in *.
  set (table := planner sampling exact mwmsa Stable (seqs_ne_of seqs) size
                  (total_size_of seqs) comp mem nt) in *.
  pose proof (clamp_num_threads_range _ _ Hn H1 Ht : 1 ≤ nt < size_t_modulus) as Hc.
    eexists. split; [reflexivity|]. cbn [res_calls].
    destruct (Z.to_nat nt) as [|k] eqn:Hk; [lia|].
    split; [|done]. split; [done|].
    intros Hall. apply all_empty_seqs_ne in Hall. by rewrite Hall in Hne.
Qed.

Lemma workers_dispatched_iff_non_empty_witness :
  Z.of_nat (length (seqs_ne_of [(0, 3); (4, 4); (3, 6)]))
  ≤ total_size_of [(0, 3); (4, 4); (3, 6)]
  ∧ ∃ r,
      example_call (seq 0) false [(0, 3); (4, 4); (3, 6)] 5 2 = Some r
      ∧ (res_calls r = []
         ↔ Forall (λ r : range, r.1 = r.2) [(0, 3); (4, 4); (3, 6)])
      ∧ (res_calls r = [] → r = Result [(0, 3); (4, 4); (3, 6)] ∅ 100 []).
Proof.
  apply (workers_dispatched_iff_non_empty (MultiwayMergeAlgorithm := unit)
           multiway_merge_base multiway_merge_exact_splitting
           multiway_merge_exact_splitting false
           [(0, 3); (4, 4); (3, 6)]
           100 5 Z.ltb tt MWMSA_EXACT 2 example_mem ∅).
  - repeat constructor; simpl; lia.
  - unfold is_size_t, size_t_modulus. lia.
  - lia.
Defined.

(** X6. When the chunks that the planner leaves in the row of the last worker
    end where their sequences end, every sequence is empty after the call,
    and a further call on the sequence set, whatever its other arguments,
    dispatches no worker, changes nothing and returns its target. *)
Theorem drained_input_next_call_is_noop {A MultiwayMergeAlgorithm : Type}
    (merge : bool → bool → list range → Z → Z → (A → A → bool) →
             MultiwayMergeAlgorithm → (Z → A) → gmap Z A → gmap Z A)
    (sampling exact : bool → list range → Z → Z → (A → A → bool) → (Z → A) →
                      Z → nat → nat → range)
    (Stable : bool) (seqs : list range)
    (target size : Z) (comp : A → A → bool) (mwma : MultiwayMergeAlgorithm)
    (mwmsa : MultiwayMergeSplittingAlgorithm) (num_threads : Z)
    (mem : Z → A) (buf : gmap Z A) :
  0 < total_size_of seqs → is_size_t num_threads → 1 ≤ num_threads →
  let nt := clamp_num_threads num_threads (total_size_of seqs) in
  let table :=
    planner sampling exact mwmsa Stable (seqs_ne_of seqs) size
      (total_size_of seqs) comp mem nt in
  row_exhausts (seqs_ne_of seqs) table (Z.to_nat (nt - 1)) = true →
  ∃ r,
    parallel_multiway_merge_base merge sampling exact Stable
      seqs target size comp mwma mwmsa num_threads mem buf = Some r
    ∧ Forall (λ q : range, q.1 = q.2) (res_seqs r)
    ∧ ∀ Stable' target' size' comp' mwma' mwmsa' num_threads' mem' buf',
        parallel_multiway_merge_base merge sampling exact Stable'
          (res_seqs r) target' size' comp' mwma' mwmsa' num_threads' mem' buf'
        = Some (Result (res_seqs r) buf' target' []).
Proof.
  intros Ht Hn H1. cbv zeta. intros Hex.
  unfold parallel_multiway_merge_base at 1.
  rewrite parallel_multiway_merge_base_sched_eq;
    [| done | done | done | apply seq_schedule_ok].
  set (nt := clamp_num_threads num_threads (total_size_of seqs)) in *.
  set (table := planner sampling exact mwmsa Stable (seqs_ne_of seqs) size
                  (total_size_of seqs) comp mem nt) in *.
  eexists. split; [reflexivity|]. cbn [res_seqs].
  match goal with
  | |- Forall _ ?l ∧ _ => assert (Forall (λ q : range, q.1 = q.2) l) as Hall
  end.
  { apply Forall_lookup. intros i q' Hi. rewrite advanced_lookup in Hi.
    destruct (seqs !! i) as [q|] eqn:Hq; [|done].
    cbn [fmap option_fmap option_map] in Hi. injection Hi as <-.
    destruct (non_empty q) eqn:Hne; [|by apply non_empty_false].
    pose proof (seqs_ne_of_rank seqs i q Hq Hne) as Hr.
    unfold row_exhausts in Hex.
    apply (forallb_seq _ _ (rank_ne seqs i)) in Hex;
      [|by eapply lookup_lt_Some].
    cbv beta in Hex. rewrite Hr in Hex. apply bool_decide_eq_true in Hex.
    cbn [fst snd Nat.add]. done. }
  split; [done|]. intros. by apply all_empty_call, all_empty_seqs_ne.
Qed.

Lemma drained_input_next_call_is_noop_witness :
  ∃ r,
    example_call (seq 0) false example_seqs 9 2 = Some r
    ∧ res_seqs r = [(3, 3); (6, 6); (9, 9)]
    ∧ example_call (seq 0) true (res_seqs r) 4 3
      = Some (Result (res_seqs r) ∅ 100 []).
Proof.
  destruct (drained_input_next_call_is_noop (MultiwayMergeAlgorithm := unit)
           multiway_merge_base multiway_merge_exact_splitting
           multiway_merge_exact_splitting false example_seqs
              100 9 Z.ltb tt MWMSA_EXACT 2 example_mem ∅)
    as (r & Hr & _ & Hnext).
  - vm_compute. reflexivity.
  - unfold is_size_t, size_t_modulus. lia.
  - lia.
  - vm_compute. reflexivity.
  - exists r. split; [exact Hr|]. split; [|apply Hnext].
    vm_compute in Hr. injection Hr as <-. reflexivity.
Defined.

(** X7. With a non-empty input and a requested number of threads between 1
    and the largest value of [DiffType], the number of workers dispatched is
    the minimum of the requested number and [total_size]: at least one
    worker, never more than requested and never more than there are
    elements. *)
Theorem worker_count_bounds {A MultiwayMergeAlgorithm : Type}
    (merge : bool → bool → list range → Z → Z → (A → A → bool) →
             MultiwayMergeAlgorithm → (Z → A) → gmap Z A → gmap Z A)
    (sampling exact : bool → list range → Z → Z → (A → A → bool) → (Z → A) →
                      Z → nat → nat → range)
    (Stable : bool) (seqs : list range)
    (target size : Z) (comp : A → A → bool) (mwma : MultiwayMergeAlgorithm)
    (mwmsa : MultiwayMergeSplittingAlgorithm) (num_threads : Z)
    (mem : Z → A) (buf : gmap Z A) :
  0 < total_size_of seqs → 1 ≤ num_threads ≤ DiffType_max →
  let nt := clamp_num_threads num_threads (total_size_of seqs) in
  chunks_too_large nt = false ∧
  ∃ r,
    parallel_multiway_merge_base merge sampling exact Stable
      seqs target size comp mwma mwmsa num_threads mem buf = Some r
    ∧ Z.of_nat (length (res_calls r)) = nt
    ∧ nt = Z.min num_threads (total_size_of seqs)
    ∧ 1 ≤ nt ≤ num_threads
    ∧ nt ≤ total_size_of seqs.
Proof.
  intros Ht Hn. cbv zeta.
  assert (is_size_t num_threads) as Hs.
  { unfold is_size_t, size_t_modulus. unfold DiffType_max in Hn. lia. }
  pose proof (clamp_num_threads_min num_threads (total_size_of seqs)
                ltac:(lia) Ht) as Hc.
  split; [apply bool_decide_eq_false; lia|].
  unfold parallel_multiway_merge_base.
  rewrite parallel_multiway_merge_base_sched_eq;
    [| done | done | lia | apply seq_schedule_ok].
  eexists. split; [reflexivity|]. cbn [res_calls].
  rewrite length_fmap, length_seq, Hc. lia.
Qed.

Lemma worker_count_bounds_witness :
  ∃ r, example_call (seq 0) false [(0, 3); (5, 5); (7, 7)] 10 4 = Some r
       ∧ Z.of_nat (length (res_calls r)) = 3.
Proof.
  destruct (worker_count_bounds (MultiwayMergeAlgorithm := unit)
           multiway_merge_base multiway_merge_exact_splitting
           multiway_merge_exact_splitting false [(0, 3); (5, 5); (7, 7)]
              100 10 Z.ltb tt MWMSA_EXACT 4 example_mem ∅)
    as (_ & r & Hr & Hlen & _).
  - vm_compute. reflexivity.
  - unfold DiffType_max. lia.
  - exists r. split; [exact Hr|]. rewrite Hlen. vm_compute. reflexivity.
Defined.
